(** * State maintenance for cozy: a shallow embedding of
      [cozy/state_maintenance.py] and the properties its specification states.

    The Python module rewrites expressions of cozy's query language.  The
    abstract syntax ([cozy.syntax], [cozy.target_syntax]), the evaluator
    ([cozy.evaluation]), capture-avoiding substitution ([cozy.syntax_tools])
    and the SMT oracle ([cozy.solver]) live in other modules of the
    repository.  The syntax, the evaluator and substitution are modelled
    here from their interface; the oracle, alpha-equivalence and the
    simplifier are parameters of the development, constrained only by the
    contracts stated as hypotheses of the theorems that need them. *)

From Stdlib Require Import List ZArith String Ascii Bool Lia Arith.
From Stdlib Require DecimalString.
From Stdlib Require Import Permutation.
From Equations Require Import Equations.
Import ListNotations.

Set Implicit Arguments.
Set Warnings "-register-all".
Local Open Scope list_scope.

(* ===================================================================== *)
(** * Abstract syntax *)
(* ===================================================================== *)

(** Modelled from the spec: the semantic types every expression node
    carries ([cozy.syntax.Type] and subclasses; the module is not part of
    the sources at hand). *)
Inductive Ty : Type :=
| TInt
| TLong
| TBool
| TString
| TNative (name : string)
| THandle (statevar : string) (value_type : Ty)
| TBag (t : Ty)
| TSet (t : Ty)
| TList (t : Ty)
| TMap (k v : Ty)
| TRecord (fields : list (string * Ty))
| TTuple (ts : list Ty)
| TFunc (arg_types : list Ty) (ret_type : Ty).

Definition INT := TInt.
Definition BOOL := TBool.

Fixpoint Ty_eq_dec (a b : Ty) : {a = b} + {a <> b}.
Proof.
  decide equality; try apply string_dec.
  - apply list_eq_dec. intros [s1 t1] [s2 t2].
    destruct (string_dec s1 s2) as [ -> | n];
      [ destruct (Ty_eq_dec t1 t2) as [ -> | n];
        [ left; reflexivity | right; congruence ]
      | right; congruence ].
  - apply (list_eq_dec Ty_eq_dec).
  - apply (list_eq_dec Ty_eq_dec).
Defined.

Definition Ty_eqb (a b : Ty) : bool := if Ty_eq_dec a b then true else false.

(** [is_collection] and [is_numeric] of [cozy.typecheck]. *)
Definition is_collection (t : Ty) : bool :=
  match t with TBag _ | TSet _ | TList _ => true | _ => false end.

Definition is_numeric (t : Ty) : bool :=
  match t with TInt | TLong => true | _ => false end.

(** [t.t]: the element type of a collection type. *)
Definition elem_type (t : Ty) : Ty :=
  match t with TBag a | TSet a | TList a => a | _ => t end.

(** [type(e.type)(a)]: the same kind of collection over another element. *)
Definition same_collection (t a : Ty) : Ty :=
  match t with
  | TBag _ => TBag a
  | TSet _ => TSet a
  | TList _ => TList a
  | _ => TBag a
  end.

Inductive UOp : Type :=
| UNot | UExists | UEmpty | UDistinct | UThe | ULength | USum
| UAreUnique | UAll | UAny | UNeg.

Inductive BOp : Type :=
| BAnd | BOr | BIn | BAdd | BSub | BEq | BDeepEq | BNe
| BLt | BLe | BGt | BGe.

Definition UOp_eq_dec (a b : UOp) : {a = b} + {a <> b}.
Proof. decide equality. Defined.

Definition BOp_eq_dec (a b : BOp) : {a = b} + {a <> b}.
Proof. decide equality. Defined.

(** A variable occurrence with its type, as [EVar(id).with_type(t)]. *)
Record Var : Type := mkVar { var_id : string; var_type : Ty }.

Definition Var_eq_dec (a b : Var) : {a = b} + {a <> b}.
Proof. decide equality; [apply Ty_eq_dec | apply string_dec]. Defined.

(** [ELambda(arg, body)]. *)
Record Lambda (E : Type) : Type := ELambda { arg : Var; body : E }.
Arguments ELambda {E} arg body.
Arguments arg {E} _.
Arguments body {E} _.

(** Modelled from the spec: the expression tree of §3 (variable, literal,
    unary and binary operator, conditional, call, record construction and
    field access, tuple access, and the collection forms).  The first
    argument of each constructor is the node's [type] attribute. *)
Inductive Exp : Type :=
| EVar (t : Ty) (id : string)
| EBool (t : Ty) (val : bool)
| ENum (t : Ty) (val : Z)
| EUnaryOp (t : Ty) (op : UOp) (e : Exp)
| EBinOp (t : Ty) (e1 : Exp) (op : BOp) (e2 : Exp)
| ECond (t : Ty) (c : Exp) (then_branch else_branch : Exp)
| ECall (t : Ty) (func : string) (args : list Exp)
| EMakeRecord (t : Ty) (fields : list (string * Exp))
| EGetField (t : Ty) (e : Exp) (f : string)
| ETupleGet (t : Ty) (e : Exp) (n : nat)
| EEmptyList (t : Ty)
| ESingleton (t : Ty) (e : Exp)
| EArgMin (t : Ty) (e : Exp) (f : Lambda Exp)
| EArgMax (t : Ty) (e : Exp) (f : Lambda Exp)
| EMap (t : Ty) (e : Exp) (f : Lambda Exp)
| EFilter (t : Ty) (e : Exp) (p : Lambda Exp)
| EFlatMap (t : Ty) (e : Exp) (f : Lambda Exp)
| EStateVar (t : Ty) (e : Exp)
| EMakeMap2 (t : Ty) (e : Exp) (value : Lambda Exp)
| EMapGet (t : Ty) (m : Exp) (k : Exp)
| EMapKeys (t : Ty) (m : Exp)
| ELam (f : Lambda Exp).

(** [e.type] and [e.with_type(t)]. *)
Fixpoint typ (e : Exp) : Ty :=
  match e with
  | EVar t _ | EBool t _ | ENum t _ | EUnaryOp t _ _ | EBinOp t _ _ _
  | ECond t _ _ _ | ECall t _ _ | EMakeRecord t _ | EGetField t _ _
  | ETupleGet t _ _ | EEmptyList t | ESingleton t _ | EArgMin t _ _
  | EArgMax t _ _ | EMap t _ _ | EFilter t _ _ | EFlatMap t _ _
  | EStateVar t _ | EMakeMap2 t _ _ | EMapGet t _ _ | EMapKeys t _ => t
  | ELam (ELambda x b) => TFunc [var_type x] (typ b)
  end.

Definition with_type (e : Exp) (t : Ty) : Exp :=
  match e with
  | EVar _ x => EVar t x
  | EBool _ b => EBool t b
  | ENum _ n => ENum t n
  | EUnaryOp _ o a => EUnaryOp t o a
  | EBinOp _ a o b => EBinOp t a o b
  | ECond _ c a b => ECond t c a b
  | ECall _ f l => ECall t f l
  | EMakeRecord _ l => EMakeRecord t l
  | EGetField _ a f => EGetField t a f
  | ETupleGet _ a n => ETupleGet t a n
  | EEmptyList _ => EEmptyList t
  | ESingleton _ a => ESingleton t a
  | EArgMin _ a f => EArgMin t a f
  | EArgMax _ a f => EArgMax t a f
  | EMap _ a f => EMap t a f
  | EFilter _ a f => EFilter t a f
  | EFlatMap _ a f => EFlatMap t a f
  | EStateVar _ a => EStateVar t a
  | EMakeMap2 _ a f => EMakeMap2 t a f
  | EMapGet _ a k => EMapGet t a k
  | EMapKeys _ a => EMapKeys t a
  | ELam f => ELam f
  end.

Definition evar (v : Var) : Exp := EVar (var_type v) (var_id v).

(** Structural induction that reaches the expressions nested in argument
    lists, record fields and lambda bodies. *)
Section ExpInd.
Variable P : Exp -> Prop.
Hypothesis HVar : forall t x, P (EVar t x).
Hypothesis HBool : forall t b, P (EBool t b).
Hypothesis HNum : forall t n, P (ENum t n).
Hypothesis HUn : forall t o e, P e -> P (EUnaryOp t o e).
Hypothesis HBin : forall t a o b, P a -> P b -> P (EBinOp t a o b).
Hypothesis HCond : forall t c a b, P c -> P a -> P b -> P (ECond t c a b).
Hypothesis HCall : forall t f l, Forall P l -> P (ECall t f l).
Hypothesis HRec : forall t l, Forall (fun p => P (snd p)) l ->
                                P (EMakeRecord t l).
Hypothesis HGet : forall t e f, P e -> P (EGetField t e f).
Hypothesis HTGet : forall t e n, P e -> P (ETupleGet t e n).
Hypothesis HEmpty : forall t, P (EEmptyList t).
Hypothesis HSing : forall t e, P e -> P (ESingleton t e).
Hypothesis HArgMin : forall t e f, P e -> P (body f) -> P (EArgMin t e f).
Hypothesis HArgMax : forall t e f, P e -> P (body f) -> P (EArgMax t e f).
Hypothesis HMap : forall t e f, P e -> P (body f) -> P (EMap t e f).
Hypothesis HFilter : forall t e f, P e -> P (body f) -> P (EFilter t e f).
Hypothesis HFlatMap : forall t e f, P e -> P (body f) -> P (EFlatMap t e f).
Hypothesis HState : forall t e, P e -> P (EStateVar t e).
Hypothesis HMakeMap : forall t e f, P e -> P (body f) -> P (EMakeMap2 t e f).
Hypothesis HMapGet : forall t m k, P m -> P k -> P (EMapGet t m k).
Hypothesis HMapKeys : forall t m, P m -> P (EMapKeys t m).
Hypothesis HLam : forall f, P (body f) -> P (ELam f).

Fixpoint Exp_induction (e : Exp) : P e :=
    let lam (f : Lambda Exp) : P (body f) :=
      match f with ELambda _ b => Exp_induction b end in
    match e with
    | EVar t x => HVar t x
    | EBool t b => HBool t b
    | ENum t n => HNum t n
    | EUnaryOp t o a => HUn t o (Exp_induction a)
    | EBinOp t a o b => HBin t o (Exp_induction a) (Exp_induction b)
    | ECond t c a b =>
        HCond t (Exp_induction c) (Exp_induction a) (Exp_induction b)
    | ECall t f l =>
        HCall t f
          ((fix go (l : list Exp) : Forall P l :=
              match l with
              | [] => Forall_nil P
              | x :: r => Forall_cons x (Exp_induction x) (go r)
              end) l)
    | EMakeRecord t l =>
        HRec t
          ((fix go (l : list (string * Exp))
              : Forall (fun p => P (snd p)) l :=
              match l with
              | [] => Forall_nil _
              | (n, x) :: r =>
                  Forall_cons (A := string * Exp)
                    (P := fun p => P (snd p)) (n, x)
                    (Exp_induction x) (go r)
              end) l)
    | EGetField t a f => HGet t f (Exp_induction a)
    | ETupleGet t a n => HTGet t n (Exp_induction a)
    | EEmptyList t => HEmpty t
    | ESingleton t a => HSing t (Exp_induction a)
    | EArgMin t a f => HArgMin t f (Exp_induction a) (lam f)
    | EArgMax t a f => HArgMax t f (Exp_induction a) (lam f)
    | EMap t a f => HMap t f (Exp_induction a) (lam f)
    | EFilter t a f => HFilter t f (Exp_induction a) (lam f)
    | EFlatMap t a f => HFlatMap t f (Exp_induction a) (lam f)
    | EStateVar t a => HState t (Exp_induction a)
    | EMakeMap2 t a f => HMakeMap t f (Exp_induction a) (lam f)
    | EMapGet t m k => HMapGet t (Exp_induction m) (Exp_induction k)
    | EMapKeys t m => HMapKeys t (Exp_induction m)
    | ELam f => HLam f (lam f)
    end.
End ExpInd.

(** Structural equality of expressions, Python's [==] on AST nodes. *)
Fixpoint Exp_eq_dec (a b : Exp) : {a = b} + {a <> b}.
Proof.
  assert (Hlam : forall f g : Lambda Exp, {f = g} + {f <> g}).
  { intros [x1 b1] [x2 b2].
    destruct (Var_eq_dec x1 x2) as [ -> | n];
      [ destruct (Exp_eq_dec b1 b2) as [ -> | n];
        [ left; reflexivity | right; congruence ]
      | right; congruence ]. }
  decide equality;
    try apply Ty_eq_dec; try apply string_dec; try apply Z.eq_dec;
    try apply Bool.bool_dec; try apply UOp_eq_dec; try apply BOp_eq_dec;
    try apply Nat.eq_dec.
  - apply (list_eq_dec Exp_eq_dec).
  - apply list_eq_dec. intros [s1 t1] [s2 t2].
    destruct (string_dec s1 s2) as [ -> | n];
      [ destruct (Exp_eq_dec t1 t2) as [ -> | n];
        [ left; reflexivity | right; congruence ]
      | right; congruence ].
Defined.

Definition Exp_eqb (a b : Exp) : bool :=
  if Exp_eq_dec a b then true else false.

(** ** Helper constructors of [cozy.syntax] *)

Definition T : Exp := EBool BOOL true.
Definition F : Exp := EBool BOOL false.
Definition ZERO : Exp := ENum INT 0.
Definition ONE : Exp := ENum INT 1.

Definition ENot (e : Exp) : Exp := EUnaryOp BOOL UNot e.
Definition EEq (a b : Exp) : Exp := EBinOp BOOL a BEq b.
Definition ENe (a b : Exp) : Exp := EBinOp BOOL a BNe b.
Definition EGt (a b : Exp) : Exp := EBinOp BOOL a BGt b.
Definition EGe (a b : Exp) : Exp := EBinOp BOOL a BGe b.
Definition ELe (a b : Exp) : Exp := EBinOp BOOL a BLe b.
Definition ELt (a b : Exp) : Exp := EBinOp BOOL a BLt b.
Definition EIn (x xs : Exp) : Exp := EBinOp BOOL x BIn xs.
Definition EImplies (a b : Exp) : Exp := EBinOp BOOL (ENot a) BOr b.
Definition EExists (e : Exp) : Exp := EUnaryOp BOOL UExists e.
Definition EEmpty (e : Exp) : Exp := EUnaryOp BOOL UEmpty e.
Definition ELen (e : Exp) : Exp := EUnaryOp INT ULength e.

(** [EAll], [EAny] and [ESum] fold a list of operands with [and], [or]
    and [+]; the empty folds are [T], [F] and [ZERO]. *)
Fixpoint EAll (es : list Exp) : Exp :=
  match es with
  | [] => T
  | [e] => e
  | e :: rest => EBinOp BOOL e BAnd (EAll rest)
  end.

Fixpoint EAny (es : list Exp) : Exp :=
  match es with
  | [] => F
  | [e] => e
  | e :: rest => EBinOp BOOL e BOr (EAny rest)
  end.

Fixpoint ESum (es : list Exp) : Exp :=
  match es with
  | [] => ZERO
  | [e] => e
  | e :: rest => EBinOp INT e BAdd (ESum rest)
  end.

(** ** Statements, queries and contexts *)

(** Modelled from the spec: the statement forms of §3, and the loop and
    map statements of [cozy.target_syntax] that [sketch_update] emits. *)
Inductive Stm : Type :=
| SNoOp
| SSeq (s1 s2 : Stm)
| SIf (c : Exp) (then_branch else_branch : Stm)
| SAssign (lhs rhs : Exp)
| SDecl (id : string) (val : Exp)
| SCall (target : Exp) (func : string) (args : list Exp)
| SForEach (v : Var) (iter : Exp) (body : Stm)
| SMapDel (m k : Exp)
| SMapUpdate (m k : Exp) (v : Var) (change : Stm).

(** [syntax.seq]: sequence the statements that are not no-ops. *)
Fixpoint seq (stms : list Stm) : Stm :=
  match stms with
  | [] => SNoOp
  | SNoOp :: rest => seq rest
  | s :: rest =>
      match seq rest with
      | SNoOp => s
      | r => SSeq s r
      end
  end.

Inductive Visibility : Type := Public | Private | Internal.

(** [syntax.Query]: a named subgoal. *)
Record Query : Type := mkQuery {
  q_name : string;
  q_visibility : Visibility;
  q_args : list (string * Ty);
  q_assumptions : list Exp;
  q_ret : Exp;
  q_docstring : string
}.

Inductive Pool : Type := STATE_POOL | RUNTIME_POOL.

(** [cozy.contexts]: a root context lists state variables and arguments;
    [UnderBinder] extends a context with a variable ranging over a bag. *)
Inductive Context : Type :=
| RootCtx (state_vars args : list Var) (funcs : list string)
| UnderBinder (parent : Context) (v : Var) (bag : Exp) (pool : Pool).

(* ===================================================================== *)
(** * Exceptions, results and the fresh-name counter *)
(* ===================================================================== *)

(** The exceptions the module raises.  [ForkOn] and [NotEfficient] are the
    two classes it defines; the others are Python built-ins. *)
Inductive exn : Type :=
| ForkOn (cond : Exp)
| NotEfficient (e : Exp)
| NotImplementedError
| ValueError
| AssertionError
| IndexError
| KeyError
| TypeError
| AttributeError
| Exception (msg : string).

(** The outcome of a call: a value, a raised exception, or the recursion
    budget of the model exhausted. *)
Inductive res (A : Type) : Type :=
| Return (v : A)
| Raise (x : exn)
| OutOfFuel.
Arguments Return {A} v.
Arguments Raise {A} x.
Arguments OutOfFuel {A}.

Definition bindR {A B} (m : res A) (k : A -> res B) : res B :=
  match m with
  | Return v => k v
  | Raise x => Raise x
  | OutOfFuel => OutOfFuel
  end.

Notation "x <- m ;; k" := (bindR m (fun x => k))
  (at level 61, m at next level, right associativity).
Notation "' p <- m ;; k" := (bindR m (fun p => k))
  (at level 61, p pattern, m at next level, right associativity).

(** Computations that also draw fresh names: the state is the counter
    behind [cozy.common.fresh_name]. *)
Definition M (A : Type) : Type := nat -> res A * nat.

Definition ret {A} (v : A) : M A := fun st => (Return v, st).
Definition raise {A} (x : exn) : M A := fun st => (Raise x, st).
Definition lift {A} (r : res A) : M A := fun st => (r, st).

Definition bind {A B} (m : M A) (k : A -> M B) : M B :=
  fun st =>
    match m st with
    | (Return v, st') => k v st'
    | (Raise x, st') => (Raise x, st')
    | (OutOfFuel, st') => (OutOfFuel, st')
    end.

Notation "x <-- m ;; k" := (bind m (fun x => k))
  (at level 61, m at next level, right associativity).
Notation "' p <-- m ;; k" := (bind m (fun p => k))
  (at level 61, p pattern, m at next level, right associativity).


Fixpoint mapR {A B} (f : A -> res B) (l : list A) : res (list B) :=
  match l with
  | [] => Return []
  | x :: r => y <- f x ;; ys <- mapR f r ;; Return (y :: ys)
  end.

Fixpoint mapM {A B} (f : A -> M B) (l : list A) : M (list B) :=
  match l with
  | [] => ret []
  | x :: r => y <-- f x ;; ys <-- mapM f r ;; ret (y :: ys)
  end.

Definition string_of_nat (n : nat) : string :=
  DecimalString.NilZero.string_of_uint (Nat.to_uint n).

(** [fresh_name] and [fresh_var] of [cozy.common] and [cozy.syntax_tools]:
    the next name of the process-wide counter. *)
Definition fresh_name (hint : string) : M string :=
  fun st => (Return (String "_" (hint ++ string_of_nat st))%string, S st).

Definition fresh_var (t : Ty) (hint : string) : M Var :=
  x <-- fresh_name hint ;; ret (mkVar x t).

(* ===================================================================== *)
(** * Values and evaluation *)
(* ===================================================================== *)

(** Modelled from the spec: the values of [cozy.evaluation], which is not
    part of the sources at hand.  Collections of every kind are lists of
    their elements; the statements about bags below compare them by the
    number of occurrences of each element.  A handle is an address tagged
    with its handle type; two handles are equal when they are the same
    address of the same type, and the payload that a handle points to is
    kept in the heap of the environment, so that a write through one handle
    is seen through every alias of it. *)
Inductive Value : Type :=
| VInt (z : Z)
| VBool (b : bool)
| VBag (l : list Value)
| VTuple (l : list Value)
| VRecord (fs : list (string * Value))
| VMap (m : list (Value * Value))
| VHandle (tag : Ty) (addr : Z).

Fixpoint Value_eq_dec (a b : Value) : {a = b} + {a <> b}.
Proof.
  decide equality; try apply Z.eq_dec; try apply Bool.bool_dec;
    try apply Ty_eq_dec; try apply (list_eq_dec Value_eq_dec).
  - apply list_eq_dec. intros [s1 t1] [s2 t2].
    destruct (string_dec s1 s2) as [ -> | n];
      [ destruct (Value_eq_dec t1 t2) as [ -> | n];
        [ left; reflexivity | right; congruence ]
      | right; congruence ].
  - apply list_eq_dec. intros [s1 t1] [s2 t2].
    destruct (Value_eq_dec s1 s2) as [ -> | n];
      [ destruct (Value_eq_dec t1 t2) as [ -> | n];
        [ left; reflexivity | right; congruence ]
      | right; congruence ].
Defined.

Definition Value_eqb (a b : Value) : bool :=
  if Value_eq_dec a b then true else false.

(** Evaluation is total: a value of the wrong shape is read as the empty
    bag, [false] or [0].  On well-typed expressions no such reading
    happens. *)
Definition as_bool (v : Value) : bool :=
  match v with VBool b => b | _ => false end.
Definition as_int (v : Value) : Z :=
  match v with VInt z => z | _ => 0%Z end.
Definition as_bag (v : Value) : list Value :=
  match v with VBag l => l | _ => [] end.
Definition is_bag (v : Value) : bool :=
  match v with VBag _ => true | _ => false end.

Definition junk : Value := VInt 0.

(** ** Bags as lists *)

Definition count (x : Value) (l : list Value) : nat :=
  count_occ Value_eq_dec l x.

Definition mem (x : Value) (l : list Value) : bool :=
  existsb (Value_eqb x) l.

(** Remove one occurrence of [x]. *)
Fixpoint remove1 (x : Value) (l : list Value) : list Value :=
  match l with
  | [] => []
  | y :: r => if Value_eq_dec x y then r else y :: remove1 x r
  end.

(** Bag difference: remove the elements of [l2] from [l1] one by one. *)
Fixpoint bag_diff (l1 l2 : list Value) : list Value :=
  match l2 with
  | [] => l1
  | x :: r => bag_diff (remove1 x l1) r
  end.

(** Two lists denote the same bag. *)
Definition bag_eq (l1 l2 : list Value) : Prop :=
  forall x, count x l1 = count x l2.

(** The first element of [l] whose key is least (greatest for [ArgMax]). *)
Fixpoint arg_best (better : Z -> Z -> bool) (key : Value -> Z)
    (l : list Value) : Value :=
  match l with
  | [] => junk
  | x :: r =>
      match r with
      | [] => x
      | _ =>
          let y := arg_best better key r in
          if better (key y) (key x) then y else x
      end
  end.

Fixpoint lookup {A} (x : string) (l : list (string * A)) : option A :=
  match l with
  | [] => None
  | (y, v) :: r => if string_dec x y then Some v else lookup x r
  end.

Fixpoint map_lookup (k : Value) (m : list (Value * Value)) : option Value :=
  match m with
  | [] => None
  | (k', v) :: r => if Value_eq_dec k k' then Some v else map_lookup k r
  end.

Definition eval_unop (op : UOp) (v : Value) : Value :=
  match op with
  | UNot => VBool (negb (as_bool v))
  | UExists => VBool (negb (Nat.eqb (List.length (as_bag v)) 0))
  | UEmpty => VBool (Nat.eqb (List.length (as_bag v)) 0)
  | UDistinct => VBag (nodup Value_eq_dec (as_bag v))
  | UThe => hd junk (as_bag v)
  | ULength => VInt (Z.of_nat (List.length (as_bag v)))
  | USum => VInt (fold_right (fun x acc => (as_int x + acc)%Z) 0%Z (as_bag v))
  | UAreUnique =>
      VBool (Nat.eqb (List.length (nodup Value_eq_dec (as_bag v)))
                     (List.length (as_bag v)))
  | UAll => VBool (forallb as_bool (as_bag v))
  | UAny => VBool (existsb as_bool (as_bag v))
  | UNeg => VInt (- as_int v)
  end.

(** [+] and [-] are bag union and bag difference as soon as one operand is
    a bag, and integer arithmetic otherwise. *)
Definition eval_binop (op : BOp) (a b : Value) : Value :=
  match op with
  | BAnd => VBool (as_bool a && as_bool b)
  | BOr => VBool (as_bool a || as_bool b)
  | BIn => VBool (mem a (as_bag b))
  | BAdd =>
      if is_bag a || is_bag b then VBag (as_bag a ++ as_bag b)
      else VInt (as_int a + as_int b)
  | BSub =>
      if is_bag a || is_bag b then VBag (bag_diff (as_bag a) (as_bag b))
      else VInt (as_int a - as_int b)
  | BEq | BDeepEq => VBool (Value_eqb a b)
  | BNe => VBool (negb (Value_eqb a b))
  | BLt => VBool (as_int a <? as_int b)%Z
  | BLe => VBool (as_int a <=? as_int b)%Z
  | BGt => VBool (as_int a >? as_int b)%Z
  | BGe => VBool (as_int a >=? as_int b)%Z
  end.

(** An environment gives the variables their values, interprets the
    uninterpreted functions of the context, and holds the heap: the
    payload of every handle. *)
Record Env : Type := mkEnv {
  vars : string -> Value;
  funcs : string -> list Value -> Value;
  heap : Value -> Value
}.

Definition upd (env : Env) (x : string) (v : Value) : Env :=
  mkEnv (fun y => if string_dec y x then v else vars env y) (funcs env)
        (heap env).

(** The heap with the payload of the handle [h] set to [v]. *)
Definition upd_heap (env : Env) (h v : Value) : Env :=
  mkEnv (vars env) (funcs env)
        (fun k => if Value_eq_dec k h then v else heap env k).

(** Modelled from the spec: [cozy.evaluation.eval]. *)
Fixpoint eval (env : Env) (e : Exp) {struct e} : Value :=
  let lam (f : Lambda Exp) (v : Value) : Value :=
    match f with ELambda x b => eval (upd env (var_id x) v) b end in
  match e with
  | EVar _ x => vars env x
  | EBool _ b => VBool b
  | ENum _ n => VInt n
  | EUnaryOp _ op a => eval_unop op (eval env a)
  | EBinOp _ a op b => eval_binop op (eval env a) (eval env b)
  | ECond _ c a b => if as_bool (eval env c) then eval env a else eval env b
  | ECall _ f l => funcs env f (map (eval env) l)
  | EMakeRecord _ l =>
      VRecord
        ((fix go (l : list (string * Exp)) : list (string * Value) :=
            match l with
            | [] => []
            | (n, x) :: r => (n, eval env x) :: go r
            end) l)
  | EGetField _ a f =>
      match eval env a with
      | VRecord fs => match lookup f fs with Some v => v | None => junk end
      | VHandle tag addr =>
          if String.eqb f "val" then heap env (VHandle tag addr) else junk
      | _ => junk
      end
  | ETupleGet _ a n =>
      match eval env a with
      | VTuple vs => nth n vs junk
      | _ => junk
      end
  | EEmptyList _ => VBag []
  | ESingleton _ a => VBag [eval env a]
  | EArgMin _ a f =>
      arg_best Z.ltb (fun v => as_int (lam f v)) (as_bag (eval env a))
  | EArgMax _ a f =>
      arg_best Z.gtb (fun v => as_int (lam f v)) (as_bag (eval env a))
  | EMap _ a f => VBag (map (lam f) (as_bag (eval env a)))
  | EFilter _ a f =>
      VBag (filter (fun v => as_bool (lam f v)) (as_bag (eval env a)))
  | EFlatMap _ a f =>
      VBag (flat_map (fun v => as_bag (lam f v)) (as_bag (eval env a)))
  | EStateVar _ a => eval env a
  | EMakeMap2 _ a f =>
      VMap (map (fun k => (k, lam f k))
              (nodup Value_eq_dec (as_bag (eval env a))))
  | EMapGet _ m k =>
      match eval env m with
      | VMap kvs =>
          match map_lookup (eval env k) kvs with
          | Some v => v
          | None => junk
          end
      | _ => junk
      end
  | EMapKeys _ m =>
      match eval env m with
      | VMap kvs => VBag (map fst kvs)
      | _ => VBag []
      end
  | ELam _ => junk
  end.

(** The value of a lambda body at an argument. *)
Definition eval_lam (env : Env) (f : Lambda Exp) (v : Value) : Value :=
  eval (upd env (var_id (arg f)) v) (body f).

(** The fields of a record construction, evaluated. *)
Definition eval_fields (env : Env) (l : list (string * Exp))
    : list (string * Value) :=
  map (fun p => (fst p, eval env (snd p))) l.

(** A formula holds in an environment. *)
Definition holds (env : Env) (e : Exp) : Prop := as_bool (eval env e) = true.

(** ** Free variables and substitution *)

Definition mem_string (x : string) (l : list string) : bool :=
  if in_dec string_dec x l then true else false.

(** [free_vars] of [cozy.syntax_tools]: the free variables, with types. *)
Fixpoint free_vars (e : Exp) : list Var :=
  let lam (f : Lambda Exp) : list Var :=
    match f with
    | ELambda x b =>
        filter (fun y => negb (String.eqb (var_id y) (var_id x)))
               (free_vars b)
    end in
  match e with
  | EVar t x => [mkVar x t]
  | EBool _ _ | ENum _ _ | EEmptyList _ => []
  | EUnaryOp _ _ a | EGetField _ a _ | ETupleGet _ a _ | ESingleton _ a
  | EStateVar _ a | EMapKeys _ a => free_vars a
  | EBinOp _ a _ b | EMapGet _ a b => free_vars a ++ free_vars b
  | ECond _ c a b => free_vars c ++ free_vars a ++ free_vars b
  | ECall _ _ l => flat_map free_vars l
  | EMakeRecord _ l =>
      (fix go (l : list (string * Exp)) : list Var :=
         match l with
         | [] => []
         | (_, x) :: r => free_vars x ++ go r
         end) l
  | EArgMin _ a f | EArgMax _ a f | EMap _ a f | EFilter _ a f
  | EFlatMap _ a f | EMakeMap2 _ a f => free_vars a ++ lam f
  | ELam f => lam f
  end.

Definition fv (e : Exp) : list string := map var_id (free_vars e).

(** The free variables of a lambda. *)
Definition free_vars_lam (f : Lambda Exp) : list Var :=
  filter (fun y => negb (String.eqb (var_id y) (var_id (arg f))))
         (free_vars (body f)).

(** A name that is not in [avoid]: one character longer than each. *)
Definition longest (avoid : list string) : string :=
  fold_right (fun s acc => if Nat.ltb (String.length acc) (String.length s)
                           then s else acc) EmptyString avoid.

Definition fresh_id (avoid : list string) : string :=
  String "_" (longest avoid).

Fixpoint remove_key {A} (x : string) (l : list (string * A))
    : list (string * A) :=
  match l with
  | [] => []
  | (y, v) :: r =>
      if string_dec x y then remove_key x r else (y, v) :: remove_key x r
  end.

(** The free variables of the replacements of a substitution. *)
Definition range_fv (m : list (string * Exp)) : list string :=
  flat_map (fun p => fv (snd p)) m.

(** Modelled from the spec: [subst] of [cozy.syntax_tools], capture-avoiding
    substitution of expressions for free variables.  A bound variable that
    occurs free in a replacement is renamed. *)
Fixpoint subst (e : Exp) (replacements : list (string * Exp)) {struct e}
    : Exp :=
  let lam (f : Lambda Exp) : Lambda Exp :=
    match f with
    | ELambda x b =>
        let m := remove_key (var_id x) replacements in
        if mem_string (var_id x) (range_fv m) then
          let x' := fresh_id (range_fv m ++ fv b) in
          ELambda (mkVar x' (var_type x))
                  (subst b ((var_id x, EVar (var_type x) x') :: m))
        else ELambda x (subst b m)
    end in
  match e with
  | EVar _ x => match lookup x replacements with Some r => r | None => e end
  | EBool _ _ | ENum _ _ | EEmptyList _ => e
  | EUnaryOp t op a => EUnaryOp t op (subst a replacements)
  | EBinOp t a op b => EBinOp t (subst a replacements) op (subst b replacements)
  | ECond t c a b =>
      ECond t (subst c replacements) (subst a replacements)
              (subst b replacements)
  | ECall t f l => ECall t f (map (fun a => subst a replacements) l)
  | EMakeRecord t l =>
      EMakeRecord t
        ((fix go (l : list (string * Exp)) : list (string * Exp) :=
            match l with
            | [] => []
            | (n, x) :: r => (n, subst x replacements) :: go r
            end) l)
  | EGetField t a f => EGetField t (subst a replacements) f
  | ETupleGet t a n => ETupleGet t (subst a replacements) n
  | ESingleton t a => ESingleton t (subst a replacements)
  | EArgMin t a f => EArgMin t (subst a replacements) (lam f)
  | EArgMax t a f => EArgMax t (subst a replacements) (lam f)
  | EMap t a f => EMap t (subst a replacements) (lam f)
  | EFilter t a f => EFilter t (subst a replacements) (lam f)
  | EFlatMap t a f => EFlatMap t (subst a replacements) (lam f)
  | EStateVar t a => EStateVar t (subst a replacements)
  | EMakeMap2 t a f => EMakeMap2 t (subst a replacements) (lam f)
  | EMapGet t m k => EMapGet t (subst m replacements) (subst k replacements)
  | EMapKeys t m => EMapKeys t (subst m replacements)
  | ELam f => ELam (lam f)
  end.

(** [subst] under a binder. *)
Definition subst_lam (f : Lambda Exp) (replacements : list (string * Exp))
    : Lambda Exp :=
  let m := remove_key (var_id (arg f)) replacements in
  if mem_string (var_id (arg f)) (range_fv m) then
    let x' := fresh_id (range_fv m ++ fv (body f)) in
    ELambda (mkVar x' (var_type (arg f)))
            (subst (body f) ((var_id (arg f), EVar (var_type (arg f)) x') :: m))
  else ELambda (arg f) (subst (body f) m).

(** [f.apply_to(a)]: the body of [f] with [a] for its argument. *)
Definition apply_to (f : Lambda Exp) (a : Exp) : Exp :=
  subst (body f) [(var_id (arg f), a)].

(** The environment in which [e] has the value that
    [subst e replacements] has in [env]. *)
Definition env_subst (env : Env) (replacements : list (string * Exp)) : Env :=
  mkEnv (fun y => match lookup y replacements with
                  | Some r => eval env r
                  | None => vars env y
                  end)
        (funcs env) (heap env).

(** [ADT.size()]: the number of nodes of an expression. *)
Fixpoint size (e : Exp) : nat :=
  let lam (f : Lambda Exp) : nat :=
    match f with ELambda _ b => 2 + size b end in
  match e with
  | EVar _ _ | EBool _ _ | ENum _ _ | EEmptyList _ => 1
  | EUnaryOp _ _ a | EGetField _ a _ | ETupleGet _ a _ | ESingleton _ a
  | EStateVar _ a | EMapKeys _ a => 1 + size a
  | EBinOp _ a _ b | EMapGet _ a b => 1 + size a + size b
  | ECond _ c a b => 1 + size c + size a + size b
  | ECall _ _ l => 1 + fold_right (fun a n => size a + n) 0 l
  | EMakeRecord _ l =>
      1 + (fix go (l : list (string * Exp)) : nat :=
             match l with
             | [] => 0
             | (_, x) :: r => size x + go r
             end) l
  | EArgMin _ a f | EArgMax _ a f | EMap _ a f | EFilter _ a f
  | EFlatMap _ a f | EMakeMap2 _ a f => 1 + size a + lam f
  | ELam f => lam f
  end.

(** [strip_EStateVar] of [cozy.syntax_tools]: drop every state-variable
    wrapper. *)
Fixpoint strip_EStateVar (e : Exp) : Exp :=
  let lam (f : Lambda Exp) : Lambda Exp :=
    match f with ELambda x b => ELambda x (strip_EStateVar b) end in
  match e with
  | EVar _ _ | EBool _ _ | ENum _ _ | EEmptyList _ => e
  | EUnaryOp t op a => EUnaryOp t op (strip_EStateVar a)
  | EBinOp t a op b => EBinOp t (strip_EStateVar a) op (strip_EStateVar b)
  | ECond t c a b =>
      ECond t (strip_EStateVar c) (strip_EStateVar a) (strip_EStateVar b)
  | ECall t f l => ECall t f (map strip_EStateVar l)
  | EMakeRecord t l =>
      EMakeRecord t
        ((fix go (l : list (string * Exp)) : list (string * Exp) :=
            match l with
            | [] => []
            | (n, x) :: r => (n, strip_EStateVar x) :: go r
            end) l)
  | EGetField t a f => EGetField t (strip_EStateVar a) f
  | ETupleGet t a n => ETupleGet t (strip_EStateVar a) n
  | ESingleton t a => ESingleton t (strip_EStateVar a)
  | EArgMin t a f => EArgMin t (strip_EStateVar a) (lam f)
  | EArgMax t a f => EArgMax t (strip_EStateVar a) (lam f)
  | EMap t a f => EMap t (strip_EStateVar a) (lam f)
  | EFilter t a f => EFilter t (strip_EStateVar a) (lam f)
  | EFlatMap t a f => EFlatMap t (strip_EStateVar a) (lam f)
  | EStateVar _ a => strip_EStateVar a
  | EMakeMap2 t a f => EMakeMap2 t (strip_EStateVar a) (lam f)
  | EMapGet t m k => EMapGet t (strip_EStateVar m) (strip_EStateVar k)
  | EMapKeys t m => EMapKeys t (strip_EStateVar m)
  | ELam f => ELam (lam f)
  end.

(** ** Execution of statements *)

Definition type_fields (t : Ty) : option (list (string * Ty)) :=
  match t with TRecord fs => Some fs | _ => None end.

Definition names_eqb (l1 l2 : list string) : bool :=
  if list_eq_dec string_dec l1 l2 then true else false.

Definition distinct_names (l : list string) : bool :=
  Nat.eqb (List.length (nodup string_dec l)) (List.length l).

(** The record [fs] with field [f] set to [v]. *)
Definition set_field (f : string) (v : Value) (fs : list (string * Value))
    : list (string * Value) :=
  map (fun p => (fst p, if String.eqb (fst p) f then v else snd p)) fs.

(** Store [v] in the lvalue [lval]: a variable, a field of a record held
    in an lvalue, or the payload of a handle.  A record is stored into when
    it has the distinct fields its type declares; the payload of a handle
    is written through an expression of its handle type, and the write is
    seen through every alias of the handle. *)
Fixpoint assign (lval : Exp) (v : Value) (env : Env) : option Env :=
  match lval with
  | EVar _ x => Some (upd env x v)
  | EGetField _ le f =>
      match typ le, eval env le with
      | TRecord fts, VRecord fs =>
          if names_eqb (map fst fs) (map fst fts)
             && distinct_names (map fst fts)
          then assign le (VRecord (set_field f v fs)) env
          else None
      | THandle _ _, VHandle tag addr =>
          if String.eqb f "val" && Ty_eqb tag (typ le)
          then Some (upd_heap env (VHandle tag addr) v)
          else None
      | _, _ => None
      end
  | _ => None
  end.

(** The effect of a collection call on the value [l] of its target. *)
Definition call_value (func : string) (l : list Value) (a : Value)
    : option Value :=
  if String.eqb func "add" then Some (VBag (l ++ [a]))
  else if String.eqb func "add_all" then Some (VBag (l ++ as_bag a))
  else if String.eqb func "remove" then Some (VBag (remove1 a l))
  else if String.eqb func "remove_all" then Some (VBag (bag_diff l (as_bag a)))
  else None.

(** What a statement other than a sequence, a conditional or a declaration
    does to the environment.  [None] when it does not execute normally: an
    unknown call, a target that is not an lvalue or does not hold a
    collection, or a statement form outside §3. *)
Definition exec_simple (op : Stm) (env : Env) : option Env :=
  match op with
  | SNoOp => Some env
  | SAssign lhs rhs => assign lhs (eval env rhs) env
  | SCall target func args =>
      match args, eval env target with
      | a :: _, VBag l =>
          match call_value func l (eval env a) with
          | Some v => assign target v env
          | None => None
          end
      | _, _ => None
      end
  | _ => None
  end.

(** The names that [op] declares in its own block: not those declared in
    the branches of its conditionals. *)
Fixpoint declared (op : Stm) : list string :=
  match op with
  | SDecl x _ => [x]
  | SSeq a b => declared a ++ declared b
  | _ => []
  end.

(** Leave a block: the names in [d], declared in the block, have again the
    values they had before it in [outer]; everything else is as the block
    left it in [inner]. *)
Definition restore (d : list string) (outer inner : Env) : Env :=
  mkEnv (fun y => if mem_string y d then vars outer y else vars inner y)
        (funcs inner) (heap inner).

(** The statements of one block, run in order.  A declaration lasts to the
    end of its block; each branch of a conditional is a block of its own. *)
Fixpoint run (op : Stm) (env : Env) {struct op} : option Env :=
  match op with
  | SSeq s1 s2 =>
      match run s1 env with
      | Some env1 => run s2 env1
      | None => None
      end
  | SIf c a b =>
      if as_bool (eval env c) then
        match run a env with
        | Some env1 => Some (restore (declared a) env env1)
        | None => None
        end
      else
        match run b env with
        | Some env1 => Some (restore (declared b) env env1)
        | None => None
        end
  | SDecl x v => Some (upd env x (eval env v))
  | _ => exec_simple op env
  end.

(** Modelled from the spec: the effect of a statement on the environment
    (§3, "Statement"): the statement is run as a block. *)
Definition exec (op : Stm) (env : Env) : option Env :=
  match run op env with
  | Some env1 => Some (restore (declared op) env env1)
  | None => None
  end.

(** The same execution without scopes, as [mutate] reads a statement: a
    declaration lasts to the end of the whole statement, except one that
    nothing follows in its block, which is dropped.  [tail] tells whether
    [op] stands last in its block. *)
Fixpoint exec_flat (tail : bool) (op : Stm) (env : Env) {struct op}
    : option Env :=
  match op with
  | SSeq s1 s2 =>
      match exec_flat false s1 env with
      | Some env1 => exec_flat tail s2 env1
      | None => None
      end
  | SIf c a b =>
      if as_bool (eval env c) then exec_flat true a env
      else exec_flat true b env
  | SDecl x v => Some (if tail then env else upd env x (eval env v))
  | _ => exec_simple op env
  end.

(** ** Scopes *)

(** The variables that the expressions of a statement mention. *)
Fixpoint reads (op : Stm) : list string :=
  match op with
  | SNoOp => []
  | SSeq a b => reads a ++ reads b
  | SIf c a b => fv c ++ reads a ++ reads b
  | SAssign lhs rhs => fv lhs ++ fv rhs
  | SDecl _ v => fv v
  | SCall target _ args => fv target ++ flat_map fv args
  | SForEach _ iter body => fv iter ++ reads body
  | SMapDel m k => fv m ++ fv k
  | SMapUpdate m k _ change => fv m ++ fv k ++ reads change
  end.

Definition disjoint_names (l1 l2 : list string) : bool :=
  forallb (fun x => negb (mem_string x l2)) l1.

(** No name declared in a branch of a conditional is used after the
    conditional: by the statements that follow it, or by the expression
    whose variables are [live]. *)
Fixpoint scopes_ok (live : list string) (op : Stm) : bool :=
  match op with
  | SSeq a b => scopes_ok (reads b ++ live) a && scopes_ok live b
  | SIf _ a b =>
      scopes_ok live a && scopes_ok live b
      && disjoint_names (declared a ++ declared b) live
  | _ => true
  end.

(** The expression [e] and the statement [op] are well scoped: [e], which
    is read after [op], mentions no name that [op] declares, and no name
    declared in a branch of a conditional is used after that conditional. *)
Definition well_scoped (e : Exp) (op : Stm) : bool :=
  disjoint_names (declared op) (fv e) && scopes_ok (fv e) op.

(** The lvalue is a variable or a path of record fields from one: no
    handle is written through. *)
Fixpoint plain_lvalue (lval : Exp) : bool :=
  match lval with
  | EVar _ _ => true
  | EGetField _ le _ =>
      match typ le with
      | THandle _ _ => false
      | _ => plain_lvalue le
      end
  | _ => true
  end.

(** No statement of [op] writes through a handle. *)
Fixpoint plain_writes (op : Stm) : bool :=
  match op with
  | SSeq a b | SIf _ a b => plain_writes a && plain_writes b
  | SAssign lhs _ => plain_lvalue lhs
  | SCall target _ _ => plain_lvalue target
  | SForEach _ _ body => plain_writes body
  | SMapUpdate _ _ _ change => plain_writes change
  | _ => true
  end.

(* ===================================================================== *)
(** * A concrete choice of the external collaborators *)
(* ===================================================================== *)

(** The theorems below hold for every oracle, simplifier and notion of
    alpha-equivalence that meets the stated contracts.  The following
    simple instances meet them; the examples are run on these. *)

(** Syntactic identity is the finest alpha-equivalence. *)
Definition alpha_syntactic : Exp -> Exp -> bool := Exp_eqb.

Definition simplify_id (e : Exp) : Exp := e.

(** A [simplify_cond] that simplifies nothing. *)
Definition cond_plain (c t e : Exp) : Exp := ECond (typ t) c t e.

(** The conjuncts of a formula built with [EAll]. *)
Fixpoint conjuncts (a : Exp) : list Exp :=
  match a with
  | EBinOp _ a1 BAnd a2 => conjuncts a1 ++ conjuncts a2
  | _ => [a]
  end.

(** An oracle that validates [a ==> c] exactly when [c] is one of the
    conjuncts of [a]. *)
Definition oracle_conjunct (formula : Exp) : bool :=
  match formula with
  | EBinOp _ (EUnaryOp _ UNot a) BOr c => existsb (Exp_eqb c) (conjuncts a)
  | _ => false
  end.

Definition solver_conjunct (_ : Context) : Exp -> bool := oracle_conjunct.

Definition retypecheck_ok (_ : Exp) : bool := true.

Definition compose_subst (f g : Lambda Exp) : Lambda Exp :=
  ELambda (arg g) (apply_to f (body g)).

(** [xs] intersected with [ys] is [xs - (xs - ys)]. *)
Definition EIntersect_sub (xs ys : Exp) : Exp :=
  EBinOp (typ xs) xs BSub (EBinOp (typ xs) xs BSub ys).

Definition ECountIn_filter (x bag : Exp) : Exp :=
  let y := mkVar (fresh_id (fv x ++ fv bag)) (typ x) in
  ELen (EFilter (typ bag) bag (ELambda y (EEq (evar y) x))).

Definition to_heap_call (e : Exp) : Exp :=
  ECall (TNative "heap") "to_heap" [e].

Definition EHeapPeek2_call (h n : Exp) : Exp :=
  ECall (typ h) "heap_peek2" [h; n].

Definition construct_value_zero (t : Ty) : Exp :=
  match t with
  | TBool => F
  | TBag _ | TSet _ | TList _ => EEmptyList t
  | _ => ENum t 0
  end.

Definition pprint_none (_ : Exp) : string := EmptyString.

(** ** Example inputs *)

Definition INT_BAG : Ty := TBag INT.
Definition ex_xs : Exp := EVar INT_BAG "xs".
Definition ex_ys : Exp := EVar INT_BAG "ys".
Definition ex_x : Exp := EVar INT "x".
Definition ex_b : Exp := EVar BOOL "b".
Definition ex_five : Exp := ENum INT 5.
Definition ex_seven : Exp := ENum INT 7.
Definition ex_ctx : Context :=
  RootCtx [mkVar "xs" INT_BAG; mkVar "ys" INT_BAG]
          [mkVar "x" INT; mkVar "b" BOOL] [].

(** An environment in which every variable listed in [l] has its value and
    every other one is [0]; functions return [0], and so does the payload
    of every handle. *)
Definition env_of (l : list (string * Value)) : Env :=
  mkEnv (fun x => match lookup x l with Some v => v | None => junk end)
        (fun _ _ => junk) (fun _ => junk).

Definition ex_env : Env := env_of [("xs"%string, VBag [VInt 1]); ("ys"%string, VBag [])].

(** [xs.add(5)], and the two-statement updates [xs.remove(5); xs.add(5)] and
    [ys.remove(5); ys.add(7)]. *)
Definition op_add_five : Stm := SCall ex_xs "add" [ex_five].
Definition op_remove_add : Stm :=
  SSeq (SCall ex_xs "remove" [ex_five]) (SCall ex_xs "add" [ex_five]).
Definition op_replace_in_ys : Stm :=
  SSeq (SCall ex_ys "remove" [ex_five]) (SCall ex_ys "add" [ex_seven]).

(** The smallest element of [xs]. *)
Definition ex_lam_id : Lambda Exp := ELambda (mkVar "v" INT) (EVar INT "v").
Definition ex_argmin : Exp := EArgMin INT ex_xs ex_lam_id.

(** [xs] with [5] added. *)
Definition ex_xs_plus : Exp :=
  EBinOp INT_BAG ex_xs BAdd (ESingleton INT_BAG ex_five).

(** [xs - ys]. *)
Definition ex_xs_minus_ys : Exp := EBinOp INT_BAG ex_xs BSub ex_ys.

(** [xs + ys], and the elements of [xs] greater than [3]. *)
Definition ex_xs_union_ys : Exp := EBinOp INT_BAG ex_xs BAdd ex_ys.
Definition ex_big : Lambda Exp :=
  ELambda (mkVar "v" INT) (EGt (EVar INT "v") (ENum INT 3)).
Definition ex_filter : Exp := EFilter INT_BAG ex_xs ex_big.

(** Composition of lambdas under a bound variable that occurs in
    neither. *)
Definition compose_fresh (f g : Lambda Exp) : Lambda Exp :=
  let y := mkVar (fresh_id (fv (body f) ++ fv (body g)))
                 (var_type (arg g)) in
  ELambda y (apply_to f (apply_to g (evar y))).

(** The successor function, and the flat-map body that keeps the elements
    greater than [3]. *)
Definition ex_succ : Lambda Exp :=
  ELambda (mkVar "v" INT) (EBinOp INT (EVar INT "v") BAdd ONE).
Definition ex_keep_big : Lambda Exp :=
  ELambda (mkVar "v" INT)
    (ECond INT_BAG (EGt (EVar INT "v") (ENum INT 3))
       (ESingleton INT_BAG (EVar INT "v")) (EEmptyList INT_BAG)).

(** An environment in which [b] is true. *)
Definition ex_env_b : Env := env_of [("b"%string, VBool true)].

(** [5 > 3], and "[5] is not [7]". *)
Definition ex_five_big : Exp := EGt ex_five (ENum INT 3).
Definition ex_five_not_seven : Exp := ENot (EEq ex_five ex_seven).

(** The value that is [5] when [b] holds and [7] otherwise. *)
Definition ex_fork_spec (env : Env) : Value :=
  if as_bool (eval env ex_b) then VInt 5 else VInt 7.

(** A solver that finds no model, the evaluation in a model that raises
    when there is none, and the difference as a binary operation. *)
Definition solver_satisfiable_none (_ : Context) (_ : Exp) : bool := false.
Definition solver_satisfy_none (_ : Context) (_ : Exp) : option Env := None.
Definition eval_in_model_env (e : Exp) (m : option Env) : res Value :=
  match m with
  | Some env => Return (eval env e)
  | None => Raise TypeError
  end.
Definition exp_minus_bin (a b : Exp) : res Exp :=
  Return (EBinOp (typ a) a BSub b).

(** [decl t = 5; xs.add(t)]: a local that the statement uses and the
    expression [xs] does not. *)
Definition op_decl_add : Stm :=
  SSeq (SDecl "t" ex_five) (SCall ex_xs "add" [EVar INT "t"]).

(* ===================================================================== *)
(** * The functions of [state_maintenance.py] *)
(* ===================================================================== *)

Section StateMaintenance.

(** ** External collaborators *)

(** [alpha_equivalent] of [cozy.syntax_tools]. *)
Variable alpha_equivalent : Exp -> Exp -> bool.

(** [simplify] and [simplify_cond] (imported as [cond]) of
    [cozy.simplification]. *)
Variable simplify : Exp -> Exp.
Variable cond : Exp -> Exp -> Exp -> Exp.

(** [solver_for(context).valid(formula)]: the oracle of a context.  The
    per-context cache [_SOLVERS] only memoises the solver object. *)
Variable solver_valid : Context -> Exp -> bool.

(** [valid] of [cozy.solver]: the oracle without a context. *)
Variable valid : Exp -> bool.

(** [retypecheck] of [cozy.typecheck]. *)
Variable retypecheck : Exp -> bool.

(** [compose] of [cozy.syntax_tools]: composition of two lambdas. *)
Variable compose : Lambda Exp -> Lambda Exp -> Lambda Exp.

(** The derived forms [EIntersect] of [cozy.syntax] and [ECountIn] of
    [cozy.target_syntax]. *)
Variable EIntersect : Exp -> Exp -> Exp.
Variable ECountIn : Exp -> Exp -> Exp.

(** [to_heap] and [EHeapPeek2] of [cozy.structures.heaps]. *)
Variable to_heap : Exp -> Exp.
Variable EHeapPeek2 : Exp -> Exp -> Exp.

(** [satisfiable] and [satisfy] of the solver of a context
    ([cozy.solver]): whether a formula has a model, and a model of it, if
    the solver finds one. *)
Variable solver_satisfiable : Context -> Exp -> bool.
Variable solver_satisfy : Context -> Exp -> option Env.

(** [eval] of [cozy.evaluation] applied to the model that [minimal_model]
    returned, which is [None] when there is none: it returns a value or
    raises. *)
Variable eval_in_model : Exp -> option Env -> res Value.

(** The [-] of two expression objects, which [cozy.syntax] defines or
    not: it returns the difference expression or raises. *)
Variable exp_minus : Exp -> Exp -> res Exp.

(** [construct_value] of [cozy.evaluation]: a default expression of a
    type. *)
Variable construct_value : Ty -> Exp.

(** [pprint] of [cozy.syntax_tools]. *)
Variable pprint : Exp -> string.

(** The command-line options [skip-stateless-synthesis] and
    [update-numbers-with-deltas]. *)
Variable skip_stateless_synthesis : bool.
Variable update_numbers_with_deltas : bool.

(** ** [mutate] *)

(** [_replace_field]. *)
Definition _replace_field (record : Exp) (field : string) (new_value : Exp)
    : res Exp :=
  match typ record with
  | TRecord fields =>
      Return (EMakeRecord (typ record)
                (map (fun p => (fst p,
                                if String.eqb (fst p) field then new_value
                                else EGetField (snd p) record (fst p)))
                     fields))
  | _ => Raise AttributeError
  end.

(** [replace_get_value].  The visitor renames a bound variable that occurs
    in [ptr] or [new_value] and then visits the renamed body, so the
    recursion is on [fuel], started at the size of [e].  The source draws
    the new name from the process-wide counter, avoiding [fvs]; the model
    takes a name outside [fvs] and the body. *)
Fixpoint replace_get_value_visit (fuel : nat) (ptr new_value : Exp)
    (e : Exp) {struct fuel} : res Exp :=
  match fuel with
  | O => OutOfFuel
  | S n =>
      let visit := replace_get_value_visit n ptr new_value in
      let fvs := fv ptr ++ fv new_value in
      let visit_ELambda (f : Lambda Exp) : res (Lambda Exp) :=
        let f1 :=
          if mem_string (var_id (arg f)) fvs then
            let v := mkVar (fresh_id (fvs ++ fv (body f))) (var_type (arg f)) in
            ELambda v (apply_to f (evar v))
          else f in
        b <- visit (body f1) ;; Return (ELambda (arg f1) b) in
      match e with
      | EVar _ _ | EBool _ _ | ENum _ _ | EEmptyList _ => Return e
      | EGetField t a f =>
          ee <- visit a ;;
          let r := EGetField t ee f in
          if Ty_eqb (typ a) (typ ptr) && String.eqb f "val"
          then Return (ECond t (EEq ee ptr) new_value r)
          else Return r
      | EUnaryOp t op a => a' <- visit a ;; Return (EUnaryOp t op a')
      | EBinOp t a op b =>
          a' <- visit a ;; b' <- visit b ;; Return (EBinOp t a' op b')
      | ECond t c a b =>
          c' <- visit c ;; a' <- visit a ;; b' <- visit b ;;
          Return (ECond t c' a' b')
      | ECall t f l => l' <- mapR visit l ;; Return (ECall t f l')
      | EMakeRecord t l =>
          l' <- mapR (fun p => x <- visit (snd p) ;; Return (fst p, x)) l ;;
          Return (EMakeRecord t l')
      | ETupleGet t a n => a' <- visit a ;; Return (ETupleGet t a' n)
      | ESingleton t a => a' <- visit a ;; Return (ESingleton t a')
      | EArgMin t a f =>
          a' <- visit a ;; f' <- visit_ELambda f ;; Return (EArgMin t a' f')
      | EArgMax t a f =>
          a' <- visit a ;; f' <- visit_ELambda f ;; Return (EArgMax t a' f')
      | EMap t a f =>
          a' <- visit a ;; f' <- visit_ELambda f ;; Return (EMap t a' f')
      | EFilter t a f =>
          a' <- visit a ;; f' <- visit_ELambda f ;; Return (EFilter t a' f')
      | EFlatMap t a f =>
          a' <- visit a ;; f' <- visit_ELambda f ;; Return (EFlatMap t a' f')
      | EStateVar t a => a' <- visit a ;; Return (EStateVar t a')
      | EMakeMap2 t a f =>
          a' <- visit a ;; f' <- visit_ELambda f ;; Return (EMakeMap2 t a' f')
      | EMapGet t m k =>
          m' <- visit m ;; k' <- visit k ;; Return (EMapGet t m' k')
      | EMapKeys t m => m' <- visit m ;; Return (EMapKeys t m')
      | ELam f => f' <- visit_ELambda f ;; Return (ELam f')
      end
  end.

Definition replace_get_value (e ptr new_value : Exp) : res Exp :=
  replace_get_value_visit (size e) ptr new_value e.

(** [_do_assignment]: the value of [e] after [lval = new_value]. *)
Fixpoint _do_assignment (lval new_value e : Exp) {struct lval} : res Exp :=
  match lval with
  | EVar _ id => Return (subst e [(id, new_value)])
  | EGetField _ le f =>
      match typ le with
      | THandle _ _ =>
          if String.eqb f "val" then replace_get_value e le new_value
          else Raise AssertionError
      | _ =>
          r <- _replace_field le f new_value ;;
          _do_assignment le r e
      end
  | _ => Raise (Exception "not an lvalue")
  end.

(** The measure on which [mutate] recurses: re-association of a sequence
    and the desugaring of a collection call both decrease it. *)
Fixpoint weight (op : Stm) : nat :=
  match op with
  | SSeq s1 s2 => 2 * weight s1 + weight s2 + 1
  | SIf _ a b => weight a + weight b + 1
  | SCall _ func _ =>
      if String.eqb func "add" || String.eqb func "remove" then 3 else 2
  | _ => 1
  end.

Definition inspect {A} (a : A) : {b : A | a = b} := exist _ a eq_refl.

(** [mutate]: the new value of [e] after executing [op]. *)
Equations? mutate (e : Exp) (op : Stm) : res Exp by wf (weight op) lt :=
mutate e SNoOp := Return e;
mutate e (SAssign lhs rhs) := _do_assignment lhs rhs e;
mutate e (SCall target func args) with inspect (String.eqb func "add") := {
  | exist _ true _ with args := {
    | a :: _ =>
        mutate e (SCall target "add_all" [ESingleton (typ target) a]);
    | [] => Raise IndexError };
  | exist _ false _ with inspect (String.eqb func "add_all") := {
    | exist _ true _ with args := {
      | a :: _ =>
          mutate e (SAssign target (EBinOp (typ target) target BAdd a));
      | [] => Raise IndexError };
    | exist _ false _ with inspect (String.eqb func "remove") := {
      | exist _ true _ with args := {
        | a :: _ =>
            mutate e (SCall target "remove_all" [ESingleton (typ target) a]);
        | [] => Raise IndexError };
      | exist _ false _ with inspect (String.eqb func "remove_all") := {
        | exist _ true _ with args := {
          | a :: _ =>
              mutate e (SAssign target (EBinOp (typ target) target BSub a));
          | [] => Raise IndexError };
        | exist _ false _ := Raise (Exception "Unknown func") } } } };
mutate e (SIf c s1 s2) :=
  then_branch <- mutate e s1 ;;
  else_branch <- mutate e s2 ;;
  if alpha_equivalent then_branch else_branch then Return then_branch
  else Return (ECond (typ e) c then_branch else_branch);
mutate e (SSeq (SSeq s11 s12) s2) := mutate e (SSeq s11 (SSeq s12 s2));
mutate e (SSeq (SDecl id val) s2) :=
  e1 <- mutate e s2 ;;
  e2 <- mutate e1 (SDecl id val) ;;
  Return (subst e2 [(id, val)]);
mutate e (SSeq s1 s2) :=
  e1 <- mutate e s2 ;;
  mutate e1 s1;
mutate e (SDecl _ _) := Return e;
mutate e _ := Raise NotImplementedError.
Proof.
  all: clear mutate; simpl; try lia.
  all: repeat match goal with
         | H : (_ =? _)%string = _ |- _ => rewrite H; clear H
         end; simpl; try lia.
  all: repeat match goal with
         | |- context [if ?b then _ else _] => destruct b
         end; lia.
Qed.

(** [statevar]: wrap an expression as a cached value. *)
Definition statevar (e : Exp) : res Exp :=
  match e with
  | EStateVar _ _ => Raise AssertionError
  | _ => Return (EStateVar (typ e) e)
  end.

(** ** Three-valued answers *)

(** Python's [True], [False] and the module's [MAYBE]. *)
Inductive tri : Type := Yes | No | MAYBE.

Definition definitely (v : tri) : bool :=
  match v with Yes => true | _ => false end.

Definition possibly (v : tri) : bool :=
  match v with No => false | _ => true end.

Definition both (x y : tri) : tri :=
  if definitely x && definitely y then Yes
  else if possibly x && possibly y then MAYBE
  else No.

Definition invert (x : tri) : tri :=
  if definitely x then No
  else if negb (possibly x) then Yes
  else MAYBE.

Definition are_unique (xs : Exp) : tri :=
  match xs with
  | EEmptyList _ | ESingleton _ _ | EUnaryOp _ UDistinct _ => Yes
  | _ => MAYBE
  end.

Fixpoint singleton_or_empty (e : Exp) : tri :=
  match e with
  | EEmptyList _ | ESingleton _ _ => Yes
  | EStateVar _ a | EMap _ a _ | EFilter _ a _ => singleton_or_empty a
  | EFlatMap _ a f =>
      both (singleton_or_empty a)
           (match f with ELambda _ b => singleton_or_empty b end)
  | EUnaryOp _ UDistinct a => singleton_or_empty a
  | ECond _ _ t e0 =>
      let then_case := singleton_or_empty t in
      let else_case := singleton_or_empty e0 in
      if definitely then_case && definitely else_case then Yes
      else if possibly then_case || possibly else_case then MAYBE
      else No
  | _ => MAYBE
  end.

Fixpoint is_singleton (e : Exp) : tri :=
  match e with
  | ESingleton _ _ => Yes
  | EMap _ a _ => is_singleton a
  | EUnaryOp _ UDistinct a => is_singleton a
  | _ => MAYBE
  end.

Fixpoint is_empty (e : Exp) : tri :=
  match e with
  | EEmptyList _ => Yes
  | EMap _ a _ | EFilter _ a _ => is_empty a
  | EUnaryOp _ UDistinct a => is_empty a
  | _ => MAYBE
  end.

Definition edistinct (e : Exp) : Exp :=
  if definitely (singleton_or_empty e) then e
  else EUnaryOp (typ e) UDistinct e.

(** [dict(fields)[f]]: the last binding of [f]. *)
Definition dict_get (f : string) (fields : list (string * Exp)) : res Exp :=
  match lookup f (rev fields) with
  | Some e => Return e
  | None => Raise KeyError
  end.

(** [equal].  On two record constructions it compares the fields that the
    type of the first declares; the recursion is on [fuel], started at the
    size of [e1]. *)
Fixpoint equal_rec (fuel : nat) (e1 e2 : Exp) {struct fuel} : res Exp :=
  match e1, e2 with
  | EMakeRecord t1 fields1, EMakeRecord _ fields2 =>
      match fuel, t1 with
      | O, _ => OutOfFuel
      | S n, TRecord fts =>
          parts <- mapR (fun ft =>
                           a <- dict_get (fst ft) fields1 ;;
                           b <- dict_get (fst ft) fields2 ;;
                           r <- equal_rec n a b ;;
                           Return (simplify r)) fts ;;
          Return (EAll parts)
      | S _, _ => Raise TypeError
      end
  | _, _ => Return (EEq e1 e2)
  end.

Definition equal (e1 e2 : Exp) : res Exp := equal_rec (size e1) e1 e2.

Definition not_equal (e1 e2 : Exp) : Exp := ENe e1 e2.

(** [exists] (a keyword of Rocq, hence the underscore). *)
Fixpoint exists_ (e : Exp) : res Exp :=
  if negb (is_collection (typ e)) then Raise AssertionError
  else if definitely (is_empty e) then Return F
  else if definitely (is_singleton e) then Return T
  else
    match e with
    | EBinOp _ e1 BAdd e2 =>
        a <- exists_ e1 ;; b <- exists_ e2 ;; Return (EAny [a; b])
    | ECond _ c t e0 =>
        a <- exists_ t ;; b <- exists_ e0 ;; Return (cond c a b)
    | _ => Return (EExists e)
    end.

Fixpoint len_of (e : Exp) : res Exp :=
  if definitely (singleton_or_empty e) then
    x <- exists_ e ;; Return (cond x ONE ZERO)
  else
    match e with
    | EMap _ a _ => len_of a
    | ECond _ c t e0 =>
        a <- len_of t ;; b <- len_of e0 ;; Return (cond c a b)
    | _ => Return (ELen e)
    end.

(** [element_of] and [subset_of] call each other on smaller arguments; the
    recursion is on [fuel], started at the sizes of the two arguments. *)
Fixpoint element_of_rec (fuel : nat) (x xs : Exp) {struct fuel} : tri :=
  match fuel with
  | O => MAYBE
  | S n =>
      match xs with
      | EFilter _ a _ => element_of_rec n x a
      | EEmptyList _ => No
      | _ =>
          match x with
          | EUnaryOp _ UThe a => both (subset_of_rec n a xs) (invert (is_empty a))
          | _ => MAYBE
          end
      end
  end
with subset_of_rec (fuel : nat) (xs ys : Exp) {struct fuel} : tri :=
  match fuel with
  | O => MAYBE
  | S n =>
      if alpha_equivalent xs ys then Yes
      else
        match xs with
        | EEmptyList _ => Yes
        | ECond _ _ t e0 =>
            let s1 := subset_of_rec n t ys in
            let s2 := subset_of_rec n e0 ys in
            if definitely s1 && definitely s2 then Yes
            else if possibly s1 && possibly s2 then MAYBE
            else No
        | ESingleton _ a => element_of_rec n a ys
        | EFilter _ a _ => subset_of_rec n a ys
        | _ =>
            let through_xs :=
              match xs with
              | EMap _ a f =>
                  if Exp_eqb (evar (arg f)) (body f)
                  then Some (subset_of_rec n a ys) else None
              | _ => None
              end in
            match through_xs with
            | Some r => r
            | None =>
                match ys with
                | EMap _ b g =>
                    if Exp_eqb (evar (arg g)) (body g)
                    then subset_of_rec n xs b else MAYBE
                | _ => MAYBE
                end
            end
        end
  end.

Definition element_of (x xs : Exp) : tri :=
  element_of_rec (size x + size xs) x xs.

Definition subset_of (xs ys : Exp) : tri :=
  subset_of_rec (size xs + size ys) xs ys.


Fixpoint nonnegative (x : Exp) : tri :=
  match x with
  | EUnaryOp _ ULength _ => Yes
  | EBinOp _ e1 BAdd e2 => both (nonnegative e1) (nonnegative e2)
  | _ => MAYBE
  end.

(** [ge]: the comparison [x >= y], pushed into conditionals. *)
Fixpoint ge (x : Exp) {struct x} : Exp -> res Exp :=
  fix ge_y (y : Exp) {struct y} : res Exp :=
    match x with
    | ECond _ c t e0 =>
        a <- ge t y ;; b <- ge e0 y ;; Return (cond c a b)
    | _ =>
        match y with
        | ECond _ c t e0 =>
            a <- ge_y t ;; b <- ge_y e0 ;; Return (cond c a b)
        | _ =>
            if definitely (nonnegative x) && Exp_eqb y ZERO then Return T
            else
              match y with
              | EUnaryOp _ ULength a =>
                  if Exp_eqb x ZERO then
                    ex <- exists_ a ;; Return (ENot ex)
                  else Return (EGe x y)
              | _ => Return (EGe x y)
              end
        end
    end.

(** ** [fork] and [resolve_forks] *)

(** The last lines of [fork]: ask the oracle about the condition and about
    its negation, in this order. *)
Definition fork_atomic {A} (context : Context) (assumptions c : Exp)
    (then_branch else_branch : A) : res A :=
  if solver_valid context (EImplies assumptions c) then
    Return then_branch
  else if solver_valid context (EImplies assumptions (ENot c)) then
    Return else_branch
  else Raise (ForkOn c).

(** [fork].  Python evaluates the inner [fork] calls before the outer
    one, so an undecided inner condition is raised first. *)
Fixpoint fork {A} (context : Context) (assumptions c : Exp)
    (then_branch else_branch : A) {struct c} : res A :=
  match c with
  | EBinOp _ e1 BAnd e2 =>
      inner <- fork context assumptions e2 then_branch else_branch ;;
      fork context assumptions e1 inner else_branch
  | EBinOp _ e1 BOr e2 =>
      inner <- fork context assumptions e2 then_branch else_branch ;;
      fork context assumptions e1 then_branch inner
  | EUnaryOp _ UNot e =>
      fork context assumptions e else_branch then_branch
  | ECond _ c0 t e =>
      on_then <- fork context assumptions t then_branch else_branch ;;
      on_else <- fork context assumptions e then_branch else_branch ;;
      fork context assumptions c0 on_then on_else
  | _ => fork_atomic context assumptions c then_branch else_branch
  end.

(** The conditions [fork] decomposes. *)
Definition structured (c : Exp) : bool :=
  match c with
  | EBinOp _ _ BAnd _ | EBinOp _ _ BOr _ | EUnaryOp _ UNot _
  | ECond _ _ _ _ => true
  | _ => false
  end.

(** [resolve_forks].  [fuel] bounds the nesting of case splits; Python
    recurses without a bound. *)
Fixpoint resolve_forks (fuel : nat) (assumptions : Exp)
    (func : Exp -> M Exp) {struct fuel} : M Exp :=
  fun st =>
    match func assumptions st with
    | (Raise (ForkOn branch_cond), st1) =>
        match fuel with
        | O => (OutOfFuel, st1)
        | S fuel' =>
            (on_true <-- resolve_forks fuel'
                           (EAll [assumptions; branch_cond]) func ;;
             on_false <-- resolve_forks fuel'
                            (EAll [assumptions; ENot branch_cond]) func ;;
             ret (cond branch_cond on_true on_false)) st1
        end
    | r => r
    end.

(** ** Canonicalising bag helpers *)

Definition bag_union (e1 e2 : Exp) : Exp :=
  match e1 with
  | EEmptyList _ => e2
  | _ =>
      match e2 with
      | EEmptyList _ => e1
      | _ => EBinOp (typ e1) e1 BAdd e2
      end
  end.

Fixpoint efilter (e : Exp) (f : Lambda Exp) {struct e} : Exp :=
  if Exp_eqb (body f) T then e
  else
    let out_type := typ e in
    match e with
    | EEmptyList _ => EEmptyList out_type
    | EBinOp _ e1 BAdd e2 => bag_union (efilter e1 f) (efilter e2 f)
    | EMap _ a g => efilter a (compose f g)
    | ESingleton _ a =>
        cond (simplify (apply_to f a)) e (EEmptyList (typ e))
    | _ => EFilter out_type e f
    end.

Definition is_ESingleton_of (b : Exp) (x : Var) : bool :=
  match b with
  | ESingleton _ a => Exp_eqb a (evar x)
  | _ => false
  end.

Definition is_EEmptyList (e : Exp) : bool :=
  match e with EEmptyList _ => true | _ => false end.

Definition as_ESingleton (e : Exp) : option Exp :=
  match e with ESingleton _ a => Some a | _ => None end.

Fixpoint flatmap (context : Context) (assumptions : Exp) (e : Exp)
    (f : Lambda Exp) {struct e} : res Exp :=
  if is_ESingleton_of (body f) (arg f) then Return e
  else if is_EEmptyList e || is_EEmptyList (body f) then
    Return (EEmptyList (typ (body f)))
  else
    match e with
    | ESingleton _ a =>
        match simplify (apply_to f a) with
        | ECond _ c t e0 => fork context assumptions c t e0
        | r => Return r
        end
    | EBinOp _ e1 BAdd e2 =>
        a <- flatmap context assumptions e1 f ;;
        b <- flatmap context assumptions e2 f ;;
        Return (bag_union a b)
    | ECond _ c t e0 =>
        a <- flatmap context assumptions t f ;;
        b <- flatmap context assumptions e0 f ;;
        fork context assumptions c a b
    | _ => Return (EFlatMap (typ (body f)) e f)
    end.

Fixpoint bag_intersection (context : Context) (assumptions : Exp)
    (e1 : Exp) {struct e1} : Exp -> res Exp :=
  fix on_e2 (e2 : Exp) {struct e2} : res Exp :=
    match e1 with
    | EEmptyList _ => Return e1
    | ECond _ c t e0 =>
        if is_EEmptyList e2 then Return e2
        else
          a <- bag_intersection context assumptions t e2 ;;
          b <- bag_intersection context assumptions e0 e2 ;;
          fork context assumptions c a b
    | _ =>
        match e2 with
        | EEmptyList _ => Return e2
        | ECond _ c t e0 =>
            a <- on_e2 t ;;
            b <- on_e2 e0 ;;
            fork context assumptions c a b
        | ESingleton _ y =>
            match as_ESingleton e1 with
            | Some x =>
                c <- equal x y ;;
                fork context assumptions c e1 (EEmptyList (typ e1))
            | None => Return (EIntersect e1 e2)
            end
        | _ => Return (EIntersect e1 e2)
        end
    end.

Fixpoint bag_contains (bag x : Exp) {struct bag} : res Exp :=
  if definitely (element_of x bag) then Return T
  else
    match bag with
    | EFilter _ a p =>
        c <- bag_contains a x ;; Return (EAll [c; apply_to p x])
    | ESingleton _ a => equal a x
    | _ => Return (EIn x bag)
    end.

(** The last four cases of [bag_subtract], which do not recurse. *)
Definition bag_subtract_tail (context : Context) (assumptions : Exp)
    (e1 e2 : Exp) : res Exp :=
  if match e1 with
     | EBinOp _ e11 BSub _ => alpha_equivalent e11 e2
     | _ => false
     end
  then Return (EEmptyList (typ e1))
  else
    match e2 with
    | EBinOp _ e21 BSub e22 =>
        match alpha_equivalent e21 e1, as_ESingleton e22 with
        | true, Some x =>
            c <- bag_contains e1 x ;;
            fork context assumptions c e22 (EEmptyList (typ e1))
        | _, _ => Return (EBinOp (typ e1) e1 BSub e2)
        end
    | ESingleton _ y =>
        match as_ESingleton e1 with
        | Some x =>
            c <- equal x y ;;
            fork context assumptions c (EEmptyList (typ e1)) e1
        | None => Return (EBinOp (typ e1) e1 BSub e2)
        end
    | _ => Return (EBinOp (typ e1) e1 BSub e2)
    end.

(** [bag_subtract(context, assumptions, e1, e2)].  The recursion descends
    into [e2], and with [e2] fixed into [e1]; [bag_subtract_rec] takes them
    in this order. *)
Fixpoint bag_subtract_rec (context : Context) (assumptions : Exp)
    (e2 : Exp) {struct e2} : Exp -> res Exp :=
  fix on_e1 (e1 : Exp) {struct e1} : res Exp :=
    if is_EEmptyList e1 then Return e1
    else
      match e2 with
      | EEmptyList _ => Return e1
      | ECond _ c t e0 =>
          if alpha_equivalent e1 e2 then Return (EEmptyList (typ e1))
          else
            a <- bag_subtract_rec context assumptions t e1 ;;
            b <- bag_subtract_rec context assumptions e0 e1 ;;
            r <- fork context assumptions c a b ;;
            Return (with_type r (typ e1))
      | EBinOp _ e21 BAdd e22 =>
          if alpha_equivalent e1 e2 then Return (EEmptyList (typ e1))
          else
            match e1 with
            | ECond _ c t e0 =>
                a <- on_e1 t ;;
                b <- on_e1 e0 ;;
                r <- fork context assumptions c a b ;;
                Return (with_type r (typ e1))
            | _ =>
                r <- bag_subtract_rec context assumptions e21 e1 ;;
                bag_subtract_rec context assumptions e22 r
            end
      | _ =>
          if alpha_equivalent e1 e2 then Return (EEmptyList (typ e1))
          else
            match e1 with
            | ECond _ c t e0 =>
                a <- on_e1 t ;;
                b <- on_e1 e0 ;;
                r <- fork context assumptions c a b ;;
                Return (with_type r (typ e1))
            | _ => bag_subtract_tail context assumptions e1 e2
            end
      end.

Definition bag_subtract (context : Context) (assumptions : Exp)
    (e1 e2 : Exp) : res Exp :=
  bag_subtract_rec context assumptions e2 e1.

(** ** The delta engine and the runtime incrementalizer *)

Definition is_bag_or_set (t : Ty) : bool :=
  match t with TBag _ | TSet _ => true | _ => false end.

(** [to_bag]: the identity map, typed as a bag. *)
Definition to_bag (e : Exp) : Exp :=
  let x := mkVar "x" (elem_type (typ e)) in
  EMap (TBag (elem_type (typ e))) e (ELambda x (evar x)).

(** ** The diagnostics before an inefficiency signal *)

(** [minimal_model] with its default [collection_depth] of 4: when the
    formula is satisfiable, the first model found as the bound on the total
    size of the collection variables grows from 0 to four times their
    number; [None] otherwise. *)
Definition minimal_model (context : Context) (formula : Exp) : option Env :=
  if solver_satisfiable context formula then
    let collections :=
      filter (fun v => is_collection (var_type v))
             (nodup Var_eq_dec (free_vars formula)) in
    (fix search (bounds : list nat) : option Env :=
       match bounds with
       | [] => None
       | max_len :: rest =>
           match solver_satisfy context
                   (EAll [ELt (ESum (map (fun v => ELen (evar v)) collections))
                              (ENum INT (Z.of_nat max_len));
                          formula]) with
           | Some model => Some model
           | None => search rest
           end
       end) (List.seq 0 (4 * List.length collections + 1))
  else None.

(** What the argmin/argmax case of [better_mutate] evaluates before it
    raises [NotEfficient]: a minimal model of the assumptions in which more
    than one element is removed, and in it the two parts of the delta and
    the true deletions and additions.  The printing is left out. *)
Definition recompute_diagnostics (context : Context)
    (assumptions to_add to_del a : Exp) (op : Stm) : res unit :=
  let model :=
    minimal_model context
      (EAll [assumptions; ENot (ELe (ELen to_del) ONE)]) in
  _ <- eval_in_model to_del model ;;
  _ <- eval_in_model to_add model ;;
  new1 <- mutate a op ;;
  true_del <- exp_minus (to_bag a) (to_bag new1) ;;
  _ <- eval_in_model true_del model ;;
  new2 <- mutate a op ;;
  true_add <- exp_minus (to_bag new2) (to_bag a) ;;
  _ <- eval_in_model true_add model ;;
  Return tt.

(** [better_mutate], [bag_delta] (with its [dbg] wrapper),
    [checked_bag_delta] and [became_bool] call one another on expressions
    that are not subterms (a lambda body applied to a fresh variable), so
    they recurse on [fuel]; every call spends one unit.  The diagnostic
    output of the source ([print], [minimal_model]) is left out. *)
Fixpoint better_mutate (fuel : nat) (e : Exp) (context : Context)
    (op : Stm) (assumptions : Exp) {struct fuel} : M Exp :=
  match fuel with
  | O => lift OutOfFuel
  | S n =>
  match e with
  | EStateVar _ e0 =>
    new_e0 <-- lift (mutate e0 op) ;;
    if alpha_equivalent e0 new_e0 then ret e
    else
    let esv := e in
    if is_bag_or_set (typ e0) then
      ' (add, remove) <-- checked_bag_delta n e0 context op assumptions ;;
      r <-- lift (bag_subtract context assumptions e0 remove) ;;
      ret (bag_union r add)
    else
    match e0 with
    | EUnaryOp _ UExists a =>
        ' (add, remove) <-- checked_bag_delta n a context op assumptions ;;
        la <-- lift (len_of a) ;;
        ladd <-- lift (len_of add) ;;
        lrem <-- lift (len_of remove) ;;
        ret (EGt (EBinOp INT (EStateVar INT la) BAdd ladd) lrem)
    | EUnaryOp _ UNot a =>
        sv <-- lift (statevar a) ;;
        new_val <-- better_mutate n sv context op assumptions ;;
        ret (ENot new_val)
    | ESingleton t a =>
        sv <-- lift (statevar a) ;;
        r <-- better_mutate n sv context op T ;;
        ret (ESingleton t r)
    | EBinOp t e1 o e2 =>
        sv1 <-- lift (statevar e1) ;;
        r1 <-- better_mutate n sv1 context op assumptions ;;
        sv2 <-- lift (statevar e2) ;;
        r2 <-- better_mutate n sv2 context op assumptions ;;
        ret (EBinOp t r1 o r2)
    | ECall t func args =>
        rs <-- mapM (fun x =>
                       sv <-- lift (statevar x) ;;
                       better_mutate n sv context op assumptions) args ;;
        ret (ECall t func rs)
    | ECond _ c t e1 =>
        sv1 <-- lift (statevar t) ;;
        then_branch <-- better_mutate n sv1 context op assumptions ;;
        sv2 <-- lift (statevar e1) ;;
        else_branch <-- better_mutate n sv2 context op assumptions ;;
        bf <-- became_bool n c context op false assumptions ;;
        bt <-- became_bool n c context op true assumptions ;;
        ret (cond c (cond bf else_branch then_branch)
                    (cond bt then_branch else_branch))
    | EArgMin t a f | EArgMax t a f =>
        new_f <-- lift (mutate (ELam f) op) ;;
        if alpha_equivalent (ELam f) new_f then
          ' (to_add, to_del) <--
             checked_bag_delta n (EStateVar (typ a) a) context op
               assumptions ;;
          let h := to_heap e0 in
          let h := EStateVar (typ h) h in
          let second_min :=
            with_type (EHeapPeek2 h (EStateVar INT (ELen a))) t in
          v <-- fresh_var (typ to_del) "removed" ;;
          min_after_del <--
            (if is_EEmptyList to_del
                || valid (EImplies assumptions (EEmpty to_del))
             then ret esv
             else if valid (EImplies assumptions (EEq (ELen to_del) ONE))
             then ret (ECond (typ a)
                         (EEq (EUnaryOp t UThe to_del) esv) second_min esv)
             else
               _ <-- lift (recompute_diagnostics context assumptions
                             to_add to_del a op) ;;
               raise (NotEfficient e0)) ;;
          if definitely (is_empty to_add) then ret min_after_del
          else
            let xs :=
              bag_union (ESingleton (TBag (typ min_after_del)) min_after_del)
                        to_add in
            ret (match e0 with
                 | EArgMax _ _ _ => EArgMax t xs f
                 | _ => EArgMin t xs f
                 end)
        else raise (NotEfficient e0)
    | _ => raise NotImplementedError
    end
  | _ => raise TypeError
  end
  end

with bag_delta (fuel : nat) (e : Exp) (context : Context)
    (s : Stm) (assumptions : Exp) {struct fuel} : M (Exp * Exp) :=
  match fuel with
  | O => lift OutOfFuel
  | S n =>
  ' (added, removed) <--
  (let empty := EEmptyList (typ e) in
   match e with
   | EStateVar _ a => checked_bag_delta n a context s assumptions
   | _ =>
   let e :=
     match e with
     | EMap t a f =>
         EFlatMap t a (ELambda (arg f) (ESingleton t (body f)))
     | _ => e
     end in
   let e :=
     match e with
     | EFilter t a p =>
         EFlatMap t a
           (ELambda (arg p)
              (cond (body p) (ESingleton t (evar (arg p))) (EEmptyList t)))
     | _ => e
     end in
   match e with
   | EFlatMap _ xs f =>
       arg <-- fresh_var (var_type (arg f)) "var" ;;
       let func_body := apply_to f (evar arg) in
       ' (added_xs, removed_xs) <--
          checked_bag_delta n xs context s assumptions ;;
       let inner_context := UnderBinder context arg xs RUNTIME_POOL in
       added_ys <--
         resolve_forks n assumptions
           (fun a =>
              r <-- checked_bag_delta n func_body inner_context s a ;;
              ret (fst r)) ;;
       removed_ys <--
         resolve_forks n assumptions
           (fun a =>
              r <-- checked_bag_delta n func_body inner_context s a ;;
              ret (snd r)) ;;
       new_body <-- lift (mutate func_body s) ;;
       post_remove <-- lift (bag_subtract context assumptions xs removed_xs) ;;
       r1 <-- lift (flatmap context assumptions removed_xs f) ;;
       r2 <-- lift (flatmap context assumptions post_remove
                      (ELambda arg removed_ys)) ;;
       let removed := bag_union r1 r2 in
       a1 <-- lift (flatmap context assumptions added_xs
                      (ELambda arg new_body)) ;;
       a2 <-- lift (flatmap context assumptions post_remove
                      (ELambda arg added_ys)) ;;
       let added := bag_union a1 a2 in
       let same := alpha_equivalent added removed in
       let added := if same then empty else added in
       let removed := if same then empty else removed in
       i <-- lift (bag_intersection context assumptions removed added) ;;
       n' <-- lift (bag_subtract context assumptions added i) ;;
       d' <-- lift (bag_subtract context assumptions removed i) ;;
       ret (n', d')
   | EBinOp _ e1 BAdd e2 =>
       ' (n1, d1) <-- checked_bag_delta n e1 context s assumptions ;;
       ' (n2, d2) <-- checked_bag_delta n e2 context s assumptions ;;
       ret (bag_union n1 n2, bag_union d1 d2)
   | EBinOp _ e1 BSub e2 =>
       ' (n1, d1) <-- checked_bag_delta n e1 context s assumptions ;;
       ' (n2, d2) <-- checked_bag_delta n e2 context s assumptions ;;
       ret (bag_union n1 d2, bag_union d1 n2)
   | EUnaryOp t UDistinct a =>
       ' (n0, d0) <-- checked_bag_delta n a context s assumptions ;;
       let n0 := edistinct n0 in
       let d0 := edistinct d0 in
       if negb (definitely (are_unique a)) then
         x <-- fresh_var (elem_type t) "var" ;;
         c <-- lift (equal (ECountIn (evar x) a) ONE) ;;
         ret (n0, efilter (edistinct d0) (ELambda x c))
       else ret (n0, d0)
   | ESingleton t a =>
       sv <-- lift (statevar a) ;;
       new_e <-- better_mutate n sv context s assumptions ;;
       if retypecheck new_e then
         lift (fork context assumptions (EEq a new_e)
                 (empty, empty) (ESingleton t new_e, e))
       else raise AssertionError
   | EEmptyList _ => ret (empty, empty)
   | ECond _ c t e0 =>
       new_cond <-- lift (mutate c s) ;;
       if alpha_equivalent new_cond c then
         ' (n1, d1) <-- checked_bag_delta n t context s assumptions ;;
         ' (n2, d2) <-- checked_bag_delta n e0 context s assumptions ;;
         ret (cond c n1 n2, cond c d1 d2)
       else
         bf1 <-- became_bool n c context s false assumptions ;;
         s1 <-- lift (bag_subtract context assumptions e0 t) ;;
         let case1 := cond bf1 s1 empty in
         bt2 <-- became_bool n c context s true assumptions ;;
         s2 <-- lift (bag_subtract context assumptions t e0) ;;
         let case2 := cond bt2 s2 empty in
         bf3 <-- became_bool n c context s false assumptions ;;
         s3 <-- lift (bag_subtract context assumptions t e0) ;;
         let case3 := cond bf3 s3 empty in
         bt4 <-- became_bool n c context s true assumptions ;;
         s4 <-- lift (bag_subtract context assumptions e0 t) ;;
         let case4 := cond bt4 s4 empty in
         ret (cond c case1 case2, cond c case3 case4)
   | EVar _ _ =>
       new_e <-- lift (mutate e s) ;;
       let by_subtraction :=
         a <-- lift (bag_subtract context assumptions new_e e) ;;
         d <-- lift (bag_subtract context assumptions e new_e) ;;
         ret (a, d) in
       match new_e with
       | EBinOp _ e1 BAdd e2 =>
           match e1 with
           | EBinOp _ e11 BSub e12 =>
               if alpha_equivalent e11 e then ret (e2, e12)
               else if alpha_equivalent e1 e then ret (e2, empty)
               else by_subtraction
           | _ =>
               if alpha_equivalent e1 e then ret (e2, empty)
               else by_subtraction
           end
       | _ => by_subtraction
       end
   | _ => raise NotImplementedError
   end
   end) ;;
  if Nat.ltb 100 (size removed) then raise ValueError
  else ret (added, removed)
  end

with checked_bag_delta (fuel : nat) (e : Exp) (context : Context)
    (s : Stm) (assumptions : Exp) {struct fuel} : M (Exp * Exp) :=
  match fuel with
  | O => lift OutOfFuel
  | S n =>
      ' (added, removed) <-- bag_delta n e context s assumptions ;;
      ret (added, removed)
  end

with became_bool (fuel : nat) (e : Exp) (context : Context)
    (s : Stm) (val : bool) (assumptions : Exp) {struct fuel} : M Exp :=
  match fuel with
  | O => lift OutOfFuel
  | S n =>
  new_e <-- lift (mutate e s) ;;
  if alpha_equivalent e new_e then ret F
  else
  match e with
  | EUnaryOp _ UNot a => became_bool n a context s (negb val) assumptions
  | EUnaryOp _ UExists a =>
      ' (added, removed) <-- bag_delta n a context s assumptions ;;
      if val then lift (exists_ added)
      else
        lrem <-- lift (len_of removed) ;;
        ladd <-- lift (len_of added) ;;
        la <-- lift (len_of a) ;;
        lift (ge lrem (ESum [ladd; la]))
  | EBinOp _ e1 BAnd e2 =>
      if val then raise NotImplementedError
      else
        b1 <-- became_bool n e1 context s val assumptions ;;
        b2 <-- became_bool n e2 context s val assumptions ;;
        ret (EAny [b1; b2])
  | EBinOp _ e1 BOr e2 =>
      if val then
        b1 <-- became_bool n e1 context s val assumptions ;;
        b2 <-- became_bool n e2 context s val assumptions ;;
        ret (EAny [b1; b2])
      else
        b1 <-- became_bool n e1 context s val assumptions ;;
        b2 <-- became_bool n e2 context s val assumptions ;;
        b1' <-- became_bool n e1 context s val assumptions ;;
        b2' <-- became_bool n e2 context s val assumptions ;;
        ret (cond e1 (cond e2 (EAll [b1; b2]) b1') b2')
  | _ => raise NotImplementedError
  end
  end.

Definition became_true (fuel : nat) (e : Exp) (context : Context)
    (s : Stm) (assumptions : Exp) : M Exp :=
  became_bool fuel e context s true assumptions.

Definition became_false (fuel : nat) (e : Exp) (context : Context)
    (s : Stm) (assumptions : Exp) : M Exp :=
  became_bool fuel e context s false assumptions.

(** [real_better_mutate]. *)
Definition real_better_mutate (fuel : nat) (e : Exp) (context : Context)
    (op : Stm) (assumptions : Exp) : M Exp :=
  resolve_forks fuel assumptions
    (fun a => better_mutate fuel e context op a).

(** ** Update sketches *)

Definition type_k (t : Ty) : Ty := match t with TMap k _ => k | _ => t end.
Definition type_v (t : Ty) : Ty := match t with TMap _ v => v | _ => t end.

(** [value_at]: an AST node for [m[k]]. *)
Fixpoint value_at (m k : Exp) {struct m} : Exp :=
  match m with
  | EMakeMap2 t e value =>
      ECond (type_v t) (EIn k e) (apply_to value k) (construct_value (type_v t))
  | ECond t c a b => ECond (type_v t) c (value_at a k) (value_at b k)
  | _ => EMapGet (type_v (typ m)) m k
  end.

Definition var_mem (v : Var) (l : list Var) : bool :=
  if in_dec Var_eq_dec v l then true else false.

(** The free variables of a query: those of its assumptions and of its
    body that are not among its arguments. *)
Definition free_vars_query (q : Query) : list Var :=
  nodup Var_eq_dec
    (filter (fun v => negb (mem_string (var_id v) (map fst (q_args q))))
       (flat_map free_vars (q_assumptions q) ++ free_vars (q_ret q))).

(** The local function [make_subgoal] of [sketch_update].  It returns the
    expression that stands for the subgoal and the queries it appended to
    [subgoals]. *)
Definition make_subgoal (ctx : list Var) (assumptions : list Exp)
    (e : Exp) (a : list Exp) (docstring : string) : M (Exp * list Query) :=
  if skip_stateless_synthesis
     && negb (existsb (fun v => var_mem v ctx) (free_vars e))
  then ret (e, [])
  else
    query_name <-- fresh_name "query" ;;
    let query :=
      mkQuery query_name Internal [] (assumptions ++ a) e docstring in
    let query_vars :=
      filter (fun v => negb (var_mem v ctx)) (free_vars_query query) in
    let query :=
      mkQuery query_name Internal
        (map (fun v => (var_id v, var_type v)) query_vars)
        (assumptions ++ a) e docstring in
    ret (ECall (typ e) query_name (map evar query_vars), [query]).

(** [sketch_update], by recursion on the type [t] of the lvalue.  The
    second component of the result lists the subgoals in the order in
    which the source appends them. *)
Fixpoint sketch_update_rec (t : Ty) (lval old_value new_value : Exp)
    (ctx : list Var) (assumptions invariants : list Exp) {struct t}
    : M (Stm * list Query) :=
  if valid (EImplies (EAll (assumptions ++ invariants))
                     (EEq old_value new_value))
  then ret (SNoOp, [])
  else
    let new_value := strip_EStateVar new_value in
    let fallback :=
      ' (e, sgs) <-- make_subgoal ctx assumptions new_value []
                       ("new value for " ++ pprint lval)%string ;;
      ret (SAssign lval e, sgs) in
    match t with
    | TBag el | TSet el =>
        ' (to_add, sg1) <--
           make_subgoal ctx assumptions (EBinOp t new_value BSub old_value) []
             ("additions to " ++ pprint lval)%string ;;
        ' (to_del, sg2) <--
           make_subgoal ctx assumptions (EBinOp t old_value BSub new_value) []
             ("deletions from " ++ pprint lval)%string ;;
        v <-- fresh_var el "var" ;;
        ret (seq [SForEach v to_del (SCall lval "remove" [evar v]);
                  SForEach v to_add (SCall lval "add" [evar v])],
             sg1 ++ sg2)
    | TTuple ts =>
        ' (stms, sgs) <--
          (fix go (ts : list Ty) (i : nat) {struct ts}
             : M (list Stm * list Query) :=
             match ts with
             | [] => ret ([], [])
             | ti :: rest =>
                 ' (code, sgs) <--
                    sketch_update_rec ti (ETupleGet ti lval i)
                      (ETupleGet ti old_value i) (ETupleGet ti new_value i)
                      ctx assumptions invariants ;;
                 ' (codes, sgss) <-- go rest (S i) ;;
                 ret (code :: codes, sgs ++ sgss)
             end) ts 0 ;;
        ret (seq stms, sgs)
    | TRecord fields =>
        ' (stms, sgs) <--
          (fix go (fields : list (string * Ty)) {struct fields}
             : M (list Stm * list Query) :=
             match fields with
             | [] => ret ([], [])
             | (f, ft) :: rest =>
                 ' (code, sgs) <--
                    sketch_update_rec ft (EGetField ft lval f)
                      (EGetField ft old_value f) (EGetField ft new_value f)
                      ctx assumptions invariants ;;
                 ' (codes, sgss) <-- go rest ;;
                 ret (code :: codes, sgs ++ sgss)
             end) fields ;;
        ret (seq stms, sgs)
    | TMap tk tv =>
        k <-- fresh_var tk "var" ;;
        v <-- fresh_var tv "var" ;;
        let key_bag := TBag tk in
        let old_keys := EMapKeys key_bag old_value in
        let new_keys := EMapKeys key_bag new_value in
        let deleted_keys := EBinOp key_bag old_keys BSub new_keys in
        ' (dk, sg1) <--
           make_subgoal ctx assumptions deleted_keys []
             ("keys removed from " ++ pprint lval)%string ;;
        let s1 := SForEach k dk (SMapDel lval (evar k)) in
        let new_or_modified :=
          EFilter key_bag new_keys
            (ELambda k
               (EAny [ENot (EIn (evar k) old_keys);
                      ENot (EEq (value_at old_value (evar k))
                                (value_at new_value (evar k)))])) in
        ' (update_value, sg2) <--
           sketch_update_rec tv (evar v)
             (value_at old_value (evar k)) (value_at new_value (evar k))
             ctx
             (assumptions ++
                [EIn (evar k) new_or_modified;
                 EEq (evar v) (value_at old_value (evar k))])
             invariants ;;
        ' (nk, sg3) <--
           make_subgoal ctx assumptions new_or_modified []
             ("new or modified keys from " ++ pprint lval)%string ;;
        let s2 := SForEach k nk (SMapUpdate lval (evar k) v update_value) in
        ret (SSeq s1 s2, sg1 ++ sg2 ++ sg3)
    | _ =>
        if is_numeric t && update_numbers_with_deltas then
          ' (change, sgs) <--
             make_subgoal ctx assumptions
               (EBinOp t new_value BSub old_value) []
               ("delta for " ++ pprint lval)%string ;;
          ret (SAssign lval (EBinOp t lval BAdd change), sgs)
        else fallback
    end.

Definition sketch_update (lval old_value new_value : Exp)
    (ctx : list Var) (assumptions invariants : list Exp)
    : M (Stm * list Query) :=
  sketch_update_rec (typ lval) lval old_value new_value ctx assumptions
    invariants.

(** ** Notions used to state the claims *)

(** A statement without loops. *)
Fixpoint loop_free (s : Stm) : bool :=
  match s with
  | SForEach _ _ _ => false
  | SSeq a b => loop_free a && loop_free b
  | SIf _ a b => loop_free a && loop_free b
  | SMapUpdate _ _ _ c => loop_free c
  | _ => true
  end.

(** The query that [make_subgoal] builds for the body [e]. *)
Definition subgoal_query (ctx : list Var) (assumptions : list Exp)
    (e : Exp) (docstring : string) (st : nat) : Query :=
  let query_name := String "_" ("query" ++ string_of_nat st)%string in
  let query := mkQuery query_name Internal [] (assumptions ++ []) e docstring in
  mkQuery query_name Internal
    (map (fun v => (var_id v, var_type v))
       (filter (fun v => negb (var_mem v ctx)) (free_vars_query query)))
    (assumptions ++ []) e docstring.

(** The call that stands for that query in the emitted code. *)
Definition subgoal_call (ctx : list Var) (assumptions : list Exp)
    (e : Exp) (docstring : string) (st : nat) : Exp :=
  let q := subgoal_query ctx assumptions e docstring st in
  ECall (typ e) (q_name q)
    (map evar
       (filter (fun v => negb (var_mem v ctx))
          (free_vars_query
             (mkQuery (q_name q) Internal [] (assumptions ++ []) e
                docstring)))).

(** The last step of the [EArgMin]/[EArgMax] case of [better_mutate]: the
    minimum after deletions, together with the added elements. *)
Definition with_additions (e0 : Exp) (min_after_del to_add : Exp) : Exp :=
  if definitely (is_empty to_add) then min_after_del
  else
    let xs :=
      bag_union (ESingleton (TBag (typ min_after_del)) min_after_del)
                to_add in
    match e0 with
    | EArgMax t _ f => EArgMax t xs f
    | EArgMin t _ f => EArgMin t xs f
    | _ => e0
    end.

(** The tracked second-best element of a cached [EArgMin]/[EArgMax]. *)
Definition second_min (e0 : Exp) : Exp :=
  match e0 with
  | EArgMin t a _ | EArgMax t a _ =>
      let h := to_heap e0 in
      with_type (EHeapPeek2 (EStateVar (typ h) h) (EStateVar INT (ELen a))) t
  | _ => e0
  end.

Definition is_arg_min_max (e0 : Exp) : bool :=
  match e0 with EArgMin _ _ _ | EArgMax _ _ _ => true | _ => false end.

Definition arg_collection (e0 : Exp) : Exp :=
  match e0 with EArgMin _ a _ | EArgMax _ a _ => a | _ => e0 end.

Definition arg_function (e0 : Exp) : Exp :=
  match e0 with EArgMin _ _ f | EArgMax _ _ f => ELam f | _ => e0 end.

(** ** Views used to state the properties of the helpers *)

Definition as_ECond (e : Exp) : option (Exp * Exp * Exp) :=
  match e with ECond _ c t e0 => Some (c, t, e0) | _ => None end.

Definition as_BAdd (e : Exp) : option (Exp * Exp) :=
  match e with EBinOp _ a BAdd b => Some (a, b) | _ => None end.

Definition as_BSub (e : Exp) : option (Exp * Exp) :=
  match e with EBinOp _ a BSub b => Some (a, b) | _ => None end.

Definition is_EMakeRecord (e : Exp) : bool :=
  match e with EMakeRecord _ _ => true | _ => false end.

(** No singleton of a record construction occurs in [e] where the bag
    helpers look: under conditionals, binary operators and filters.  On
    two record constructions [equal] compares the fields that the type of
    the first declares; on every other pair it is plain equality. *)
Fixpoint plain_bag (e : Exp) : bool :=
  match e with
  | ESingleton _ a => negb (is_EMakeRecord a)
  | ECond _ _ t e0 => plain_bag t && plain_bag e0
  | EBinOp _ a _ b => plain_bag a && plain_bag b
  | EFilter _ a _ => plain_bag a
  | _ => true
  end.

(** [r] denotes the bag difference of [e1] and [e2] in [env]: every value
    occurs in [r] as often as in [e1], less its occurrences in [e2]. *)
Definition denotes_difference (env : Env) (r e1 e2 : Exp) : Prop :=
  forall v,
    count v (as_bag (eval env r))
    = count v (as_bag (eval env e1)) - count v (as_bag (eval env e2)).

(** At least the common occurrences of [e1] and [e2] are in [r]. *)
Definition covers_intersection (env : Env) (r e1 e2 : Exp) : Prop :=
  forall v,
    Nat.min (count v (as_bag (eval env e1))) (count v (as_bag (eval env e2)))
    <= count v (as_bag (eval env r)).

(** No value occurs both in [a] and in [b]. *)
Definition disjoint_bags (env : Env) (a b : Exp) : Prop :=
  forall v,
    count v (as_bag (eval env a)) = 0 \/ count v (as_bag (eval env b)) = 0.

(** The collection forms whose delta [bag_delta] computes through the
    flat-map case. *)
Definition is_flat_map (e : Exp) : bool :=
  match e with
  | EMap _ _ _ | EFilter _ _ _ | EFlatMap _ _ _ => true
  | _ => false
  end.

(** Expressions built from variables, cached values, empty collections,
    unions and differences. *)
Fixpoint unions_of_variables (e : Exp) : bool :=
  match e with
  | EVar _ _ | EEmptyList _ => true
  | EStateVar _ a => unions_of_variables a
  | EBinOp _ a BAdd b | EBinOp _ a BSub b =>
      unions_of_variables a && unions_of_variables b
  | _ => false
  end.

(** ** Further helpers of the module *)

(** [emap]: the map of [f] over [e], pushed into [e]. *)
Fixpoint emap (e : Exp) (f : Lambda Exp) {struct e} : Exp :=
  if Exp_eqb (body f) (evar (arg f)) then e
  else
    let out_type := same_collection (typ e) (typ (body f)) in
    match e with
    | EEmptyList _ => EEmptyList out_type
    | ESingleton _ a => ESingleton out_type (apply_to f a)
    | EBinOp _ e1 BAdd e2 => bag_union (emap e1 f) (emap e2 f)
    | EMap _ a g => emap a (compose f g)
    | ECond _ c t e0 => cond c (emap t f) (emap e0 f)
    | _ => EMap out_type e f
    end.

(** [is_filter]: does the flat-map body [f_body] keep or drop its argument
    [f_arg]? *)
Fixpoint is_filter (f_arg f_body : Exp) {struct f_body} : tri :=
  match f_body with
  | ECond _ _ t e0 => both (is_filter f_arg t) (is_filter f_arg e0)
  | EEmptyList _ => Yes
  | ESingleton _ a => if Exp_eqb a f_arg then Yes else MAYBE
  | _ => MAYBE
  end.

(** [to_predicate]: the condition under which such a body keeps its
    argument. *)
Fixpoint to_predicate (f_body : Exp) : res Exp :=
  match f_body with
  | ECond _ c t e0 =>
      a <- to_predicate t ;; b <- to_predicate e0 ;; Return (cond c a b)
  | EEmptyList _ => Return F
  | ESingleton _ _ => Return T
  | _ => Raise ValueError
  end.

(** [implies]: an implication, simplified when a side is a constant. *)
Definition implies (e1 e2 : Exp) : Exp :=
  if Exp_eqb e1 T then e2
  else if Exp_eqb e1 F then T
  else if Exp_eqb e2 T then T
  else if Exp_eqb e2 F then ENot e1
  else EImplies e1 e2.

(** [is_zero]: the comparison with zero, pushed into conditionals. *)
Fixpoint is_zero (e : Exp) : Exp :=
  match e with
  | ECond _ c t e0 => cond c (is_zero t) (is_zero e0)
  | _ => EEq e ZERO
  end.

(** [as_bag] of the module (the name is taken by the coercion of values):
    a list seen as a bag. *)
Definition as_bag_exp (e : Exp) : Exp :=
  match typ e with
  | TList elem =>
      EFilter (TBag elem) e (ELambda (mkVar "x" elem) T)
  | _ => e
  end.

(** No map occurs among the unions of [e]. *)
Fixpoint map_free (e : Exp) : bool :=
  match e with
  | EMap _ _ _ => false
  | EBinOp _ a BAdd b => map_free a && map_free b
  | _ => true
  end.

Definition as_ULength (e : Exp) : option Exp :=
  match e with EUnaryOp _ ULength a => Some a | _ => None end.

(** What a statement [a] that stands before other statements does to the
    expression [e1] obtained for those: a declaration is substituted, a
    sequence acts from its last statement to its first, and every other
    statement acts as [mutate] says. *)
Fixpoint mutate_before (a : Stm) (e1 : Exp) {struct a} : res Exp :=
  match a with
  | SDecl x v => Return (subst e1 [(x, v)])
  | SSeq a1 a2 => e2 <- mutate_before a2 e1 ;; mutate_before a1 e2
  | _ => mutate e1 a
  end.

(** The last statement of [a], read as one sequence however it is nested,
    is a declaration. *)
Fixpoint ends_in_decl (a : Stm) : bool :=
  match a with
  | SDecl _ _ => true
  | SSeq _ b => ends_in_decl b
  | _ => false
  end.
(* ===================================================================== *)
(** * Properties *)
(* ===================================================================== *)

(** ** Contracts of the external collaborators *)

(** Alpha-equivalence is reflexive, and alpha-equivalent expressions have
    the same value. *)
Hypothesis alpha_refl : forall e, alpha_equivalent e e = true.
Hypothesis alpha_sound :
  forall a b, alpha_equivalent a b = true ->
  forall env, eval env a = eval env b.

(** The simplifier preserves values. *)
Hypothesis simplify_sound : forall env e, eval env (simplify e) = eval env e.
Hypothesis cond_sound :
  forall env c t e,
    eval env (cond c t e)
    = if as_bool (eval env c) then eval env t else eval env e.

(** The oracle is sound: a formula it validates holds in every
    environment. *)
Hypothesis solver_sound :
  forall context formula,
    solver_valid context formula = true -> forall env, holds env formula.

Lemma Exp_eqb_eq a b : Exp_eqb a b = true <-> a = b.
Proof.
  unfold Exp_eqb. destruct (Exp_eq_dec a b); split; congruence.
Qed.

Lemma Exp_eqb_refl a : Exp_eqb a a = true.
Proof. apply Exp_eqb_eq. reflexivity. Qed.


(** ** Bags *)

Arguments count : simpl never.
Arguments string_dec : simpl never.
Arguments fresh_id : simpl never.
Arguments Value_eq_dec : simpl never.

Lemma count_app x a b : count x (a ++ b) = count x a + count x b.
Proof. unfold count. apply count_occ_app. Qed.

Lemma count_cons x y l :
  count x (y :: l) = (if Value_eq_dec y x then 1 else 0) + count x l.
Proof. unfold count. simpl. destruct (Value_eq_dec y x); reflexivity. Qed.

Lemma count_nil x : count x [] = 0.
Proof. reflexivity. Qed.

Lemma count_remove1 x y l :
  count x (remove1 y l)
  = if Value_eq_dec y x then pred (count x l) else count x l.
Proof.
  induction l as [| z l IH].
  - simpl. rewrite count_nil. destruct (Value_eq_dec y x); reflexivity.
  - simpl remove1. destruct (Value_eq_dec y z) as [-> | Hyz].
    + rewrite count_cons.
      destruct (Value_eq_dec z x); simpl; reflexivity.
    + rewrite !count_cons, IH.
      destruct (Value_eq_dec y x) as [-> | Hyx];
        destruct (Value_eq_dec z x) as [-> | Hzx];
        try congruence; simpl; reflexivity.
Qed.

Lemma count_bag_diff x a b :
  count x (bag_diff a b) = count x a - count x b.
Proof.
  revert a. induction b as [| y b IH]; intros a; simpl.
  - rewrite count_nil. lia.
  - rewrite IH, count_remove1, count_cons.
    destruct (Value_eq_dec y x); lia.
Qed.

Lemma count_nil_iff l : (forall x, count x l = 0) <-> l = [].
Proof.
  split.
  - destruct l as [| y l]; [reflexivity |].
    intros H. specialize (H y). rewrite count_cons in H.
    destruct (Value_eq_dec y y); [discriminate | congruence].
  - intros ->. reflexivity.
Qed.

Lemma bag_diff_self l : bag_diff l l = [].
Proof.
  apply count_nil_iff. intros x. rewrite count_bag_diff. lia.
Qed.

Lemma bag_diff_nil_l l : bag_diff [] l = [].
Proof.
  apply count_nil_iff. intros x. rewrite count_bag_diff. reflexivity.
Qed.

Lemma bag_diff_sub_self a b : bag_diff (bag_diff a b) a = [].
Proof.
  apply count_nil_iff. intros x. rewrite !count_bag_diff. lia.
Qed.

Lemma bag_diff_app a b c : bag_diff a (b ++ c) = bag_diff (bag_diff a b) c.
Proof.
  revert a. induction b as [| y b IH]; intros a; simpl; [reflexivity |].
  apply IH.
Qed.

Lemma mem_count x l : mem x l = true <-> 0 < count x l.
Proof.
  unfold mem, count. rewrite existsb_exists. split.
  - intros [y [Hin Hy]]. unfold Value_eqb in Hy.
    destruct (Value_eq_dec x y) as [-> |]; [| discriminate].
    apply count_occ_In. exact Hin.
  - intros H. exists x. split.
    + eapply count_occ_In. exact H.
    + unfold Value_eqb. destruct (Value_eq_dec x x); congruence.
Qed.

Lemma Value_eqb_eq a b : Value_eqb a b = true <-> a = b.
Proof.
  unfold Value_eqb. destruct (Value_eq_dec a b); split; congruence.
Qed.

Lemma bag_eq_refl l : bag_eq l l.
Proof. intros x. reflexivity. Qed.

Lemma bag_eq_perm l1 l2 : bag_eq l1 l2 <-> Permutation l1 l2.
Proof.
  unfold bag_eq, count. symmetry. apply Permutation_count_occ.
Qed.

(** ** Evaluation of the derived forms *)

(** The bag an expression denotes. *)
Lemma as_bag_add t a b env :
  as_bag (eval env (EBinOp t a BAdd b))
  = as_bag (eval env a) ++ as_bag (eval env b).
Proof.
  simpl. destruct (eval env a), (eval env b); reflexivity.
Qed.

Lemma as_bag_sub t a b env :
  as_bag (eval env (EBinOp t a BSub b))
  = bag_diff (as_bag (eval env a)) (as_bag (eval env b)).
Proof.
  simpl. destruct (eval env a), (eval env b); simpl;
    try reflexivity; try (symmetry; apply bag_diff_nil_l).
Qed.

Lemma holds_T env : holds env T.
Proof. reflexivity. Qed.

Lemma holds_ENot env c : holds env (ENot c) <-> as_bool (eval env c) = false.
Proof.
  unfold holds. simpl. destruct (as_bool (eval env c)); simpl;
    split; congruence.
Qed.

Lemma holds_EImplies env a c :
  holds env (EImplies a c) <-> (holds env a -> holds env c).
Proof.
  unfold holds. simpl.
  destruct (as_bool (eval env a)), (as_bool (eval env c)); simpl;
    split; auto; intros H; try discriminate; symmetry; apply H; reflexivity.
Qed.

Lemma holds_and env t a b :
  holds env (EBinOp t a BAnd b) <-> holds env a /\ holds env b.
Proof. unfold holds. simpl. rewrite andb_true_iff. reflexivity. Qed.

Lemma holds_or env t a b :
  holds env (EBinOp t a BOr b) <-> holds env a \/ holds env b.
Proof. unfold holds. simpl. rewrite orb_true_iff. reflexivity. Qed.

Lemma holds_EAll env l : holds env (EAll l) <-> Forall (holds env) l.
Proof.
  induction l as [| a l IH]; simpl.
  - split; [constructor | reflexivity].
  - destruct l as [| b l].
    + split; [intros H; repeat constructor; exact H |].
      intros H. inversion H. assumption.
    + rewrite holds_and, IH. split.
      * intros [H1 H2]. constructor; assumption.
      * intros H. inversion H. split; assumption.
Qed.

Lemma holds_EAll_pair env a b :
  holds env (EAll [a; b]) <-> holds env a /\ holds env b.
Proof. simpl. apply holds_and. Qed.

Lemma holds_EEq env a b : holds env (EEq a b) <-> eval env a = eval env b.
Proof. unfold holds. simpl. apply Value_eqb_eq. Qed.

Lemma holds_EIn env x xs :
  holds env (EIn x xs) <-> 0 < count (eval env x) (as_bag (eval env xs)).
Proof. unfold holds. simpl. apply mem_count. Qed.

Lemma eval_cond_true env t c a b :
  holds env c -> eval env (ECond t c a b) = eval env a.
Proof. unfold holds. intros H. simpl. rewrite H. reflexivity. Qed.

Lemma eval_cond_false env t c a b :
  as_bool (eval env c) = false -> eval env (ECond t c a b) = eval env b.
Proof. intros H. simpl. rewrite H. reflexivity. Qed.

Lemma eval_with_type env e t : eval env (with_type e t) = eval env e.
Proof. destruct e; reflexivity. Qed.

(** ** Evaluation under binders *)

Lemma eval_EMap env t a f :
  eval env (EMap t a f) = VBag (map (eval_lam env f) (as_bag (eval env a))).
Proof. destruct f; reflexivity. Qed.

Lemma eval_EFilter env t a f :
  eval env (EFilter t a f)
  = VBag (filter (fun v => as_bool (eval_lam env f v)) (as_bag (eval env a))).
Proof. destruct f; reflexivity. Qed.

Lemma eval_EFlatMap env t a f :
  eval env (EFlatMap t a f)
  = VBag (flat_map (fun v => as_bag (eval_lam env f v))
            (as_bag (eval env a))).
Proof. destruct f; reflexivity. Qed.

Lemma eval_EArgMin env t a f :
  eval env (EArgMin t a f)
  = arg_best Z.ltb (fun v => as_int (eval_lam env f v)) (as_bag (eval env a)).
Proof. destruct f; reflexivity. Qed.

Lemma eval_EArgMax env t a f :
  eval env (EArgMax t a f)
  = arg_best Z.gtb (fun v => as_int (eval_lam env f v)) (as_bag (eval env a)).
Proof. destruct f; reflexivity. Qed.

Lemma eval_EMakeMap2 env t a f :
  eval env (EMakeMap2 t a f)
  = VMap (map (fun k => (k, eval_lam env f k))
            (nodup Value_eq_dec (as_bag (eval env a)))).
Proof. destruct f; reflexivity. Qed.

Lemma eval_EMakeRecord env t l :
  eval env (EMakeRecord t l) = VRecord (eval_fields env l).
Proof.
  simpl. f_equal. unfold eval_fields.
  induction l as [| [n x] l IH]; simpl; [reflexivity |].
  rewrite IH. reflexivity.
Qed.

Lemma arg_best_ext better key1 key2 l :
  (forall v, key1 v = key2 v) ->
  arg_best better key1 l = arg_best better key2 l.
Proof.
  intros H. induction l as [| x l IH]; simpl; [reflexivity |].
  destruct l as [| y l]; [reflexivity |].
  rewrite IH, !H. reflexivity.
Qed.

Lemma fv_EMakeRecord t l :
  fv (EMakeRecord t l) = flat_map (fun p => fv (snd p)) l.
Proof.
  unfold fv. simpl.
  induction l as [| [n x] l IH]; simpl; [reflexivity |].
  rewrite map_app, IH. reflexivity.
Qed.

Lemma fv_lam x b y :
  In y (map var_id (free_vars_lam (ELambda x b)))
  <-> In y (fv b) /\ y <> var_id x.
Proof.
  unfold free_vars_lam, fv. simpl. rewrite !in_map_iff. split.
  - intros [v [Hv Hin]]. apply filter_In in Hin. destruct Hin as [Hin Hne].
    subst y. split.
    + exists v. split; [reflexivity | assumption].
    + intros Heq. rewrite Heq, String.eqb_refl in Hne. discriminate.
  - intros [[v [Hv Hin]] Hne]. exists v. split; [assumption |].
    apply filter_In. split; [assumption |].
    subst y. apply String.eqb_neq in Hne. rewrite Hne. reflexivity.
Qed.

(** The value of an expression depends on its free variables only. *)
Lemma eval_ext :
  forall e env1 env2,
    (forall x, In x (fv e) -> vars env1 x = vars env2 x) ->
    funcs env1 = funcs env2 /\ heap env1 = heap env2 ->
    eval env1 e = eval env2 e.
Proof.
  assert (Hlam : forall f,
    (forall env1 env2,
       (forall x, In x (fv (body f)) -> vars env1 x = vars env2 x) ->
       funcs env1 = funcs env2 /\ heap env1 = heap env2 -> eval env1 (body f) = eval env2 (body f)) ->
    forall env1 env2,
      (forall x, In x (map var_id (free_vars_lam f)) ->
                 vars env1 x = vars env2 x) ->
      funcs env1 = funcs env2 /\ heap env1 = heap env2 ->
      forall v, eval_lam env1 f v = eval_lam env2 f v).
  { intros [x b] IH env1 env2 Hv Hf v. unfold eval_lam. simpl in *.
    apply IH; [| exact Hf].
    intros y Hy. simpl. destruct (string_dec y (var_id x)); [reflexivity |].
    apply Hv. apply fv_lam. split; assumption. }
  assert (Hfv : forall t a f y,
    (In y (fv a) \/ In y (map var_id (free_vars_lam f))) ->
    In y (fv (EMap t a f)) /\ In y (fv (EFilter t a f))
    /\ In y (fv (EFlatMap t a f)) /\ In y (fv (EArgMin t a f))
    /\ In y (fv (EArgMax t a f)) /\ In y (fv (EMakeMap2 t a f))).
  { intros t a [x b] y H. unfold fv in *. simpl.
    rewrite map_app, in_app_iff. tauto. }
  intros e.
  induction e as
    [ t x | t b | t n | t o e IHe | t a o b IHa IHb | t c a b IHc IHa IHb
    | t f l IHl | t l IHl | t e f IHe | t e n IHe | t | t e IHe
    | t e f IHe IHf | t e f IHe IHf | t e f IHe IHf | t e f IHe IHf
    | t e f IHe IHf | t e IHe | t e f IHe IHf | t m k IHm IHk | t m IHm
    | f IHf ] using Exp_induction; intros env1 env2 Hv Hf;
    try (assert (Ha : eval env1 e = eval env2 e)
           by (apply IHe; [| exact Hf]; intros y Hy; apply Hv;
               apply (Hfv t e f y); left; exact Hy);
         assert (Hb : forall v, eval_lam env1 f v = eval_lam env2 f v)
           by (apply Hlam; [exact IHf | | exact Hf]; intros y Hy; apply Hv;
               apply (Hfv t e f y); right; exact Hy);
         rewrite ?eval_EMap, ?eval_EFilter, ?eval_EFlatMap, ?eval_EArgMin,
           ?eval_EArgMax, ?eval_EMakeMap2, Ha).
  - simpl. apply Hv. left. reflexivity.
  - reflexivity.
  - reflexivity.
  - simpl. rewrite (IHe env1 env2); auto.
  - simpl. rewrite (IHa env1 env2), (IHb env1 env2); auto;
      intros y Hy; apply Hv; unfold fv in *; simpl; rewrite map_app;
      apply in_or_app; auto.
  - simpl. rewrite (IHc env1 env2), (IHa env1 env2), (IHb env1 env2);
      auto; intros y Hy; apply Hv; unfold fv in *; simpl;
      rewrite !map_app, !in_app_iff; auto.
  - simpl. rewrite (proj1 Hf). f_equal.
    assert (Hv' : forall x, In x (flat_map fv l) -> vars env1 x = vars env2 x).
    { intros y Hy. apply Hv. unfold fv. simpl.
      clear -Hy. induction l as [| a l IH]; simpl in *; [contradiction |].
      rewrite map_app, in_app_iff. apply in_app_iff in Hy.
      destruct Hy; [left; assumption | right; apply IH; assumption]. }
    clear Hv. induction IHl as [| a l Ha Hl IH]; simpl; [reflexivity |].
    rewrite (Ha env1 env2), IH; auto.
    + intros y Hy. apply Hv'. simpl. apply in_or_app. auto.
    + intros y Hy. apply Hv'. simpl. apply in_or_app. auto.
  - rewrite !eval_EMakeRecord. f_equal. rewrite fv_EMakeRecord in Hv.
    unfold eval_fields.
    induction IHl as [| a l Ha Hl IH]; simpl; [reflexivity |].
    rewrite (Ha env1 env2), IH; auto.
    + intros y Hy. apply Hv. simpl. apply in_or_app. auto.
    + intros y Hy. apply Hv. simpl. apply in_or_app. auto.
  - simpl. rewrite (IHe env1 env2); auto.
    destruct (eval env2 e); try reflexivity.
    rewrite (proj2 Hf). reflexivity.
  - simpl. rewrite (IHe env1 env2); auto.
  - reflexivity.
  - simpl. rewrite (IHe env1 env2); auto.
  - apply arg_best_ext. intros v. rewrite Hb. reflexivity.
  - apply arg_best_ext. intros v. rewrite Hb. reflexivity.
  - f_equal. apply map_ext. exact Hb.
  - f_equal. apply filter_ext. intros v. rewrite Hb. reflexivity.
  - f_equal. apply flat_map_ext. intros v. rewrite Hb. reflexivity.
  - simpl. apply IHe; auto.
  - f_equal. apply map_ext. intros v. rewrite Hb. reflexivity.
  - simpl. rewrite (IHm env1 env2), (IHk env1 env2); auto;
      intros y Hy; apply Hv; unfold fv in *; simpl; rewrite map_app;
      apply in_or_app; auto.
  - simpl. rewrite (IHm env1 env2); auto.
  - reflexivity.
Qed.

(** ** Substitution *)

Lemma longest_bound avoid s :
  In s avoid -> String.length s <= String.length (longest avoid).
Proof.
  induction avoid as [| a l IH]; simpl; [contradiction |].
  intros [-> | Hin].
  - destruct (Nat.ltb_spec (String.length (longest l)) (String.length s));
      lia.
  - specialize (IH Hin).
    destruct (Nat.ltb_spec (String.length (longest l)) (String.length a));
      lia.
Qed.

Lemma fresh_id_fresh avoid : ~ In (fresh_id avoid) avoid.
Proof.
  intros Hin. apply longest_bound in Hin. unfold fresh_id in Hin.
  simpl in Hin. lia.
Qed.

Lemma lookup_remove_key {A} x y (l : list (string * A)) :
  lookup y (remove_key x l) = if string_dec y x then None else lookup y l.
Proof.
  induction l as [| [z v] l IH]; simpl.
  - destruct (string_dec y x); reflexivity.
  - destruct (string_dec x z) as [-> | Hxz].
    + rewrite IH. destruct (string_dec y z); reflexivity.
    + simpl. rewrite IH.
      destruct (string_dec y z) as [-> | Hyz];
        destruct (string_dec z x); try congruence;
        destruct (string_dec y x); congruence.
Qed.

Lemma lookup_range_fv y m r x :
  lookup y m = Some r -> In x (fv r) -> In x (range_fv m).
Proof.
  unfold range_fv.
  induction m as [| [z v] m IH]; simpl; [discriminate |].
  destruct (string_dec y z).
  - intros [= ->] Hin. apply in_or_app. left. assumption.
  - intros Hl Hin. apply in_or_app. right. apply IH; assumption.
Qed.

Lemma mem_string_false x l : mem_string x l = false -> ~ In x l.
Proof. unfold mem_string. destruct (in_dec string_dec x l); congruence. Qed.

Lemma eval_subst_lam f replacements env v :
  (forall m env', eval env' (subst (body f) m)
                  = eval (env_subst env' m) (body f)) ->
  eval_lam env (subst_lam f replacements) v
  = eval_lam (env_subst env replacements) f v.
Proof.
  intros IH. destruct f as [x b]. unfold subst_lam, eval_lam. simpl in *.
  set (m := remove_key (var_id x) replacements).
  destruct (mem_string (var_id x) (range_fv m)) eqn:Hmem; simpl.
  - set (x' := fresh_id (range_fv m ++ fv b)).
    assert (Hx'm : ~ In x' (range_fv m)).
    { intros H. apply (@fresh_id_fresh (range_fv m ++ fv b)).
      apply in_or_app. left. exact H. }
    assert (Hx'b : ~ In x' (fv b)).
    { intros H. apply (@fresh_id_fresh (range_fv m ++ fv b)).
      apply in_or_app. right. exact H. }
    rewrite IH. apply eval_ext; [| split; reflexivity].
    intros y Hy. simpl.
    destruct (string_dec y (var_id x)) as [-> | Hne].
    + simpl. destruct (string_dec x' x'); congruence.
    + unfold m. rewrite lookup_remove_key.
      destruct (string_dec y (var_id x)); [congruence |].
      destruct (lookup y replacements) as [r |] eqn:Hl.
      * apply eval_ext; [| split; reflexivity]. intros z Hz. simpl.
        destruct (string_dec z x') as [-> |]; [| reflexivity].
        exfalso. apply Hx'm. apply lookup_range_fv with (y := y) (r := r); [| exact Hz].
        unfold m. rewrite lookup_remove_key.
        destruct (string_dec y (var_id x)); [congruence | exact Hl].
      * destruct (string_dec y x') as [-> |]; [| reflexivity].
        contradiction.
  - apply mem_string_false in Hmem.
    rewrite IH. apply eval_ext; [| split; reflexivity].
    intros y Hy. simpl. unfold m. rewrite lookup_remove_key.
    destruct (string_dec y (var_id x)) as [-> | Hne].
    + simpl. destruct (string_dec (var_id x) (var_id x)); congruence.
    + destruct (lookup y replacements) as [r |] eqn:Hl.
      * apply eval_ext; [| split; reflexivity]. intros z Hz. simpl.
        destruct (string_dec z (var_id x)) as [-> |]; [| reflexivity].
        exfalso. apply Hmem. apply lookup_range_fv with (y := y) (r := r); [| exact Hz].
        unfold m. rewrite lookup_remove_key.
        destruct (string_dec y (var_id x)); [congruence | exact Hl].
      * simpl. destruct (string_dec y (var_id x)); congruence.
Qed.

Lemma subst_EMap t a f m :
  subst (EMap t a f) m = EMap t (subst a m) (subst_lam f m).
Proof. destruct f; reflexivity. Qed.
Lemma subst_EFilter t a f m :
  subst (EFilter t a f) m = EFilter t (subst a m) (subst_lam f m).
Proof. destruct f; reflexivity. Qed.
Lemma subst_EFlatMap t a f m :
  subst (EFlatMap t a f) m = EFlatMap t (subst a m) (subst_lam f m).
Proof. destruct f; reflexivity. Qed.
Lemma subst_EArgMin t a f m :
  subst (EArgMin t a f) m = EArgMin t (subst a m) (subst_lam f m).
Proof. destruct f; reflexivity. Qed.
Lemma subst_EArgMax t a f m :
  subst (EArgMax t a f) m = EArgMax t (subst a m) (subst_lam f m).
Proof. destruct f; reflexivity. Qed.
Lemma subst_EMakeMap2 t a f m :
  subst (EMakeMap2 t a f) m = EMakeMap2 t (subst a m) (subst_lam f m).
Proof. destruct f; reflexivity. Qed.

(** The substitution lemma: the value of [subst e replacements] is the
    value of [e] where each replaced variable has the value of its
    replacement. *)
Lemma eval_subst :
  forall e replacements env,
    eval env (subst e replacements)
    = eval (env_subst env replacements) e.
Proof.
  intros e.
  induction e as
    [ t x | t b | t n | t o e IHe | t a o b IHa IHb | t c a b IHc IHa IHb
    | t f l IHl | t l IHl | t e f IHe | t e n IHe | t | t e IHe
    | t e f IHe IHf | t e f IHe IHf | t e f IHe IHf | t e f IHe IHf
    | t e f IHe IHf | t e IHe | t e f IHe IHf | t m k IHm IHk | t m IHm
    | f IHf ] using Exp_induction; intros m0 env;
    try (assert (Hb : forall v, eval_lam env (subst_lam f m0) v
                                = eval_lam (env_subst env m0) f v)
           by (intros v; apply eval_subst_lam; exact IHf);
         rewrite ?subst_EMap, ?subst_EFilter, ?subst_EFlatMap,
           ?subst_EArgMin, ?subst_EArgMax, ?subst_EMakeMap2,
           ?eval_EMap, ?eval_EFilter, ?eval_EFlatMap, ?eval_EArgMin,
           ?eval_EArgMax, ?eval_EMakeMap2, ?IHe).
  - simpl. destruct (lookup x m0); reflexivity.
  - reflexivity.
  - reflexivity.
  - simpl. rewrite IHe. reflexivity.
  - simpl. rewrite IHa, IHb. reflexivity.
  - simpl. rewrite IHc, IHa, IHb. reflexivity.
  - simpl. f_equal. rewrite map_map.
    induction IHl as [| a l Ha Hl IH]; simpl; [reflexivity |].
    rewrite Ha, IH. reflexivity.
  - simpl subst. rewrite !eval_EMakeRecord. f_equal. unfold eval_fields.
    induction IHl as [| [n a] l Ha Hl IH]; simpl; [reflexivity |].
    simpl in Ha. rewrite Ha, IH. reflexivity.
  - simpl. rewrite IHe. reflexivity.
  - simpl. rewrite IHe. reflexivity.
  - reflexivity.
  - simpl. rewrite IHe. reflexivity.
  - apply arg_best_ext. intros v. rewrite Hb. reflexivity.
  - apply arg_best_ext. intros v. rewrite Hb. reflexivity.
  - f_equal. apply map_ext. exact Hb.
  - f_equal. apply filter_ext. intros v. rewrite Hb. reflexivity.
  - f_equal. apply flat_map_ext. intros v. rewrite Hb. reflexivity.
  - simpl. apply IHe.
  - f_equal. apply map_ext. intros v. rewrite Hb. reflexivity.
  - simpl. rewrite IHm, IHk. reflexivity.
  - simpl. rewrite IHm. reflexivity.
  - destruct f; reflexivity.
Qed.

Lemma env_subst_single env x r :
  forall e,
    eval (env_subst env [(x, r)]) e = eval (upd env x (eval env r)) e.
Proof.
  intros e. apply eval_ext; [| split; reflexivity].
  intros y _. simpl. destruct (string_dec y x); reflexivity.
Qed.

(** [f.apply_to(a)] evaluates to the body of [f] at the value of [a]. *)
Lemma eval_apply_to env f a :
  eval env (apply_to f a) = eval_lam env f (eval env a).
Proof.
  unfold apply_to, eval_lam. rewrite eval_subst. apply env_subst_single.
Qed.

(** ** Stores and assignments *)

Lemma nodup_length_le (l : list string) :
  List.length (nodup string_dec l) <= List.length l.
Proof.
  induction l as [| a l IH]; simpl; [lia |].
  destruct (in_dec string_dec a l); simpl; lia.
Qed.

Lemma distinct_names_NoDup l : distinct_names l = true -> NoDup l.
Proof.
  unfold distinct_names. rewrite Nat.eqb_eq.
  induction l as [| a l IH]; simpl; intros H; [constructor |].
  destruct (in_dec string_dec a l) as [Hin | Hnin].
  - pose proof (nodup_length_le l). lia.
  - simpl in H. constructor; [assumption | apply IH; lia].
Qed.

Lemma lookup_NoDup {A} (fs : list (string * A)) q :
  NoDup (map fst fs) -> In q fs -> lookup (fst q) fs = Some (snd q).
Proof.
  induction fs as [| [g w] fs IH]; simpl; intros Hnd Hin; [contradiction |].
  inversion Hnd as [| ? ? Hnotin Hnd']; subst.
  destruct Hin as [<- | Hin].
  - simpl. destruct (string_dec g g); congruence.
  - destruct (string_dec (fst q) g) as [Heq | Hne].
    + exfalso. apply Hnotin. rewrite <- Heq. apply in_map. assumption.
    + apply IH; assumption.
Qed.

Lemma eval_replaced_fields env le f new_value fs0 :
  eval env le = VRecord fs0 ->
  forall fs (fts : list (string * Ty)),
    map fst fs = map fst fts ->
    (forall q, In q fs -> lookup (fst q) fs0 = Some (snd q)) ->
    eval_fields env
      (map (fun p => (fst p,
                      if String.eqb (fst p) f then new_value
                      else EGetField (snd p) le (fst p))) fts)
    = map (fun p => (fst p,
                     if String.eqb (fst p) f then eval env new_value
                     else snd p)) fs.
Proof.
  intros Hle. unfold eval_fields.
  induction fs as [| [g w] fs IH]; intros fts Heq Hall;
    destruct fts as [| [g' t'] fts]; simpl in *; try discriminate;
    [reflexivity |].
  injection Heq as Hg Hrest. subst g'. f_equal.
  - f_equal. destruct (String.eqb g f); [reflexivity |].
    simpl. rewrite Hle.
    pose proof (Hall (g, w) (or_introl eq_refl)) as Hq. simpl in Hq.
    rewrite Hq. reflexivity.
  - apply IH; [assumption |]. intros q Hq. apply Hall. right. assumption.
Qed.

Lemma eval_replace_field env le f new_value r fts fs :
  typ le = TRecord fts ->
  eval env le = VRecord fs ->
  names_eqb (map fst fs) (map fst fts) = true ->
  distinct_names (map fst fts) = true ->
  _replace_field le f new_value = Return r ->
  eval env r = VRecord (set_field f (eval env new_value) fs).
Proof.
  intros Hty Hle Hnames Hdist Hr.
  unfold _replace_field in Hr. rewrite Hty in Hr. inversion Hr; subst r.
  clear Hr. rewrite eval_EMakeRecord. f_equal.
  unfold names_eqb in Hnames.
  destruct (list_eq_dec string_dec (map fst fs) (map fst fts)) as [Heq |];
    [| discriminate].
  apply distinct_names_NoDup in Hdist. rewrite <- Heq in Hdist.
  unfold set_field.
  apply eval_replaced_fields with (fs0 := fs); try assumption.
  intros q. apply lookup_NoDup. assumption.
Qed.


(** The value of [e] after the assignment is the value of
    [_do_assignment lval new_value e] before it. *)
Lemma do_assignment_correct :
  forall lval new_value e e' env env',
    plain_lvalue lval = true ->
    _do_assignment lval new_value e = Return e' ->
    assign lval (eval env new_value) env = Some env' ->
    eval env e' = eval env' e.
Proof.
  induction lval; intros new_value e0 e' env env' Hp Hd Ha;
    simpl in Hd, Ha, Hp; try discriminate.
  - inversion Hd; subst e'. inversion Ha; subst env'.
    rewrite eval_subst. apply env_subst_single.
  - destruct (typ lval) eqn:Hty; try discriminate.
    destruct (eval env lval) eqn:Hle; try discriminate.
    destruct (names_eqb (map fst fs) (map fst fields)
              && distinct_names (map fst fields)) eqn:Hchk;
      [| discriminate].
    apply andb_true_iff in Hchk. destruct Hchk as [Hn Hdist].
    destruct (_replace_field lval f new_value) as [r | |] eqn:Hr;
      simpl in Hd; try discriminate.
    eapply IHlval; [exact Hp | exact Hd |].
    erewrite eval_replace_field; eauto.
Qed.

(** ** Mutation *)

Lemma bag_diff_single l x : bag_diff l [x] = remove1 x l.
Proof. reflexivity. Qed.

Lemma exec_flat_seq_assoc tail a b c env :
  exec_flat tail (SSeq (SSeq a b) c) env
  = exec_flat tail (SSeq a (SSeq b c)) env.
Proof.
  simpl. destruct (exec_flat false a env); reflexivity.
Qed.

Lemma exec_flat_seq_inv tail s1 s2 env env' :
  exec_flat tail (SSeq s1 s2) env = Some env' ->
  exists env1,
    exec_flat false s1 env = Some env1 /\ exec_flat tail s2 env1 = Some env'.
Proof.
  simpl. destruct (exec_flat false s1 env) as [env1 |]; [| discriminate].
  intros H. exists env1. split; [reflexivity | exact H].
Qed.

(** What [mutate] computes: the value of [e] after the statement is run
    without scopes. *)
Lemma mutate_flat :
  forall e op tail e' env env',
    plain_writes op = true ->
    tail = true \/ ends_in_decl op = false ->
    mutate e op = Return e' ->
    exec_flat tail op env = Some env' ->
    eval env e' = eval env' e.
Proof.
  intros e op.
  funelim (mutate e op); intros tail e' env env' Hp Ht Hm Hx;
    try discriminate Hm;
    try (match type of Hx with
         | exec_flat _ (SSeq (SSeq _ _) _) _ = _ => fail 1
         | exec_flat _ (SSeq (SDecl _ _) _) _ = _ => fail 1
         | exec_flat _ (SSeq _ _) _ = _ =>
             apply exec_flat_seq_inv in Hx; destruct Hx as [env1 [Hx1 Hx2]];
             match type of Hp with
             | plain_writes (SSeq ?a ?b) = true =>
                 change (plain_writes a && plain_writes b = true) in Hp
             end;
             apply andb_true_iff in Hp; destruct Hp as [Hp1 Hp2];
             match type of Hm with
             | bindR (mutate e ?s) _ = _ =>
                 destruct (mutate e s) as [e1 | |] eqn:Hm2; simpl in Hm;
                 try discriminate Hm
             end;
             transitivity (eval env1 e1);
             [ eapply H0;
               [ exact Hp1 | right; reflexivity | exact Hm | exact Hx1 ]
             | eapply H; [ exact Hp2 | exact Ht | reflexivity | exact Hx2 ] ]
         end).
  all: try (apply exec_flat_seq_inv in Hx; destruct Hx as [env1 [Hx1 Hx2]];
            discriminate Hx1).
  - inversion Hm; inversion Hx; subst; reflexivity.
  - rewrite exec_flat_seq_assoc in Hx.
    eapply H; [ | exact Ht | exact Hm | exact Hx ].
    simpl in Hp |- *. rewrite andb_assoc. exact Hp.
  - apply exec_flat_seq_inv in Hx. destruct Hx as [env1 [Hx1 Hx2]].
    destruct (mutate e s2) as [e1 | |] eqn:Hm2; simpl in Hm;
      try discriminate Hm.
    simp mutate in Hm. simpl in Hm. inversion Hm; subst e'.
    simpl in Hx1. inversion Hx1; subst env1.
    rewrite eval_subst, env_subst_single.
    eapply H; [ exact Hp | exact Ht | reflexivity | exact Hx2 ].
  - simpl in Hp. apply andb_true_iff in Hp. destruct Hp as [Hp1 Hp2].
    destruct (mutate e s1) as [e1 | |] eqn:Hm1; simpl in Hm;
      try discriminate Hm.
    destruct (mutate e s2) as [e2 | |] eqn:Hm2; simpl in Hm;
      try discriminate Hm.
    simpl in Hx.
    assert (Hthen : as_bool (eval env c) = true -> eval env e1 = eval env' e).
    { intros Hc. rewrite Hc in Hx.
      eapply H; [ exact Hp1 | left; reflexivity | reflexivity | exact Hx ]. }
    assert (Helse : as_bool (eval env c) = false -> eval env e2 = eval env' e).
    { intros Hc. rewrite Hc in Hx.
      eapply H0;
        [ exact e1 | exact Hp2 | left; reflexivity | reflexivity | exact Hx ]. }
    destruct (alpha_equivalent e1 e2) eqn:Ha; inversion Hm; subst e'.
    + destruct (as_bool (eval env c)) eqn:Hc.
      * apply Hthen. reflexivity.
      * rewrite (alpha_sound Ha env). apply Helse. reflexivity.
    + simpl. destruct (as_bool (eval env c)) eqn:Hc.
      * apply Hthen. reflexivity.
      * apply Helse. reflexivity.
  - simpl in Hx, Hp.
    eapply do_assignment_correct; [ exact Hp | exact Hm | exact Hx ].
  - destruct Ht as [-> | Ht]; [| discriminate Ht].
    inversion Hm; subst e'. simpl in Hx. inversion Hx; subst env'.
    reflexivity.
  - clear H0 Heqcall. apply String.eqb_eq in e1. subst func.
    eapply (H tail); [ exact Hp | right; reflexivity | exact Hm | ].
    simpl in Hx |- *.
    destruct (eval env target); try discriminate Hx. exact Hx.
  - clear H0 H1 Heqcall. apply String.eqb_eq in e1. subst func.
    eapply (H tail); [ exact Hp | right; reflexivity | exact Hm | ].
    simpl in Hx |- *.
    destruct (eval env target); try discriminate Hx. exact Hx.
  - clear H0 H1 H2 Heqcall. apply String.eqb_eq in e1. subst func.
    eapply (H tail); [ exact Hp | right; reflexivity | exact Hm | ].
    simpl in Hx |- *.
    destruct (eval env target); try discriminate Hx. exact Hx.
  - clear H0 H1 H2 H3 Heqcall. apply String.eqb_eq in e1. subst func.
    eapply (H tail); [ exact Hp | right; reflexivity | exact Hm | ].
    simpl in Hx |- *.
    destruct (eval env target); try discriminate Hx. exact Hx.
Qed.

(** ** Scopes *)

Lemma disjoint_names_spec l1 l2 x :
  disjoint_names l1 l2 = true -> In x l1 -> In x l2 -> False.
Proof.
  unfold disjoint_names. intros H H1 H2.
  rewrite forallb_forall in H. specialize (H x H1).
  apply negb_true_iff in H. apply mem_string_false in H. contradiction.
Qed.

(** Two environments that agree on the variables of an lvalue are stored
    into alike. *)
Lemma assign_agree :
  forall lval v envA envB envA1 (L : list string),
    (forall x, In x (fv lval) \/ In x L -> vars envA x = vars envB x) ->
    funcs envA = funcs envB /\ heap envA = heap envB ->
    assign lval v envA = Some envA1 ->
    exists envB1,
      assign lval v envB = Some envB1
      /\ (forall x, In x (fv lval) \/ In x L -> vars envA1 x = vars envB1 x)
      /\ funcs envA1 = funcs envB1 /\ heap envA1 = heap envB1.
Proof.
  induction lval; intros v envA envB envA1 L Hv Hf Ha; simpl in Ha;
    try discriminate Ha.
  - inversion Ha; subst envA1. eexists. split; [reflexivity |].
    split; [| exact Hf].
    intros y Hy. simpl. destruct (string_dec y _); [reflexivity |].
    apply Hv. exact Hy.
  - assert (He : eval envA lval = eval envB lval).
    { apply eval_ext; [| exact Hf]. intros y Hy. apply Hv. left. exact Hy. }
    simpl. rewrite <- He.
    destruct (typ lval) eqn:Hty; try discriminate Ha;
      destruct (eval envA lval) eqn:Hle; try discriminate Ha.
    + destruct (_ && _); [| discriminate Ha].
      inversion Ha; subst envA1. eexists. split; [reflexivity |].
      split; [exact Hv |]. simpl. destruct Hf as [Hf1 Hf2].
      split; [exact Hf1 |]. rewrite Hf2. reflexivity.
    + destruct (_ && _); [| discriminate Ha].
      eapply IHlval; eassumption.
Qed.

(** A block run with scopes and the same statement run without them, from
    environments that agree on the variables the statement and what
    follows it mention, end in environments that agree on what follows:
    the names that differ are those declared in the branches of
    conditionals, and a last declaration. *)
Lemma run_flat :
  forall op tail live envA envB envA1,
    scopes_ok live op = true ->
    (forall x, In x (reads op) \/ In x live -> vars envA x = vars envB x) ->
    funcs envA = funcs envB /\ heap envA = heap envB ->
    run op envA = Some envA1 ->
    exists envB1,
      exec_flat tail op envB = Some envB1
      /\ (forall x, In x live -> (tail = true -> ~ In x (declared op)) ->
                    vars envA1 x = vars envB1 x)
      /\ funcs envA1 = funcs envB1 /\ heap envA1 = heap envB1.
Proof.
  induction op as
    [ | a IHa b IHb | c a IHa b IHb | lhs rhs | id val | target func args
    | v iter body IHbody | m k | m k v change IHchange ];
    intros tail live envA envB envA1 Hs Hv Hf Hr.
  - (* no-op *)
    simpl in Hr. inversion Hr; subst envA1. exists envB.
    split; [reflexivity |]. split; [| exact Hf].
    intros x Hx _. apply Hv. right. exact Hx.
  - (* sequence *)
    simpl in Hs. apply andb_true_iff in Hs. destruct Hs as [Hsa Hsb].
    simpl in Hr. destruct (run a envA) as [envA_a |] eqn:Hra;
      [| discriminate Hr].
    destruct (IHa false (reads b ++ live) envA envB envA_a Hsa)
      as (envB_a & Hxa & Hva & Hfa); [ | exact Hf | exact Hra | ].
    { intros x [Hx | Hx]; apply Hv.
      - left. simpl. apply in_or_app. left. exact Hx.
      - apply in_app_or in Hx. destruct Hx as [Hx | Hx].
        + left. simpl. apply in_or_app. right. exact Hx.
        + right. exact Hx. }
    destruct (IHb tail live envA_a envB_a envA1 Hsb)
      as (envB1 & Hxb & Hvb & Hfb); [ | exact Hfa | exact Hr | ].
    { intros x Hx. apply Hva; [| discriminate].
      apply in_or_app. destruct Hx as [Hx | Hx]; [left | right]; exact Hx. }
    exists envB1. split; [simpl; rewrite Hxa; exact Hxb |].
    split; [| exact Hfb].
    intros x Hx Hd. apply Hvb; [exact Hx |].
    intros Ht Hin. apply (Hd Ht). simpl. apply in_or_app. right. exact Hin.
  - (* conditional *)
    simpl in Hs. apply andb_true_iff in Hs. destruct Hs as [Hs Hdis].
    apply andb_true_iff in Hs. destruct Hs as [Hsa Hsb].
    assert (Hc : eval envA c = eval envB c).
    { apply eval_ext; [| exact Hf]. intros x Hx. apply Hv. left. simpl.
      apply in_or_app. left. exact Hx. }
    simpl in Hr |- *. rewrite <- Hc.
    destruct (as_bool (eval envA c)).
    + destruct (run a envA) as [envA_a |] eqn:Hra; [| discriminate Hr].
      inversion Hr; subst envA1.
      destruct (IHa true live envA envB envA_a Hsa)
        as (envB1 & Hxa & Hva & Hfa); [ | exact Hf | exact Hra | ].
      { intros x [Hx | Hx]; apply Hv.
        - left. simpl. apply in_or_app. right. apply in_or_app. left.
          exact Hx.
        - right. exact Hx. }
      exists envB1. split; [exact Hxa |]. split; [| exact Hfa].
      intros x Hx _. simpl.
      destruct (mem_string x (declared a)) eqn:Hm.
      * exfalso. unfold mem_string in Hm.
        destruct (in_dec string_dec x (declared a)) as [Hin |];
          [| discriminate Hm].
        apply (@disjoint_names_spec _ _ x Hdis); [| exact Hx].
        apply in_or_app. left. exact Hin.
      * apply Hva; [exact Hx |]. intros _.
        apply mem_string_false. exact Hm.
    + destruct (run b envA) as [envA_b |] eqn:Hrb; [| discriminate Hr].
      inversion Hr; subst envA1.
      destruct (IHb true live envA envB envA_b Hsb)
        as (envB1 & Hxb & Hvb & Hfb); [ | exact Hf | exact Hrb | ].
      { intros x [Hx | Hx]; apply Hv.
        - left. simpl. apply in_or_app. right. apply in_or_app. right.
          exact Hx.
        - right. exact Hx. }
      exists envB1. split; [exact Hxb |]. split; [| exact Hfb].
      intros x Hx _. simpl.
      destruct (mem_string x (declared b)) eqn:Hm.
      * exfalso. unfold mem_string in Hm.
        destruct (in_dec string_dec x (declared b)) as [Hin |];
          [| discriminate Hm].
        apply (@disjoint_names_spec _ _ x Hdis); [| exact Hx].
        apply in_or_app. right. exact Hin.
      * apply Hvb; [exact Hx |]. intros _.
        apply mem_string_false. exact Hm.
  - (* assignment *)
    simpl in Hr |- *.
    assert (He : eval envA rhs = eval envB rhs).
    { apply eval_ext; [| exact Hf]. intros x Hx. apply Hv. left. simpl.
      apply in_or_app. right. exact Hx. }
    rewrite <- He.
    destruct (@assign_agree lhs (eval envA rhs) envA envB envA1 live)
      as (envB1 & Ha & Hva & Hfa); [ | exact Hf | exact Hr | ].
    { intros x [Hx | Hx]; apply Hv.
      - left. simpl. apply in_or_app. left. exact Hx.
      - right. exact Hx. }
    exists envB1. split; [exact Ha |]. split; [| exact Hfa].
    intros x Hx _. apply Hva. right. exact Hx.
  - (* declaration *)
    simpl in Hr |- *. inversion Hr; subst envA1.
    assert (He : eval envA val = eval envB val).
    { apply eval_ext; [| exact Hf]. intros x Hx. apply Hv. left. exact Hx. }
    eexists. split; [reflexivity |]. split.
    + intros x Hx Hd. destruct tail.
      * simpl. destruct (string_dec x id) as [-> |].
        -- exfalso. apply (Hd eq_refl). left. reflexivity.
        -- apply Hv. right. exact Hx.
      * simpl. rewrite He. destruct (string_dec x id); [reflexivity |].
        apply Hv. right. exact Hx.
    + destruct tail; exact Hf.
  - (* call *)
    simpl in Hr |- *.
    assert (Het : eval envA target = eval envB target).
    { apply eval_ext; [| exact Hf]. intros x Hx. apply Hv. left. simpl.
      apply in_or_app. left. exact Hx. }
    rewrite <- Het.
    destruct args as [| a args]; [discriminate Hr |].
    destruct (eval envA target) as [ | | l | | | | ]; try discriminate Hr.
    assert (Hea : eval envA a = eval envB a).
    { apply eval_ext; [| exact Hf]. intros x Hx. apply Hv. left. simpl.
      apply in_or_app. right. apply in_or_app. left. exact Hx. }
    rewrite <- Hea.
    destruct (call_value func l (eval envA a)) as [w |]; [| discriminate Hr].
    destruct (@assign_agree target w envA envB envA1 live)
      as (envB1 & Ha & Hva & Hfa); [ | exact Hf | exact Hr | ].
    { intros x [Hx | Hx]; apply Hv.
      - left. simpl. apply in_or_app. left. exact Hx.
      - right. exact Hx. }
    exists envB1. split; [exact Ha |]. split; [| exact Hfa].
    intros x Hx _. apply Hva. right. exact Hx.
  - discriminate Hr.
  - discriminate Hr.
  - discriminate Hr.
Qed.

(** Mutation is right for well-scoped statements that execute normally. *)
Lemma mutate_scoped :
  forall e op e' env env',
    plain_writes op = true ->
    well_scoped e op = true ->
    mutate e op = Return e' ->
    exec op env = Some env' ->
    eval env e' = eval env' e.
Proof.
  intros e op e' env env' Hp Hw Hm Hx.
  unfold well_scoped in Hw. apply andb_true_iff in Hw.
  destruct Hw as [Hdis Hs].
  unfold exec in Hx. destruct (run op env) as [env1 |] eqn:Hr;
    [| discriminate Hx].
  inversion Hx; subst env'. clear Hx.
  destruct (@run_flat op true (fv e) env env env1 Hs)
    as (envB1 & Hf & Hv & Hfh); [ reflexivity | split; reflexivity | exact Hr | ].
  rewrite (@mutate_flat e op true e' env envB1 Hp (or_introl eq_refl) Hm Hf).
  apply eval_ext.
  - intros x Hx. simpl.
    destruct (mem_string x (declared op)) eqn:Hmem.
    + exfalso. unfold mem_string in Hmem.
      destruct (in_dec string_dec x (declared op)) as [Hin |];
        [| discriminate Hmem].
      exact (@disjoint_names_spec _ _ x Hdis Hin Hx).
    + symmetry. apply Hv; [exact Hx |]. intros _.
      apply mem_string_false. exact Hmem.
  - simpl. destruct Hfh as [H1 H2]. split; symmetry; assumption.
Qed.
(** ** Branch resolution *)

Lemma resolve_forks_no_ForkOn :
  forall (fuel : nat) (assumptions : Exp) (func : Exp -> M Exp) (st : nat)
         c st',
    resolve_forks fuel assumptions func st <> (Raise (ForkOn c), st').
Proof.
  induction fuel as [| fuel IH]; intros assumptions func st c st' H.
  - simpl in H. destruct (func assumptions st) as [[v | x | ] st1];
      try discriminate.
    destruct x; discriminate.
  - simpl in H. destruct (func assumptions st) as [[v | x | ] st1];
      try discriminate.
    destruct x; try discriminate.
    unfold bind in H.
    destruct (resolve_forks fuel _ func st1) as [[v1 | x1 | ] st2] eqn:E1.
    + destruct (resolve_forks fuel _ func st2) as [[v2 | x2 | ] st3] eqn:E2.
      * unfold ret in H. discriminate.
      * inversion H; subst. eapply IH; eauto.
      * discriminate.
    + inversion H; subst. eapply IH; eauto.
    + discriminate.
Qed.

(** ** Three-valued answers *)

Lemma definitely_invert_possibly v :
  definitely (invert v) = negb (possibly v).
Proof. destruct v; reflexivity. Qed.

Lemma is_empty_not_No e : possibly (is_empty e) = true.
Proof.
  induction e using Exp_induction; simpl; try reflexivity; try assumption.
  destruct o; simpl; try reflexivity; assumption.
Qed.

Lemma is_empty_sound e :
  definitely (is_empty e) = true ->
  forall env, as_bag (eval env e) = [].
Proof.
  induction e using Exp_induction; simpl; try discriminate;
    intros H env.
  - destruct o; try discriminate H. simpl. rewrite (IHe H env). reflexivity.
  - reflexivity.
  - rewrite (IHe H env). reflexivity.
  - rewrite (IHe H env). reflexivity.
Qed.

Lemma is_singleton_sound e :
  definitely (is_singleton e) = true ->
  forall env, List.length (as_bag (eval env e)) = 1.
Proof.
  induction e using Exp_induction; simpl; try discriminate;
    intros H env.
  - destruct o; try discriminate H. simpl.
    specialize (IHe H env).
    destruct (as_bag (eval env e)) as [| x [| y l]]; try discriminate IHe.
    reflexivity.
  - reflexivity.
  - rewrite length_map. apply IHe. exact H.
Qed.

Lemma nodup_length_le1 (l : list Value) :
  List.length l <= 1 -> nodup Value_eq_dec l = l.
Proof.
  destruct l as [| x [| y l]]; simpl; intros H; try reflexivity; lia.
Qed.

Lemma both_definitely x y :
  definitely (both x y) = definitely x && definitely y.
Proof. destruct x, y; reflexivity. Qed.

Lemma filter_length_le {A} (p : A -> bool) l :
  List.length (filter p l) <= List.length l.
Proof.
  induction l as [| a l IH]; simpl; [lia |].
  destruct (p a); simpl; lia.
Qed.

Lemma singleton_or_empty_sound e :
  definitely (singleton_or_empty e) = true ->
  forall env, List.length (as_bag (eval env e)) <= 1.
Proof.
  induction e as
    [ t x | t b | t n | t o e IHe | t a o b IHa IHb | t c a b IHc IHa IHb
    | t f l IHl | t l IHl | t e f IHe | t e n IHe | t | t e IHe
    | t e f IHe IHf | t e f IHe IHf | t e f IHe IHf | t e f IHe IHf
    | t e f IHe IHf | t e IHe | t e f IHe IHf | t m k IHm IHk | t m IHm
    | f IHf ] using Exp_induction;
    simpl; try discriminate; intros H env.
  - destruct o; try discriminate H. simpl.
    specialize (IHe H env). rewrite nodup_length_le1; assumption.
  - destruct (definitely (singleton_or_empty a)) eqn:Ea;
      destruct (definitely (singleton_or_empty b)) eqn:Eb; simpl in H.
    + destruct (as_bool (eval env c)); [apply IHa | apply IHb]; reflexivity.
    + destruct (possibly (singleton_or_empty a) || possibly (singleton_or_empty b));
        discriminate H.
    + destruct (possibly (singleton_or_empty a) || possibly (singleton_or_empty b));
        discriminate H.
    + destruct (possibly (singleton_or_empty a) || possibly (singleton_or_empty b));
        discriminate H.
  - simpl. lia.
  - simpl. lia.
  - rewrite length_map. apply IHe. exact H.
  - etransitivity; [apply filter_length_le | apply IHe; exact H].
  - destruct f as [x b]. rewrite both_definitely in H.
    apply andb_true_iff in H. destruct H as [H1 H2].
    specialize (IHe H1 env). simpl in IHf.
    destruct (as_bag (eval env e)) as [| v [| w l]]; simpl in *; try lia.
    rewrite app_nil_r. apply IHf. exact H2.
  - apply IHe. exact H.
Qed.

Lemma edistinct_sound e env :
  as_bag (eval env (edistinct e))
  = nodup Value_eq_dec (as_bag (eval env e)).
Proof.
  unfold edistinct.
  destruct (definitely (singleton_or_empty e)) eqn:E.
  - symmetry. apply nodup_length_le1. apply singleton_or_empty_sound.
    exact E.
  - reflexivity.
Qed.

Lemma element_of_rec_not_definite n :
  forall x xs, definitely (element_of_rec n x xs) = false.
Proof.
  induction n as [| n IH]; intros x xs; [reflexivity |].
  assert (Hthe : forall x0,
             definitely
               match x0 with
               | EUnaryOp _ UThe a =>
                   both (subset_of_rec n a xs) (invert (is_empty a))
               | _ => MAYBE
               end = false).
  { intros x0. destruct x0; try reflexivity.
    match goal with o : UOp |- _ => destruct o end; try reflexivity.
    rewrite both_definitely, definitely_invert_possibly, is_empty_not_No.
    apply andb_false_r. }
  destruct xs; simpl; try apply Hthe; try reflexivity.
  apply IH.
Qed.

Lemma element_of_not_definite x xs : definitely (element_of x xs) = false.
Proof. apply element_of_rec_not_definite. Qed.

(** ** [fork] *)

Lemma fork_atomic_sound {A} context assumptions c (t e r : A) env :
  holds env assumptions ->
  fork_atomic context assumptions c t e = Return r ->
  r = if as_bool (eval env c) then t else e.
Proof.
  intros HA. unfold fork_atomic.
  destruct (solver_valid context (EImplies assumptions c)) eqn:E1.
  - intros H. inversion H; subst r.
    pose proof (solver_sound E1 env) as Hs.
    pose proof (proj1 (holds_EImplies _ _ _) Hs HA) as Hc.
    unfold holds in Hc. rewrite Hc. reflexivity.
  - destruct (solver_valid context (EImplies assumptions (ENot c))) eqn:E2.
    + intros H. inversion H; subst r.
      pose proof (solver_sound E2 env) as Hs.
      pose proof (proj1 (holds_EImplies _ _ _) Hs HA) as Hc.
      apply holds_ENot in Hc. rewrite Hc. reflexivity.
    + discriminate.
Qed.

Lemma fork_sound {A} context assumptions c env :
  holds env assumptions ->
  forall (t e r : A),
    fork context assumptions c t e = Return r ->
    r = if as_bool (eval env c) then t else e.
Proof.
  intros HA.
  induction c as
    [ t x | t b | t n | t o e IHe | t a o b IHa IHb | t c a b IHc IHa IHb
    | t f l IHl | t l IHl | t e f IHe | t e n IHe | t | t e IHe
    | t e f IHe IHf | t e f IHe IHf | t e f IHe IHf | t e f IHe IHf
    | t e f IHe IHf | t e IHe | t e f IHe IHf | t m k IHm IHk | t m IHm
    | f IHf ] using Exp_induction;
    intros th el r H;
    try (eapply fork_atomic_sound; [exact HA | exact H]).
  - destruct o;
      try (eapply fork_atomic_sound; [exact HA | exact H]).
    simpl in H. apply IHe in H. simpl.
    destruct (as_bool (eval env e)); exact H.
  - destruct o;
      try (eapply fork_atomic_sound; [exact HA | exact H]); simpl in H.
    + destruct (fork context assumptions b th el) as [inner | |] eqn:E;
        try discriminate H.
      simpl in H. apply IHb in E. apply IHa in H. simpl.
      destruct (as_bool (eval env a)), (as_bool (eval env b)); simpl;
        congruence.
    + destruct (fork context assumptions b th el) as [inner | |] eqn:E;
        try discriminate H.
      simpl in H. apply IHb in E. apply IHa in H. simpl.
      destruct (as_bool (eval env a)), (as_bool (eval env b)); simpl;
        congruence.
  - simpl in H.
    destruct (fork context assumptions a th el) as [on_then | |] eqn:E1;
      try discriminate H. simpl in H.
    destruct (fork context assumptions b th el) as [on_else | |] eqn:E2;
      try discriminate H. simpl in H.
    apply IHa in E1. apply IHb in E2. apply IHc in H. simpl.
    destruct (as_bool (eval env c)); congruence.
Qed.

(** ** Canonicalising bag helpers *)

Lemma bag_union_sound e1 e2 env :
  as_bag (eval env (bag_union e1 e2))
  = as_bag (eval env e1) ++ as_bag (eval env e2).
Proof.
  unfold bag_union.
  destruct e1; try reflexivity;
    destruct e2; try reflexivity;
    try (simpl; rewrite app_nil_r; reflexivity);
    apply as_bag_add.
Qed.

Arguments element_of : simpl never.
Arguments equal : simpl never.

Lemma equal_plain a b :
  is_EMakeRecord a && is_EMakeRecord b = false ->
  equal a b = Return (EEq a b).
Proof.
  intros H. unfold equal.
  destruct a; try reflexivity.
  - destruct b; try reflexivity. discriminate H.
  - destruct f. reflexivity.
Qed.

Lemma count_filter (p : Value -> bool) x l :
  count x (filter p l) = if p x then count x l else 0.
Proof.
  induction l as [| y l IH]; simpl.
  - rewrite count_nil. destruct (p x); reflexivity.
  - destruct (p y) eqn:Ey.
    + rewrite !count_cons, IH.
      destruct (Value_eq_dec y x) as [-> |].
      * rewrite Ey. reflexivity.
      * destruct (p x); reflexivity.
    + rewrite count_cons, IH.
      destruct (Value_eq_dec y x) as [-> |].
      * rewrite Ey. reflexivity.
      * destruct (p x); reflexivity.
Qed.

Lemma count_singleton x y :
  0 < count x [y] <-> y = x.
Proof.
  rewrite count_cons, count_nil.
  destruct (Value_eq_dec y x); split; intros; try lia; congruence.
Qed.

(** [bag_contains bag x] is a formula for "[x] is an element of [bag]". *)
Lemma bag_contains_sound bag :
  forall x c env,
    plain_bag bag = true ->
    bag_contains bag x = Return c ->
    (holds env c <-> 0 < count (eval env x) (as_bag (eval env bag))).
Proof.
  induction bag as
    [ t y | t b | t n | t o e IHe | t a o b IHa IHb | t c0 a b IHc IHa IHb
    | t f l IHl | t l IHl | t e f IHe | t e n IHe | t | t e IHe
    | t e f IHe IHf | t e f IHe IHf | t e f IHe IHf | t e f IHe IHf
    | t e f IHe IHf | t e IHe | t e f IHe IHf | t m k IHm IHk | t m IHm
    | f IHf ] using Exp_induction;
    intros x c env Hp H; simpl in H;
    rewrite element_of_not_definite in H;
    try (inversion H; subst c; apply holds_EIn).
  - (* singleton *)
    simpl in Hp. rewrite equal_plain in H.
    + inversion H; subst c. rewrite holds_EEq. simpl.
      rewrite count_singleton. reflexivity.
    + apply negb_true_iff in Hp. rewrite Hp. reflexivity.
  - (* filter *)
    simpl in Hp.
    destruct (bag_contains e x) as [c0 | |] eqn:E; try discriminate H.
    simpl in H. inversion H; subst c.
    rewrite holds_and, (IHe x c0 env Hp E).
    simpl. rewrite count_filter.
    unfold holds. rewrite eval_apply_to. unfold eval_lam.
    destruct f as [v b]. simpl.
    destruct (as_bool (eval (upd env (var_id v) (eval env x)) b));
      split; intros; try lia; intuition congruence.
Qed.

(** *** [bag_subtract] *)

(** The cases of [bag_subtract], in the order of the source. *)
Lemma bag_subtract_rec_eq context assumptions e2 e1 :
  bag_subtract_rec context assumptions e2 e1 =
  if is_EEmptyList e1 then Return e1
  else if is_EEmptyList e2 then Return e1
  else if alpha_equivalent e1 e2 then Return (EEmptyList (typ e1))
  else
    match as_ECond e2 with
    | Some (c, t, e0) =>
        a <- bag_subtract_rec context assumptions t e1 ;;
        b <- bag_subtract_rec context assumptions e0 e1 ;;
        r <- fork context assumptions c a b ;;
        Return (with_type r (typ e1))
    | None =>
        match as_ECond e1 with
        | Some (c, t, e0) =>
            a <- bag_subtract_rec context assumptions e2 t ;;
            b <- bag_subtract_rec context assumptions e2 e0 ;;
            r <- fork context assumptions c a b ;;
            Return (with_type r (typ e1))
        | None =>
            match as_BAdd e2 with
            | Some (e21, e22) =>
                r <- bag_subtract_rec context assumptions e21 e1 ;;
                bag_subtract_rec context assumptions e22 r
            | None => bag_subtract_tail context assumptions e1 e2
            end
        end
    end.
Proof.
  destruct e2; try (match goal with o : BOp |- _ => destruct o end);
    destruct e1; reflexivity.
Qed.

Lemma as_ECond_Some e c t e0 :
  as_ECond e = Some (c, t, e0) -> exists ty, e = ECond ty c t e0.
Proof.
  destruct e; try discriminate. simpl. intros H. inversion H; subst.
  eexists. reflexivity.
Qed.

Lemma as_BAdd_Some e a b :
  as_BAdd e = Some (a, b) -> exists ty, e = EBinOp ty a BAdd b.
Proof.
  destruct e; try discriminate. simpl.
  match goal with o : BOp |- _ => destruct o end; try discriminate.
  intros H. inversion H; subst. eexists. reflexivity.
Qed.

Lemma as_BSub_Some e a b :
  as_BSub e = Some (a, b) -> exists ty, e = EBinOp ty a BSub b.
Proof.
  destruct e; try discriminate. simpl.
  match goal with o : BOp |- _ => destruct o end; try discriminate.
  intros H. inversion H; subst. eexists. reflexivity.
Qed.

Lemma as_ESingleton_Some e a :
  as_ESingleton e = Some a -> exists ty, e = ESingleton ty a.
Proof.
  destruct e; try discriminate. simpl. intros H. inversion H; subst.
  eexists. reflexivity.
Qed.

Lemma is_EEmptyList_eval e env :
  is_EEmptyList e = true -> eval env e = VBag [].
Proof. destruct e; try discriminate. reflexivity. Qed.

Lemma plain_bag_with_type e t : plain_bag (with_type e t) = plain_bag e.
Proof. destruct e; reflexivity. Qed.

Lemma fork_either {A} context assumptions c :
  forall (t e r : A),
    fork context assumptions c t e = Return r -> r = t \/ r = e.
Proof.
  assert (Hatomic : forall c0 (t e r : A),
             fork_atomic context assumptions c0 t e = Return r ->
             r = t \/ r = e).
  { intros c0 t e r. unfold fork_atomic.
    destruct (solver_valid context (EImplies assumptions c0)).
    - intros H. inversion H. left. reflexivity.
    - destruct (solver_valid context (EImplies assumptions (ENot c0)));
        [| discriminate].
      intros H. inversion H. right. reflexivity. }
  induction c as
    [ t x | t b | t n | t o e IHe | t a o b IHa IHb | t c a b IHc IHa IHb
    | t f l IHl | t l IHl | t e f IHe | t e n IHe | t | t e IHe
    | t e f IHe IHf | t e f IHe IHf | t e f IHe IHf | t e f IHe IHf
    | t e f IHe IHf | t e IHe | t e f IHe IHf | t m k IHm IHk | t m IHm
    | f IHf ] using Exp_induction;
    intros th el r H; try (apply (Hatomic _ _ _ _ H)).
  - destruct o; try (apply (Hatomic _ _ _ _ H)).
    simpl in H. apply IHe in H. tauto.
  - destruct o; try (apply (Hatomic _ _ _ _ H)); simpl in H;
      (destruct (fork context assumptions b th el) as [inner | |] eqn:E;
       [| discriminate H | discriminate H]);
      simpl in H; apply IHb in E; apply IHa in H;
      destruct E, H; subst; tauto.
  - simpl in H.
    destruct (fork context assumptions a th el) as [on_then | |] eqn:E1;
      try discriminate H. simpl in H.
    destruct (fork context assumptions b th el) as [on_else | |] eqn:E2;
      try discriminate H. simpl in H.
    apply IHa in E1. apply IHb in E2. apply IHc in H.
    destruct E1, E2, H; subst; tauto.
Qed.

Lemma bag_subtract_default_sound env e1 e2 :
  denotes_difference env (EBinOp (typ e1) e1 BSub e2) e1 e2.
Proof.
  intros v. rewrite as_bag_sub, count_bag_diff. reflexivity.
Qed.

Lemma bag_subtract_tail_sound context assumptions e1 e2 r :
  plain_bag e1 = true -> plain_bag e2 = true ->
  bag_subtract_tail context assumptions e1 e2 = Return r ->
  plain_bag r = true
  /\ forall env, holds env assumptions -> denotes_difference env r e1 e2.
Proof.
  intros Hp1 Hp2 H.
  assert (Hdefault :
            r = EBinOp (typ e1) e1 BSub e2 ->
            plain_bag r = true
            /\ forall env, holds env assumptions ->
                           denotes_difference env r e1 e2).
  { intros ->. split.
    - simpl. rewrite Hp1, Hp2. reflexivity.
    - intros env _. apply bag_subtract_default_sound. }
  unfold bag_subtract_tail in H.
  destruct (match e1 with
            | EBinOp _ e11 BSub _ => alpha_equivalent e11 e2
            | _ => false
            end) eqn:E1.
  - (* (e11 - e12) - e11 *)
    inversion H; subst r. split; [reflexivity |].
    intros env _ v.
    destruct e1; try discriminate E1.
    match goal with o : BOp |- _ => destruct o end; try discriminate E1.
    rewrite as_bag_sub, count_bag_diff, (alpha_sound E1 env).
    simpl. rewrite count_nil. lia.
  - clear E1.
    destruct e2 as
      [ t y | t b | t n | t o e | t a o b | t c0 a b
      | t f l | t l | t e f | t e n | t | t e
      | t e f | t e f | t e f | t e f
      | t e f | t e | t e f | t m k | t m
      | f ];
      try (inversion H; subst r; apply Hdefault; reflexivity).
    + (* e2 = a - b *)
      destruct o; try (inversion H; subst r; apply Hdefault; reflexivity).
      destruct (alpha_equivalent a e1) eqn:Ea;
        [| inversion H; subst r; apply Hdefault; reflexivity].
      destruct (as_ESingleton b) as [x |] eqn:Eb;
        [| inversion H; subst r; apply Hdefault; reflexivity].
      apply as_ESingleton_Some in Eb. destruct Eb as [ty ->].
      destruct (bag_contains e1 x) as [c | |] eqn:Ec; try discriminate H.
      simpl in H. simpl in Hp2. apply andb_true_iff in Hp2.
      destruct Hp2 as [Hpa Hpb].
      pose proof (fork_either _ _ _ _ _ H) as Hr.
      split.
      * destruct Hr as [-> | ->]; [| reflexivity].
        simpl. simpl in Hpb. exact Hpb.
      * intros env HA v.
        rewrite (fork_sound _ _ HA _ _ H).
        pose proof (bag_contains_sound e1 x env Hp1 Ec) as Hc.
        rewrite as_bag_sub, count_bag_diff, (alpha_sound Ea env).
        simpl (as_bag (eval env (ESingleton ty x))).
        rewrite count_cons, count_nil.
        destruct (as_bool (eval env c)) eqn:Eholds.
        -- assert (Hin : 0 < count (eval env x) (as_bag (eval env e1)))
             by (apply Hc; exact Eholds).
           simpl. rewrite count_cons, count_nil.
           destruct (Value_eq_dec (eval env x) v) as [<- |]; lia.
        -- assert (Hin : ~ 0 < count (eval env x) (as_bag (eval env e1))).
           { intros Hin. apply Hc in Hin. unfold holds in Hin. congruence. }
           simpl. rewrite count_nil.
           destruct (Value_eq_dec (eval env x) v) as [<- |]; lia.
    + (* e2 = {y} *)
      destruct (as_ESingleton e1) as [x |] eqn:Ex;
        [| inversion H; subst r; apply Hdefault; reflexivity].
      apply as_ESingleton_Some in Ex. destruct Ex as [ty ->].
      simpl in Hp1. rewrite equal_plain in H
        by (apply negb_true_iff in Hp1; rewrite Hp1; reflexivity).
      unfold bindR in H.
      pose proof (fork_either _ _ _ _ _ H) as Hr.
      split.
      * destruct Hr as [-> | ->]; [reflexivity |]. simpl. exact Hp1.
      * intros env HA v.
        rewrite (fork_sound _ _ HA _ _ H).
        simpl (eval env (EEq x e)).
        simpl (as_bag (eval env (ESingleton ty x))).
        simpl (as_bag (eval env (ESingleton t e))).
        rewrite !count_cons, !count_nil. simpl as_bool.
        unfold Value_eqb.
        destruct (Value_eq_dec (eval env x) (eval env e)) as [Heq | Hne].
        -- simpl. rewrite count_nil, Heq.
           destruct (Value_eq_dec (eval env e) v); lia.
        -- simpl. rewrite count_cons, count_nil.
           destruct (Value_eq_dec (eval env x) v) as [<- |];
             destruct (Value_eq_dec (eval env e) (eval env x)); try lia.
           congruence.
Qed.

Lemma bag_subtract_rec_sound context assumptions :
  forall n2 e2, size e2 < n2 ->
  forall n1 e1, size e1 < n1 ->
  forall r,
    plain_bag e1 = true -> plain_bag e2 = true ->
    bag_subtract_rec context assumptions e2 e1 = Return r ->
    plain_bag r = true
    /\ forall env, holds env assumptions -> denotes_difference env r e1 e2.
Proof.
  induction n2 as [| n2 IH2]; intros e2 Hs2; [lia |].
  induction n1 as [| n1 IH1]; intros e1 Hs1 r Hp1 Hp2 H; [lia |].
  rewrite bag_subtract_rec_eq in H.
  destruct (is_EEmptyList e1) eqn:Ee1.
  { inversion H; subst r. split; [exact Hp1 |].
    intros env _ v. rewrite (is_EEmptyList_eval _ env Ee1).
    simpl. rewrite count_nil. reflexivity. }
  destruct (is_EEmptyList e2) eqn:Ee2.
  { inversion H; subst r. split; [exact Hp1 |].
    intros env _ v. rewrite (is_EEmptyList_eval _ env Ee2).
    simpl. rewrite count_nil. lia. }
  destruct (alpha_equivalent e1 e2) eqn:Ea.
  { inversion H; subst r. split; [reflexivity |].
    intros env _ v. rewrite (alpha_sound Ea env). simpl.
    rewrite count_nil. lia. }
  destruct (as_ECond e2) as [[[c t] e0] |] eqn:Ec2.
  { apply as_ECond_Some in Ec2. destruct Ec2 as [ty ->].
    simpl in Hs2, Hp2. apply andb_true_iff in Hp2. destruct Hp2 as [Hpt Hpe].
    destruct (bag_subtract_rec context assumptions t e1) as [a | |] eqn:Et;
      try discriminate H.
    destruct (bag_subtract_rec context assumptions e0 e1) as [b | |] eqn:Ee;
      try discriminate H.
    unfold bindR in H.
    destruct (fork context assumptions c a b) as [r0 | |] eqn:Ef;
      try discriminate H.
    inversion H; subst r.
    destruct (IH2 t ltac:(lia) (S (size e1)) e1 ltac:(lia) a Hp1 Hpt Et)
      as [Hpa Ha].
    destruct (IH2 e0 ltac:(lia) (S (size e1)) e1 ltac:(lia) b Hp1 Hpe Ee)
      as [Hpb Hb].
    split.
    - rewrite plain_bag_with_type.
      destruct (fork_either _ _ _ _ _ Ef) as [-> | ->]; assumption.
    - intros env HA v. rewrite eval_with_type.
      rewrite (fork_sound _ _ HA _ _ Ef). simpl.
      destruct (as_bool (eval env c)); [apply Ha | apply Hb]; exact HA. }
  destruct (as_ECond e1) as [[[c t] e0] |] eqn:Ec1.
  { apply as_ECond_Some in Ec1. destruct Ec1 as [ty ->].
    simpl in Hs1, Hp1. apply andb_true_iff in Hp1. destruct Hp1 as [Hpt Hpe].
    destruct (bag_subtract_rec context assumptions e2 t) as [a | |] eqn:Et;
      try discriminate H.
    destruct (bag_subtract_rec context assumptions e2 e0) as [b | |] eqn:Ee;
      try discriminate H.
    unfold bindR in H.
    destruct (fork context assumptions c a b) as [r0 | |] eqn:Ef;
      try discriminate H.
    inversion H; subst r.
    destruct (IH1 t ltac:(lia) a Hpt Hp2 Et) as [Hpa Ha].
    destruct (IH1 e0 ltac:(lia) b Hpe Hp2 Ee) as [Hpb Hb].
    split.
    - rewrite plain_bag_with_type.
      destruct (fork_either _ _ _ _ _ Ef) as [-> | ->]; assumption.
    - intros env HA v. rewrite eval_with_type.
      rewrite (fork_sound _ _ HA _ _ Ef). simpl.
      destruct (as_bool (eval env c)); [apply Ha | apply Hb]; exact HA. }
  destruct (as_BAdd e2) as [[e21 e22] |] eqn:Eadd.
  { apply as_BAdd_Some in Eadd. destruct Eadd as [ty ->].
    simpl in Hs2, Hp2. apply andb_true_iff in Hp2. destruct Hp2 as [Hp21 Hp22].
    destruct (bag_subtract_rec context assumptions e21 e1) as [r1 | |] eqn:E1;
      try discriminate H.
    unfold bindR in H.
    destruct (IH2 e21 ltac:(lia) (S (size e1)) e1 ltac:(lia) r1 Hp1 Hp21 E1)
      as [Hpr1 Hr1].
    destruct (IH2 e22 ltac:(lia) (S (size r1)) r1 ltac:(lia) r Hpr1 Hp22 H)
      as [Hpr Hr].
    split; [exact Hpr |].
    intros env HA v. rewrite (Hr env HA v), (Hr1 env HA v).
    rewrite as_bag_add, count_app. lia. }
  eapply bag_subtract_tail_sound; eassumption.
Qed.

(** [bag_subtract e1 e2] denotes the bag difference of [e1] and [e2]. *)
Lemma bag_subtract_sound context assumptions e1 e2 r :
  plain_bag e1 = true -> plain_bag e2 = true ->
  bag_subtract context assumptions e1 e2 = Return r ->
  plain_bag r = true
  /\ forall env, holds env assumptions -> denotes_difference env r e1 e2.
Proof.
  intros Hp1 Hp2 H.
  eapply bag_subtract_rec_sound with (n2 := S (size e2)) (n1 := S (size e1));
    [lia | lia | exact Hp1 | exact Hp2 | exact H].
Qed.

(** *** [bag_intersection] *)
(** [EIntersect xs ys] holds at least the common occurrences of [xs] and
    [ys]: it may be the bag intersection, or the elements of [xs] that
    occur in [ys]. *)
Hypothesis EIntersect_covers :
  forall env xs ys, covers_intersection env (EIntersect xs ys) xs ys.

(** The cases of [bag_intersection], in the order of the source. *)
Lemma bag_intersection_eq context assumptions e1 e2 :
  bag_intersection context assumptions e1 e2 =
  if is_EEmptyList e1 then Return e1
  else if is_EEmptyList e2 then Return e2
  else
    match as_ECond e1 with
    | Some (c, t, e0) =>
        a <- bag_intersection context assumptions t e2 ;;
        b <- bag_intersection context assumptions e0 e2 ;;
        fork context assumptions c a b
    | None =>
        match as_ECond e2 with
        | Some (c, t, e0) =>
            a <- bag_intersection context assumptions e1 t ;;
            b <- bag_intersection context assumptions e1 e0 ;;
            fork context assumptions c a b
        | None =>
            match as_ESingleton e1, as_ESingleton e2 with
            | Some x, Some y =>
                c <- equal x y ;;
                fork context assumptions c e1 (EEmptyList (typ e1))
            | _, _ => Return (EIntersect e1 e2)
            end
        end
    end.
Proof.
  destruct e1; destruct e2; reflexivity.
Qed.

Lemma bag_intersection_rec_covers context assumptions :
  forall n1 e1, size e1 < n1 ->
  forall n2 e2, size e2 < n2 ->
  forall r,
    plain_bag e1 = true ->
    bag_intersection context assumptions e1 e2 = Return r ->
    forall env, holds env assumptions -> covers_intersection env r e1 e2.
Proof.
  induction n1 as [| n1 IH1]; intros e1 Hs1; [lia |].
  induction n2 as [| n2 IH2]; intros e2 Hs2 r Hp1 H; [lia |].
  rewrite bag_intersection_eq in H.
  destruct (is_EEmptyList e1) eqn:Ee1.
  { inversion H; subst r. intros env _ v.
    rewrite (is_EEmptyList_eval _ env Ee1). simpl. rewrite count_nil.
    lia. }
  destruct (is_EEmptyList e2) eqn:Ee2.
  { inversion H; subst r. intros env _ v.
    rewrite (is_EEmptyList_eval _ env Ee2). simpl. rewrite count_nil.
    lia. }
  destruct (as_ECond e1) as [[[c t] e0] |] eqn:Ec1.
  { apply as_ECond_Some in Ec1. destruct Ec1 as [ty ->].
    simpl in Hs1, Hp1. apply andb_true_iff in Hp1. destruct Hp1 as [Hpt Hpe].
    destruct (bag_intersection context assumptions t e2) as [a | |] eqn:Et;
      try discriminate H.
    destruct (bag_intersection context assumptions e0 e2) as [b | |] eqn:Ee;
      try discriminate H.
    unfold bindR in H.
    intros env HA v. rewrite (fork_sound _ _ HA _ _ H). simpl.
    destruct (as_bool (eval env c)).
    - apply (IH1 t ltac:(lia) (S (size e2)) e2 ltac:(lia) a Hpt Et env HA).
    - apply (IH1 e0 ltac:(lia) (S (size e2)) e2 ltac:(lia) b Hpe Ee env HA). }
  destruct (as_ECond e2) as [[[c t] e0] |] eqn:Ec2.
  { apply as_ECond_Some in Ec2. destruct Ec2 as [ty ->].
    simpl in Hs2.
    destruct (bag_intersection context assumptions e1 t) as [a | |] eqn:Et;
      try discriminate H.
    destruct (bag_intersection context assumptions e1 e0) as [b | |] eqn:Ee;
      try discriminate H.
    unfold bindR in H.
    intros env HA v. rewrite (fork_sound _ _ HA _ _ H). simpl.
    destruct (as_bool (eval env c)).
    - apply (IH2 t ltac:(lia) a Hp1 Et env HA).
    - apply (IH2 e0 ltac:(lia) b Hp1 Ee env HA). }
  destruct (as_ESingleton e1) as [x |] eqn:Ex;
    [| inversion H; subst r; intros env _; apply EIntersect_covers].
  destruct (as_ESingleton e2) as [y |] eqn:Ey;
    [| inversion H; subst r; intros env _; apply EIntersect_covers].
  apply as_ESingleton_Some in Ex. destruct Ex as [tx ->].
  apply as_ESingleton_Some in Ey. destruct Ey as [ty ->].
  simpl in Hp1. rewrite equal_plain in H
    by (apply negb_true_iff in Hp1; rewrite Hp1; reflexivity).
  unfold bindR in H.
  intros env HA v. rewrite (fork_sound _ _ HA _ _ H).
  simpl (eval env (EEq x y)). simpl as_bool.
  simpl (as_bag (eval env (ESingleton tx x))).
  simpl (as_bag (eval env (ESingleton ty y))).
  unfold Value_eqb.
  destruct (Value_eq_dec (eval env x) (eval env y)) as [Heq | Hne].
  - simpl. rewrite Heq. lia.
  - simpl. rewrite !count_cons, !count_nil.
    destruct (Value_eq_dec (eval env x) v) as [<- |];
      destruct (Value_eq_dec (eval env y) (eval env x)); try lia.
    congruence.
Qed.

(** [bag_intersection e1 e2] holds at least the common occurrences of
    [e1] and [e2]. *)
Lemma bag_intersection_covers context assumptions e1 e2 r :
  plain_bag e1 = true ->
  bag_intersection context assumptions e1 e2 = Return r ->
  forall env, holds env assumptions -> covers_intersection env r e1 e2.
Proof.
  intros Hp1 H.
  eapply bag_intersection_rec_covers
    with (n1 := S (size e1)) (n2 := S (size e2));
    [lia | lia | exact Hp1 | exact H].
Qed.

(** Subtracting the common part from both leaves disjoint bags. *)
Lemma canonical_delta_disjoint context assumptions added removed i n' d' :
  plain_bag added = true -> plain_bag removed = true ->
  plain_bag i = true ->
  bag_intersection context assumptions removed added = Return i ->
  bag_subtract context assumptions added i = Return n' ->
  bag_subtract context assumptions removed i = Return d' ->
  forall env, holds env assumptions -> disjoint_bags env n' d'.
Proof.
  intros Hpa Hpr Hpi Hi Hn Hd env HA v.
  destruct (@bag_subtract_sound _ _ _ _ _ Hpa Hpi Hn) as [_ Hn'].
  destruct (@bag_subtract_sound _ _ _ _ _ Hpr Hpi Hd) as [_ Hd'].
  rewrite (Hn' env HA v), (Hd' env HA v).
  pose proof (@bag_intersection_covers _ _ _ _ _ Hpr Hi env HA v) as Hc.
  lia.
Qed.

(** ** The state monad *)

Lemma bind_Return_inv {A B} (m : M A) (k : A -> M B) st r st' :
  bind m k st = (Return r, st') ->
  exists v st1, m st = (Return v, st1) /\ k v st1 = (Return r, st').
Proof.
  unfold bind. destruct (m st) as [[v | x |] st1]; intros H;
    try discriminate H.
  exists v, st1. split; [reflexivity | exact H].
Qed.

Lemma lift_Return_inv {A} (m : res A) st r st' :
  lift m st = (Return r, st') -> m = Return r /\ st' = st.
Proof.
  unfold lift. intros H. inversion H. split; reflexivity.
Qed.

Lemma delta_flatmap_canonical_aux :
  forall fuel e context s assumptions st n' d' st',
    is_flat_map e = true ->
    bag_delta (S fuel) e context s assumptions st
    = (Return (n', d'), st') ->
    exists added removed i,
      bag_intersection context assumptions removed added = Return i
      /\ bag_subtract context assumptions added i = Return n'
      /\ bag_subtract context assumptions removed i = Return d'.
Proof.
  intros fuel e context s assumptions st n' d' st' He H.
  destruct e; try discriminate He; simpl in H;
    apply bind_Return_inv in H;
    destruct H as ([added removed] & st1 & Hin & Hout);
    (destruct (100 <? size removed); [discriminate Hout |]);
    inversion Hout; subst; clear Hout;
    repeat (apply bind_Return_inv in Hin;
            let v := fresh "v" in
            let s := fresh "st" in
            let Hs := fresh "Hs" in
            destruct Hin as (v & s & Hs & Hin);
            try (apply lift_Return_inv in Hs; destruct Hs as [Hs ?]; subst);
            try match type of v with
                | (_ * _)%type => destruct v
                end);
    inversion Hin; subst;
    do 3 eexists; repeat split; eassumption.
Qed.

Lemma delta_of_variable_sound_aux :
  forall fuel t x context s assumptions st added removed st' new_e,
    mutate (EVar t x) s = Return new_e ->
    plain_bag new_e = true ->
    checked_bag_delta (S (S fuel)) (EVar t x) context s assumptions st
    = (Return (added, removed), st') ->
    forall env, holds env assumptions ->
      bag_eq
        (bag_diff (as_bag (eval env (EVar t x))) (as_bag (eval env removed))
         ++ as_bag (eval env added))
        (as_bag (eval env new_e)).
Proof.
  intros fuel t x context s assumptions st added removed st' new_e
         Hm Hp H env HA.
  cbn [checked_bag_delta bag_delta] in H.
  apply bind_Return_inv in H.
  destruct H as ([a0 r0] & st1 & H & Hout).
  inversion Hout; subst a0 r0 st1; clear Hout.
  apply bind_Return_inv in H.
  destruct H as ([a0 r0] & st1 & H & Hout).
  destruct (100 <? size r0); [discriminate Hout |].
  inversion Hout; subst a0 r0 st1; clear Hout.
  apply bind_Return_inv in H.
  destruct H as (new_e' & st1 & Hl & H).
  apply lift_Return_inv in Hl. destruct Hl as [Hl ->].
  rewrite Hm in Hl. inversion Hl; subst new_e'; clear Hl.
  assert (Hsub :
            (a <-- lift (bag_subtract context assumptions new_e (EVar t x)) ;;
             d <-- lift (bag_subtract context assumptions (EVar t x) new_e) ;;
             ret (a, d)) st = (Return (added, removed), st') ->
            bag_eq
              (bag_diff (as_bag (eval env (EVar t x)))
                        (as_bag (eval env removed))
               ++ as_bag (eval env added))
              (as_bag (eval env new_e))).
  { clear H. intros H.
    apply bind_Return_inv in H. destruct H as (a & st1 & Ha & H).
    apply lift_Return_inv in Ha. destruct Ha as [Ha ->].
    apply bind_Return_inv in H. destruct H as (d & st1 & Hd & H).
    apply lift_Return_inv in Hd. destruct Hd as [Hd ->].
    inversion H; subst a d st'; clear H.
    assert (Hpv : plain_bag (EVar t x) = true) by reflexivity.
    destruct (@bag_subtract_sound _ _ _ _ _ Hp Hpv Ha) as [_ Ha'].
    destruct (@bag_subtract_sound _ _ _ _ _ Hpv Hp Hd) as [_ Hd'].
    intros v. rewrite count_app, count_bag_diff.
    rewrite (Ha' env HA v), (Hd' env HA v). lia. }
  assert (Hadd :
            forall ty e1 e2,
              new_e = EBinOp ty e1 BAdd e2 ->
              (if alpha_equivalent e1 (EVar t x)
               then ret (e2, EEmptyList (typ (EVar t x)))
               else
                 a <-- lift (bag_subtract context assumptions new_e
                               (EVar t x)) ;;
                 d <-- lift (bag_subtract context assumptions (EVar t x)
                               new_e) ;;
                 ret (a, d)) st = (Return (added, removed), st') ->
              bag_eq
                (bag_diff (as_bag (eval env (EVar t x)))
                          (as_bag (eval env removed))
                 ++ as_bag (eval env added))
                (as_bag (eval env new_e))).
  { intros ty e1 e2 Hne H1.
    destruct (alpha_equivalent e1 (EVar t x)) eqn:Ea; [| apply Hsub; exact H1].
    inversion H1; subst added removed st'. subst new_e.
    intros v. rewrite as_bag_add, !count_app, (alpha_sound Ea env).
    reflexivity. }
  destruct new_e as
    [ | | | | ty e1 o e2 | | | | | | | | | | | | | | | | | ];
    try (apply Hsub; exact H).
  destruct o; try (apply Hsub; exact H).
  destruct e1 as
    [ | | | | ty1 e11 o1 e12 | | | | | | | | | | | | | | | | | ];
    try (eapply Hadd; [reflexivity | exact H]).
  destruct o1; try (eapply Hadd; [reflexivity | exact H]).
  destruct (alpha_equivalent e11 (EVar t x)) eqn:Ea;
    [| eapply Hadd; [reflexivity | exact H]].
  inversion H; subst added removed st'.
  intros v. rewrite as_bag_add, as_bag_sub, !count_app, !count_bag_diff.
  rewrite (alpha_sound Ea env). reflexivity.
Qed.

(** ** The delta of a no-op *)

Lemma noop_delta_aux :
  forall e, unions_of_variables e = true ->
  forall fuel, 2 * size e <= fuel ->
  forall context assumptions st,
  exists added removed,
    checked_bag_delta fuel e context SNoOp assumptions st
    = (Return (added, removed), st)
    /\ is_EEmptyList added = true /\ is_EEmptyList removed = true.
Proof.
  induction e as
    [ t x | t b | t n | t o e IHe | t a o b IHa IHb | t c a b IHc IHa IHb
    | t f l IHl | t l IHl | t e f IHe | t e n IHe | t | t e IHe
    | t e f IHe IHf | t e f IHe IHf | t e f IHe IHf | t e f IHe IHf
    | t e f IHe IHf | t e IHe | t e f IHe IHf | t m k IHm IHk | t m IHm
    | f IHf ] using Exp_induction;
    intros Hfrag fuel Hfuel context assumptions st;
    try discriminate Hfrag;
    (destruct fuel as [| [| fuel]]; [simpl in Hfuel; lia
                                    | simpl in Hfuel; lia |]).
  - (* variable *)
    exists (EEmptyList t), (EEmptyList t).
    split; [| split; reflexivity].
    cbn [checked_bag_delta bag_delta]. unfold bind, lift, ret.
    simp mutate. unfold bag_subtract.
    rewrite !bag_subtract_rec_eq. simpl. rewrite alpha_refl. reflexivity.
  - (* union and difference *)
    assert (Hab : unions_of_variables a && unions_of_variables b = true)
      by (destruct o; try discriminate Hfrag; exact Hfrag).
    apply andb_true_iff in Hab. destruct Hab as [Ha Hb].
    simpl in Hfuel.
    destruct (IHa Ha fuel ltac:(lia) context assumptions st)
      as (n1 & d1 & E1 & Hn1 & Hd1).
    destruct (IHb Hb fuel ltac:(lia) context assumptions st)
      as (n2 & d2 & E2 & Hn2 & Hd2).
    destruct n1; try discriminate Hn1. destruct d1; try discriminate Hd1.
    destruct n2; try discriminate Hn2. destruct d2; try discriminate Hd2.
    destruct o; try discriminate Hfrag;
      cbn [checked_bag_delta bag_delta]; unfold bind, lift, ret;
      rewrite E1, E2; simpl; do 2 eexists;
      (split; [reflexivity | split; reflexivity]).
  - (* empty list *)
    exists (EEmptyList t), (EEmptyList t).
    split; [| split; reflexivity]. reflexivity.
  - (* cached value *)
    simpl in Hfrag, Hfuel.
    destruct (IHe Hfrag fuel ltac:(lia) context assumptions st)
      as (n1 & d1 & E1 & Hn1 & Hd1).
    cbn [checked_bag_delta bag_delta]. unfold bind, lift, ret.
    rewrite E1.
    destruct d1; try discriminate Hd1. simpl.
    do 2 eexists. split; [reflexivity | split; [exact Hn1 | reflexivity]].
Qed.

Lemma checked_bag_delta_S fuel e context s assumptions st added removed st' :
  checked_bag_delta (S fuel) e context s assumptions st
  = (Return (added, removed), st') ->
  bag_delta fuel e context s assumptions st = (Return (added, removed), st').
Proof.
  cbn [checked_bag_delta]. intros H.
  apply bind_Return_inv in H. destruct H as ([a0 r0] & st1 & H & Hout).
  inversion Hout; subst a0 r0 st1. exact H.
Qed.

(** ** Emptiness, length and comparison formulas *)

Lemma length_zero_iff_nil_b {A} (l : list A) :
  negb (Nat.eqb (List.length l) 0) = true <-> l <> [].
Proof.
  destruct l; simpl; split; intros H; try congruence; try reflexivity.
Qed.

Lemma holds_EExists env e :
  holds env (EExists e) <-> as_bag (eval env e) <> [].
Proof.
  unfold holds, EExists.
  change (eval env (EUnaryOp BOOL UExists e))
    with (eval_unop UExists (eval env e)).
  simpl. apply length_zero_iff_nil_b.
Qed.

Lemma exists_sound e :
  forall r, exists_ e = Return r ->
  forall env, holds env r <-> as_bag (eval env e) <> [].
Proof.
  induction e as
    [ t x | t b | t n | t o e IHe | t a o b IHa IHb | t c a b IHc IHa IHb
    | t f l IHl | t l IHl | t e f IHe | t e n IHe | t | t e IHe
    | t e f IHe IHf | t e f IHe IHf | t e f IHe IHf | t e f IHe IHf
    | t e f IHe IHf | t e IHe | t e f IHe IHf | t m k IHm IHk | t m IHm
    | f IHf ] using Exp_induction;
    intros r H env; cbn [exists_] in H;
    match type of H with
    | (if negb (is_collection ?ty) then _ else _) = _ =>
        destruct (negb (is_collection ty)); [discriminate H |]
    end;
    match type of H with
    | (if definitely (is_empty ?x) then _ else _) = _ =>
        destruct (definitely (is_empty x)) eqn:Eempty;
        [ inversion H; subst r;
          rewrite (is_empty_sound _ Eempty env);
          unfold holds; simpl; split; [discriminate | congruence] |]
    end;
    match type of H with
    | (if definitely (is_singleton ?x) then _ else _) = _ =>
        destruct (definitely (is_singleton x)) eqn:Esingle;
        [ inversion H; subst r;
          pose proof (is_singleton_sound _ Esingle env) as Hlen;
          split; [| reflexivity]; intros _ Hnil;
          rewrite Hnil in Hlen; discriminate Hlen |]
    end;
    try (simpl in Eempty; discriminate Eempty);
    try (simpl in Esingle; discriminate Esingle);
    try (inversion H; subst r; apply holds_EExists).
  - (* binary operator *)
    destruct o;
      try (inversion H; subst r; apply holds_EExists).
    destruct (exists_ a) as [ra | |] eqn:Ea; try discriminate H.
    destruct (exists_ b) as [rb | |] eqn:Eb; try discriminate H.
    simpl in H. inversion H; subst r.
    rewrite holds_or, (IHa ra eq_refl env), (IHb rb eq_refl env).
    rewrite as_bag_add.
    destruct (as_bag (eval env a)), (as_bag (eval env b)); simpl;
      split; intros; try congruence; try tauto;
      try (left; congruence); try (right; congruence).
  - (* conditional *)
    destruct (exists_ a) as [ra | |] eqn:Ea; try discriminate H.
    destruct (exists_ b) as [rb | |] eqn:Eb; try discriminate H.
    simpl in H. inversion H; subst r.
    unfold holds. rewrite cond_sound. simpl.
    destruct (as_bool (eval env c)).
    + apply (IHa ra eq_refl env).
    + apply (IHb rb eq_refl env).
Qed.

Lemma len_of_sound e :
  forall r, len_of e = Return r ->
  forall env,
    eval env r = VInt (Z.of_nat (List.length (as_bag (eval env e)))).
Proof.
  assert (Hsmall : forall e0 r,
             definitely (singleton_or_empty e0) = true ->
             (x <- exists_ e0 ;; Return (cond x ONE ZERO)) = Return r ->
             forall env,
               eval env r
               = VInt (Z.of_nat (List.length (as_bag (eval env e0))))).
  { intros e0 r Hs H env.
    destruct (exists_ e0) as [x | |] eqn:Ex; try discriminate H.
    simpl in H. inversion H; subst r. rewrite cond_sound.
    pose proof (exists_sound e0 Ex env) as Hx.
    pose proof (singleton_or_empty_sound e0 Hs env) as Hlen.
    destruct (as_bool (eval env x)) eqn:Eb.
    - assert (Hne : as_bag (eval env e0) <> []) by (apply Hx; exact Eb).
      destruct (as_bag (eval env e0)) as [| v [| w l]]; simpl in *;
        try congruence; try lia; try reflexivity.
    - destruct (as_bag (eval env e0)) as [| v l]; [reflexivity |].
      assert (Hh : holds env x) by (apply Hx; discriminate).
      unfold holds in Hh. congruence. }
  induction e as
    [ t x | t b | t n | t o e IHe | t a o b IHa IHb | t c a b IHc IHa IHb
    | t f l IHl | t l IHl | t e f IHe | t e n IHe | t | t e IHe
    | t e f IHe IHf | t e f IHe IHf | t e f IHe IHf | t e f IHe IHf
    | t e f IHe IHf | t e IHe | t e f IHe IHf | t m k IHm IHk | t m IHm
    | f IHf ] using Exp_induction;
    intros r H env; cbn [len_of] in H;
    match type of H with
    | (if definitely (singleton_or_empty ?x) then _ else _) = _ =>
        destruct (definitely (singleton_or_empty x)) eqn:Es;
        [ exact (Hsmall _ _ Es H env) |]
    end;
    try (inversion H; subst r; reflexivity).
  - (* conditional *)
    destruct (len_of a) as [ra | |] eqn:Ea; try discriminate H.
    destruct (len_of b) as [rb | |] eqn:Eb; try discriminate H.
    simpl in H. inversion H; subst r. rewrite cond_sound. simpl.
    destruct (as_bool (eval env c)).
    + apply (IHa ra eq_refl env).
    + apply (IHb rb eq_refl env).
  - (* map *)
    rewrite (IHe r H env). simpl. rewrite length_map. reflexivity.
Qed.

Lemma nonnegative_sound x :
  definitely (nonnegative x) = true ->
  forall env, (0 <= as_int (eval env x))%Z.
Proof.
  induction x as
    [ t y | t b | t n | t o e IHe | t a o b IHa IHb | t c a b IHc IHa IHb
    | t f l IHl | t l IHl | t e f IHe | t e n IHe | t | t e IHe
    | t e f IHe IHf | t e f IHe IHf | t e f IHe IHf | t e f IHe IHf
    | t e f IHe IHf | t e IHe | t e f IHe IHf | t m k IHm IHk | t m IHm
    | f IHf ] using Exp_induction;
    simpl; try discriminate; intros H env.
  - destruct o; try discriminate H. simpl. lia.
  - destruct o; try discriminate H.
    rewrite both_definitely in H. apply andb_true_iff in H.
    destruct H as [Ha Hb]. specialize (IHa Ha env). specialize (IHb Hb env).
    simpl. destruct (is_bag (eval env a) || is_bag (eval env b)); simpl; lia.
Qed.

(** The cases of [ge], in the order of the source. *)
Lemma ge_eq x y :
  ge x y =
  match as_ECond x with
  | Some (c, t, e0) =>
      a <- ge t y ;; b <- ge e0 y ;; Return (cond c a b)
  | None =>
      match as_ECond y with
      | Some (c, t, e0) =>
          a <- ge x t ;; b <- ge x e0 ;; Return (cond c a b)
      | None =>
          if definitely (nonnegative x) && Exp_eqb y ZERO then Return T
          else
            match as_ULength y with
            | Some a =>
                if Exp_eqb x ZERO then ex <- exists_ a ;; Return (ENot ex)
                else Return (EGe x y)
            | None => Return (EGe x y)
            end
      end
  end.
Proof.
  destruct x; destruct y; try reflexivity;
    match goal with o : UOp |- _ => destruct o end; reflexivity.
Qed.

Lemma as_ULength_Some e a :
  as_ULength e = Some a -> exists ty, e = EUnaryOp ty ULength a.
Proof.
  destruct e; try discriminate. simpl.
  match goal with o : UOp |- _ => destruct o end; try discriminate.
  intros H. inversion H; subst. eexists. reflexivity.
Qed.

Lemma holds_EGe env x y :
  holds env (EGe x y) <-> (as_int (eval env y) <= as_int (eval env x))%Z.
Proof.
  unfold holds, EGe.
  change (eval env (EBinOp BOOL x BGe y))
    with (eval_binop BGe (eval env x) (eval env y)).
  simpl. rewrite Z.geb_le. reflexivity.
Qed.

Lemma ge_rec_sound :
  forall n1 x, size x < n1 ->
  forall n2 y, size y < n2 ->
  forall r, ge x y = Return r ->
  forall env,
    holds env r <-> (as_int (eval env y) <= as_int (eval env x))%Z.
Proof.
  induction n1 as [| n1 IH1]; intros x Hs1; [lia |].
  induction n2 as [| n2 IH2]; intros y Hs2 r H env; [lia |].
  rewrite ge_eq in H.
  destruct (as_ECond x) as [[[c t] e0] |] eqn:Ex.
  { apply as_ECond_Some in Ex. destruct Ex as [ty ->]. simpl in Hs1.
    destruct (ge t y) as [a | |] eqn:Ea; try discriminate H.
    destruct (ge e0 y) as [b | |] eqn:Eb; try discriminate H.
    simpl in H. inversion H; subst r.
    unfold holds. rewrite cond_sound. simpl.
    destruct (as_bool (eval env c)).
    - apply (IH1 t ltac:(lia) (S (size y)) y ltac:(lia) a Ea env).
    - apply (IH1 e0 ltac:(lia) (S (size y)) y ltac:(lia) b Eb env). }
  destruct (as_ECond y) as [[[c t] e0] |] eqn:Ey.
  { apply as_ECond_Some in Ey. destruct Ey as [ty ->]. simpl in Hs2.
    destruct (ge x t) as [a | |] eqn:Ea; try discriminate H.
    destruct (ge x e0) as [b | |] eqn:Eb; try discriminate H.
    simpl in H. inversion H; subst r.
    unfold holds. rewrite cond_sound. simpl.
    destruct (as_bool (eval env c)).
    - apply (IH2 t ltac:(lia) a Ea env).
    - apply (IH2 e0 ltac:(lia) b Eb env). }
  destruct (definitely (nonnegative x) && Exp_eqb y ZERO) eqn:Enn.
  { apply andb_true_iff in Enn. destruct Enn as [Hnn Hz].
    apply Exp_eqb_eq in Hz. subst y. inversion H; subst r.
    pose proof (nonnegative_sound x Hnn env) as Hpos.
    split; [intros _; exact Hpos | intros _; reflexivity]. }
  destruct (as_ULength y) as [a |] eqn:Elen;
    [| inversion H; subst r; apply holds_EGe].
  destruct (Exp_eqb x ZERO) eqn:Ez;
    [| inversion H; subst r; apply holds_EGe].
  apply as_ULength_Some in Elen. destruct Elen as [ty ->].
  apply Exp_eqb_eq in Ez. subst x.
  destruct (exists_ a) as [ex | |] eqn:Eex; try discriminate H.
  simpl in H. inversion H; subst r.
  rewrite holds_ENot.
  pose proof (exists_sound a Eex env) as Hex. simpl.
  destruct (as_bag (eval env a)) as [| v l] eqn:Ebag.
  - split; [intros _; simpl; lia |].
    intros _. destruct (as_bool (eval env ex)) eqn:Eb; [| reflexivity].
    exfalso. apply Hex; [exact Eb | reflexivity].
  - split.
    + intros Hf. assert (Hh : holds env ex) by (apply Hex; discriminate).
      unfold holds in Hh. congruence.
    + simpl. lia.
Qed.

(** [ge x y] is a formula for "[x] is at least [y]". *)
Lemma ge_sound x y r :
  ge x y = Return r ->
  forall env,
    holds env r <-> (as_int (eval env y) <= as_int (eval env x))%Z.
Proof.
  intros H.
  eapply ge_rec_sound with (n1 := S (size x)) (n2 := S (size y));
    [lia | lia | exact H].
Qed.

(** ** Containment *)

Lemma eval_identity_map env t a f :
  Exp_eqb (evar (arg f)) (body f) = true ->
  as_bag (eval env (EMap t a f)) = as_bag (eval env a).
Proof.
  intros H. apply Exp_eqb_eq in H. destruct f as [x b]. simpl in H.
  subst b. simpl.
  rewrite <- (map_id (as_bag (eval env a))) at 2.
  apply map_ext. intros v. unfold evar. simpl.
  destruct (string_dec (var_id x) (var_id x)); congruence.
Qed.

Lemma subset_of_rec_sound n :
  forall xs ys,
    definitely (subset_of_rec n xs ys) = true ->
    forall env v,
      count v (as_bag (eval env xs)) <= count v (as_bag (eval env ys)).
Proof.
  induction n as [| n IH]; intros xs ys H env v; [discriminate H |].
  simpl in H.
  destruct (alpha_equivalent xs ys) eqn:Ea.
  { rewrite (alpha_sound Ea env). lia. }
  assert (Hys :
            definitely
              match ys with
              | EMap _ b g =>
                  if Exp_eqb (evar (arg g)) (body g)
                  then subset_of_rec n xs b else MAYBE
              | _ => MAYBE
              end = true ->
            count v (as_bag (eval env xs))
            <= count v (as_bag (eval env ys))).
  { clear H. intros H. destruct ys; try discriminate H.
    destruct (Exp_eqb (evar (arg f)) (body f)) eqn:Eid;
      [| discriminate H].
    rewrite (eval_identity_map env _ _ _ Eid). apply IH. exact H. }
  destruct xs as
    [ t x | t b | t n0 | t o e | t a o b | t c a b
    | t f l | t l | t e f | t e n0 | t | t e
    | t e f | t e f | t e f | t e f
    | t e f | t e | t e f | t m k | t m
    | f ];
    try (apply Hys; exact H).
  - (* conditional *)
    destruct (definitely (subset_of_rec n a ys)) eqn:E1;
      destruct (definitely (subset_of_rec n b ys)) eqn:E2; simpl in H;
      try (destruct (possibly (subset_of_rec n a ys)
                     && possibly (subset_of_rec n b ys));
           discriminate H).
    simpl. destruct (as_bool (eval env c)); apply IH; assumption.
  - (* empty *)
    simpl. rewrite count_nil. lia.
  - (* singleton *)
    rewrite element_of_rec_not_definite in H. discriminate H.
  - (* map *)
    destruct (Exp_eqb (evar (arg f)) (body f)) eqn:Eid.
    + rewrite (eval_identity_map env _ _ _ Eid). apply IH. exact H.
    + apply Hys. exact H.
  - (* filter *)
    simpl. rewrite count_filter.
    specialize (IH e ys H env v).
    destruct (as_bool _); lia.
Qed.

(** When [subset_of xs ys] is a definite yes, every value occurs in [ys]
    at least as often as in [xs]. *)
Lemma subset_of_sound xs ys :
  definitely (subset_of xs ys) = true ->
  forall env v,
    count v (as_bag (eval env xs)) <= count v (as_bag (eval env ys)).
Proof. apply subset_of_rec_sound. Qed.

(** ** Maps, filters and flat-maps pushed into their argument *)

(** [compose f g] is the lambda "[f] after [g]". *)
Hypothesis compose_sound :
  forall env f g v,
    eval_lam env (compose f g) v = eval_lam env f (eval_lam env g v).

Lemma eval_lam_T env f v :
  Exp_eqb (body f) T = true -> as_bool (eval_lam env f v) = true.
Proof.
  intros H. apply Exp_eqb_eq in H. unfold eval_lam. rewrite H. reflexivity.
Qed.

Lemma filter_true {A} (p : A -> bool) l :
  (forall v, p v = true) -> filter p l = l.
Proof.
  intros H. induction l as [| a l IH]; simpl; [reflexivity |].
  rewrite H, IH. reflexivity.
Qed.

Lemma as_bag_EFilter env t e f :
  as_bag (eval env (EFilter t e f))
  = filter (fun v => as_bool (eval_lam env f v)) (as_bag (eval env e)).
Proof. destruct f. reflexivity. Qed.

Lemma as_bag_EMap env t e f :
  as_bag (eval env (EMap t e f))
  = map (eval_lam env f) (as_bag (eval env e)).
Proof. destruct f. reflexivity. Qed.

Lemma as_bag_EFlatMap env t e f :
  as_bag (eval env (EFlatMap t e f))
  = flat_map (fun v => as_bag (eval_lam env f v)) (as_bag (eval env e)).
Proof. destruct f. reflexivity. Qed.

Lemma efilter_sound e :
  forall f env,
    map_free e = true ->
    as_bag (eval env (efilter e f))
    = filter (fun v => as_bool (eval_lam env f v)) (as_bag (eval env e)).
Proof.
  induction e as
    [ t x | t b | t n | t o e IHe | t a o b IHa IHb | t c a b IHc IHa IHb
    | t g l IHl | t l IHl | t e g IHe | t e n IHe | t | t e IHe
    | t e g IHe IHg | t e g IHe IHg | t e g IHe IHg | t e g IHe IHg
    | t e g IHe IHg | t e IHe | t e g IHe IHg | t m k IHm IHk | t m IHm
    | g IHg ] using Exp_induction;
    intros f env Hfree; cbn [efilter];
    (destruct (Exp_eqb (body f) T) eqn:ET;
     [ symmetry; apply filter_true; intros v; apply eval_lam_T; exact ET |]);
    try apply as_bag_EFilter; try discriminate Hfree.
  - (* binary operator *)
    destruct o; try apply as_bag_EFilter.
    simpl in Hfree. apply andb_true_iff in Hfree. destruct Hfree as [Ha Hb].
    rewrite bag_union_sound, IHa, IHb, as_bag_add, filter_app by assumption.
    reflexivity.
  - (* empty *)
    reflexivity.
  - (* singleton *)
    rewrite cond_sound, simplify_sound, eval_apply_to. simpl.
    destruct (as_bool (eval_lam env f (eval env e))); reflexivity.
Qed.

Lemma filter_map_length {A B} (p : B -> bool) (g : A -> B) l :
  List.length (filter p (map g l))
  = List.length (filter (fun v => p (g v)) l).
Proof.
  induction l as [| a l IH]; simpl; [reflexivity |].
  destruct (p (g a)); simpl; rewrite IH; reflexivity.
Qed.

Lemma efilter_length e :
  forall f env,
    List.length (as_bag (eval env (efilter e f)))
    = List.length
        (filter (fun v => as_bool (eval_lam env f v))
                (as_bag (eval env e))).
Proof.
  induction e as
    [ t x | t b | t n | t o e IHe | t a o b IHa IHb | t c a b IHc IHa IHb
    | t g l IHl | t l IHl | t e g IHe | t e n IHe | t | t e IHe
    | t e g IHe IHg | t e g IHe IHg | t e g IHe IHg | t e g IHe IHg
    | t e g IHe IHg | t e IHe | t e g IHe IHg | t m k IHm IHk | t m IHm
    | g IHg ] using Exp_induction;
    intros f env; cbn [efilter];
    (destruct (Exp_eqb (body f) T) eqn:ET;
     [ rewrite filter_true; [reflexivity |];
       intros v; apply eval_lam_T; exact ET |]);
    try (rewrite as_bag_EFilter; reflexivity).
  - destruct o; try (rewrite as_bag_EFilter; reflexivity).
    rewrite bag_union_sound, as_bag_add, filter_app, !length_app, IHa, IHb.
    reflexivity.
  - reflexivity.
  - rewrite cond_sound, simplify_sound, eval_apply_to. simpl.
    destruct (as_bool (eval_lam env f (eval env e))); reflexivity.
  - (* map *)
    rewrite IHe, as_bag_EMap, filter_map_length.
    f_equal. apply filter_ext. intros v. rewrite compose_sound.
    reflexivity.
Qed.

Lemma emap_sound e :
  forall f env,
    as_bag (eval env (emap e f))
    = map (eval_lam env f) (as_bag (eval env e)).
Proof.
  induction e as
    [ t x | t b | t n | t o e IHe | t a o b IHa IHb | t c a b IHc IHa IHb
    | t g l IHl | t l IHl | t e g IHe | t e n IHe | t | t e IHe
    | t e g IHe IHg | t e g IHe IHg | t e g IHe IHg | t e g IHe IHg
    | t e g IHe IHg | t e IHe | t e g IHe IHg | t m k IHm IHk | t m IHm
    | g IHg ] using Exp_induction;
    intros f env; cbn [emap];
    (destruct (Exp_eqb (body f) (evar (arg f))) eqn:Eid;
     [ rewrite <- (as_bag_EMap env INT _ f);
       symmetry; apply eval_identity_map;
       apply Exp_eqb_eq in Eid; apply Exp_eqb_eq; congruence |]);
    try apply as_bag_EMap.
  - destruct o; try apply as_bag_EMap.
    rewrite bag_union_sound, IHa, IHb, as_bag_add, map_app. reflexivity.
  - rewrite cond_sound. simpl.
    destruct (as_bool (eval env c)); [apply IHa | apply IHb].
  - reflexivity.
  - simpl. rewrite eval_apply_to. reflexivity.
  - rewrite IHe, as_bag_EMap, map_map. apply map_ext.
    intros v. apply compose_sound.
Qed.

Lemma flat_map_singleton {A} (l : list A) :
  flat_map (fun v => [v]) l = l.
Proof.
  induction l as [| a l IH]; simpl; [reflexivity |]. rewrite IH. reflexivity.
Qed.

Lemma flat_map_nil {A B} (l : list A) :
  flat_map (fun _ => @nil B) l = [].
Proof. induction l as [| a l IH]; simpl; [reflexivity | exact IH]. Qed.

Lemma is_ESingleton_of_sound env f v :
  is_ESingleton_of (body f) (arg f) = true ->
  as_bag (eval_lam env f v) = [v].
Proof.
  unfold is_ESingleton_of, eval_lam. destruct (body f); try discriminate.
  intros H. apply Exp_eqb_eq in H. subst. simpl.
  destruct (string_dec (var_id (arg f)) (var_id (arg f))); congruence.
Qed.

Lemma flatmap_empty_case env e f :
  is_EEmptyList e || is_EEmptyList (body f) = true ->
  flat_map (fun v => as_bag (eval_lam env f v)) (as_bag (eval env e)) = [].
Proof.
  intros H. apply orb_true_iff in H. destruct H as [He | Hb].
  - rewrite (is_EEmptyList_eval _ env He). reflexivity.
  - rewrite (flat_map_ext _ (fun _ => []))
      by (intros v; unfold eval_lam;
          rewrite (is_EEmptyList_eval _ _ Hb); reflexivity).
    apply flat_map_nil.
Qed.

Lemma flatmap_sound context assumptions e :
  forall f r,
    flatmap context assumptions e f = Return r ->
    forall env, holds env assumptions ->
      as_bag (eval env r)
      = flat_map (fun v => as_bag (eval_lam env f v))
                 (as_bag (eval env e)).
Proof.
  induction e as
    [ t x | t b | t n | t o e IHe | t a o b IHa IHb | t c a b IHc IHa IHb
    | t g l IHl | t l IHl | t e g IHe | t e n IHe | t | t e IHe
    | t e g IHe IHg | t e g IHe IHg | t e g IHe IHg | t e g IHe IHg
    | t e g IHe IHg | t e IHe | t e g IHe IHg | t m k IHm IHk | t m IHm
    | g IHg ] using Exp_induction;
    intros f r H env HA; cbn [flatmap] in H;
    (destruct (is_ESingleton_of (body f) (arg f)) eqn:Eid;
     [ inversion H; subst r;
       rewrite (flat_map_ext _ (fun v => [v]))
         by (intros v; apply is_ESingleton_of_sound; exact Eid);
       symmetry; apply flat_map_singleton |]);
    match type of H with
    | (if ?b then _ else _) = _ =>
        destruct b eqn:Eempty;
        [ inversion H; subst r;
          rewrite flatmap_empty_case by exact Eempty; reflexivity |]
    end;
    try (inversion H; subst r; apply as_bag_EFlatMap).
  - (* union *)
    destruct o; try (inversion H; subst r; apply as_bag_EFlatMap).
    destruct (flatmap context assumptions a f) as [ra | |] eqn:Ea;
      try discriminate H.
    destruct (flatmap context assumptions b f) as [rb | |] eqn:Eb;
      try discriminate H.
    simpl in H. inversion H; subst r.
    rewrite bag_union_sound, (IHa f ra Ea env HA), (IHb f rb Eb env HA).
    rewrite as_bag_add, flat_map_app. reflexivity.
  - (* conditional *)
    destruct (flatmap context assumptions a f) as [ra | |] eqn:Ea;
      try discriminate H.
    destruct (flatmap context assumptions b f) as [rb | |] eqn:Eb;
      try discriminate H.
    unfold bindR in H.
    rewrite (fork_sound _ _ HA _ _ H). simpl.
    destruct (as_bool (eval env c));
      [apply (IHa f ra Ea env HA) | apply (IHb f rb Eb env HA)].
  - (* singleton *)
    assert (Hval : eval env r = eval env (simplify (apply_to f e))).
    { destruct (simplify (apply_to f e));
        try (inversion H; subst r; reflexivity).
      rewrite (fork_sound _ _ HA _ _ H). simpl.
      match goal with
      | |- context [as_bool (eval env ?c0)] =>
          destruct (as_bool (eval env c0))
      end; reflexivity. }
    rewrite Hval, simplify_sound, eval_apply_to. simpl.
    rewrite app_nil_r. reflexivity.
Qed.

(** ** Flat-map bodies that filter *)

Lemma is_filter_sound f_arg f_body :
  definitely (is_filter f_arg f_body) = true ->
  exists p,
    to_predicate f_body = Return p
    /\ forall env,
         as_bag (eval env f_body)
         = if as_bool (eval env p) then [eval env f_arg] else [].
Proof.
  induction f_body as
    [ t x | t b | t n | t o e IHe | t a o b IHa IHb | t c a b IHc IHa IHb
    | t g l IHl | t l IHl | t e g IHe | t e n IHe | t | t e IHe
    | t e g IHe IHg | t e g IHe IHg | t e g IHe IHg | t e g IHe IHg
    | t e g IHe IHg | t e IHe | t e g IHe IHg | t m k IHm IHk | t m IHm
    | g IHg ] using Exp_induction;
    simpl; try discriminate; intros H.
  - rewrite both_definitely in H. apply andb_true_iff in H.
    destruct H as [Ha Hb].
    destruct (IHa Ha) as (pa & Epa & Hpa).
    destruct (IHb Hb) as (pb & Epb & Hpb).
    exists (cond c pa pb). rewrite Epa, Epb. split; [reflexivity |].
    intros env. rewrite cond_sound.
    destruct (as_bool (eval env c)); [apply Hpa | apply Hpb].
  - exists F. split; reflexivity.
  - destruct (Exp_eqb e f_arg) eqn:E; [| discriminate H].
    apply Exp_eqb_eq in E. subst e.
    exists T. split; reflexivity.
Qed.

(** ** Simplified formulas *)

Lemma implies_sound e1 e2 env :
  holds env (implies e1 e2) <-> (holds env e1 -> holds env e2).
Proof.
  unfold implies.
  destruct (Exp_eqb e1 T) eqn:E1.
  { apply Exp_eqb_eq in E1. subst e1. split; [intros H _; exact H |].
    intros H. apply H. reflexivity. }
  destruct (Exp_eqb e1 F) eqn:E2.
  { apply Exp_eqb_eq in E2. subst e1. split; [| reflexivity].
    intros _ H. discriminate H. }
  destruct (Exp_eqb e2 T) eqn:E3.
  { apply Exp_eqb_eq in E3. subst e2. split; reflexivity. }
  destruct (Exp_eqb e2 F) eqn:E4.
  { apply Exp_eqb_eq in E4. subst e2. rewrite holds_ENot.
    unfold holds. simpl.
    destruct (as_bool (eval env e1)); split; intros; try congruence.
    discriminate (H eq_refl). }
  apply holds_EImplies.
Qed.

Lemma is_zero_sound e :
  forall env, holds env (is_zero e) <-> eval env e = VInt 0.
Proof.
  induction e as
    [ t x | t b | t n | t o e IHe | t a o b IHa IHb | t c a b IHc IHa IHb
    | t g l IHl | t l IHl | t e g IHe | t e n IHe | t | t e IHe
    | t e g IHe IHg | t e g IHe IHg | t e g IHe IHg | t e g IHe IHg
    | t e g IHe IHg | t e IHe | t e g IHe IHg | t m k IHm IHk | t m IHm
    | g IHg ] using Exp_induction;
    intros env; cbn [is_zero]; try apply holds_EEq.
  unfold holds. rewrite cond_sound. simpl.
  destruct (as_bool (eval env c)); [apply IHa | apply IHb].
Qed.

(** ** Lists seen as bags *)

Lemma as_bag_exp_sound e env :
  as_bag (eval env (as_bag_exp e)) = as_bag (eval env e).
Proof.
  unfold as_bag_exp. destruct (typ e); try reflexivity.
  simpl. apply filter_true. intros v. reflexivity.
Qed.

Lemma to_bag_sound e env :
  as_bag (eval env (to_bag e)) = as_bag (eval env e).
Proof.
  unfold to_bag. apply eval_identity_map. apply Exp_eqb_refl.
Qed.

(** ** Case splits, semantically *)

Lemma resolve_forks_sound (spec : Env -> Value) (func : Exp -> M Exp) :
  (forall a st0 r0 st1,
      func a st0 = (Return r0, st1) ->
      forall env, holds env a -> eval env r0 = spec env) ->
  forall fuel assumptions st r st',
    resolve_forks fuel assumptions func st = (Return r, st') ->
    forall env, holds env assumptions -> eval env r = spec env.
Proof.
  intros Hfunc.
  induction fuel as [| fuel IH]; intros assumptions st r st' H env HA;
    simpl in H;
    destruct (func assumptions st) as [[v | x |] st1] eqn:Ef;
    try discriminate H;
    try (inversion H; subst; eapply Hfunc; eassumption);
    destruct x as [c | | | | | | | | | ]; try discriminate H.
  apply bind_Return_inv in H. destruct H as (on_true & st2 & Ht & H).
  apply bind_Return_inv in H. destruct H as (on_false & st3 & Hf & H).
  inversion H; subst r st'. rewrite cond_sound.
  destruct (as_bool (eval env c)) eqn:Ec.
  - eapply IH; [exact Ht |]. apply holds_EAll_pair. split; assumption.
  - eapply IH; [exact Hf |]. apply holds_EAll_pair. split; [assumption |].
    apply holds_ENot. exact Ec.
Qed.

(** ** Sequences under [mutate] *)

Lemma bindR_assoc {A B C} (m : res A) (f : A -> res B) (g : B -> res C) :
  bindR (bindR m f) g = bindR m (fun x => bindR (f x) g).
Proof. destruct m; reflexivity. Qed.

Lemma bindR_ret {A} (m : res A) : bindR m (fun x => Return x) = m.
Proof. destruct m; reflexivity. Qed.

Lemma mutate_seq_before a :
  forall c e,
    mutate e (SSeq a c) = (e1 <- mutate e c ;; mutate_before a e1).
Proof.
  induction a; intros rest e0; simp mutate; try reflexivity.
  (* the sequence: re-associated, then twice the induction hypothesis *)
  rewrite IHa1. rewrite IHa2. simpl. rewrite bindR_assoc. reflexivity.
Qed.

Lemma mutate_before_last a :
  ends_in_decl a = false ->
  forall e1, mutate_before a e1 = mutate e1 a.
Proof.
  induction a; intros Hs e0; try reflexivity; try discriminate Hs.
  simpl in Hs.
  simpl. rewrite mutate_seq_before.
  destruct (mutate e0 a2) eqn:E; rewrite (IHa2 Hs), E; reflexivity.
Qed.

(** [mutate] of a sequence is [mutate] of its second part, then of its
    first, when the first does not end in a declaration. *)
Lemma mutate_seq a b e :
  ends_in_decl a = false ->
  mutate e (SSeq a b) = (e1 <- mutate e b ;; mutate e1 a).
Proof.
  intros Hs. rewrite mutate_seq_before.
  destruct (mutate e b); try reflexivity.
  simpl. apply mutate_before_last. exact Hs.
Qed.

(* ===================================================================== *)
(** * The claims of the specification *)
(* ===================================================================== *)

(** ** Branch resolution *)

(** C5.  On a condition that is not a conjunction, disjunction, negation or
    conditional, [fork] returns the then-branch when the oracle validates
    [assumptions ==> c]; failing that, it returns the else-branch when the
    oracle validates [assumptions ==> not c]; failing both it raises
    [ForkOn c], carrying the condition itself.  A structured condition is
    first decomposed into forks on its parts, the inner forks being taken
    before the outer one. *)
Theorem fork_atomic_or_decomposed :
  forall (A : Type) (context : Context) (assumptions c : Exp)
         (then_branch else_branch : A),
    structured c = false ->
    (solver_valid context (EImplies assumptions c) = true ->
       fork context assumptions c then_branch else_branch
       = Return then_branch)
    /\ (solver_valid context (EImplies assumptions c) = false ->
        solver_valid context (EImplies assumptions (ENot c)) = true ->
          fork context assumptions c then_branch else_branch
          = Return else_branch)
    /\ (solver_valid context (EImplies assumptions c) = false ->
        solver_valid context (EImplies assumptions (ENot c)) = false ->
          fork context assumptions c then_branch else_branch
          = Raise (ForkOn c))
    /\ (forall t c1 c2,
          fork context assumptions (EBinOp t c1 BAnd c2)
               then_branch else_branch
          = (inner <- fork context assumptions c2 then_branch else_branch ;;
             fork context assumptions c1 inner else_branch))
    /\ (forall t c1 c2,
          fork context assumptions (EBinOp t c1 BOr c2)
               then_branch else_branch
          = (inner <- fork context assumptions c2 then_branch else_branch ;;
             fork context assumptions c1 then_branch inner))
    /\ (forall t c1,
          fork context assumptions (EUnaryOp t UNot c1)
               then_branch else_branch
          = fork context assumptions c1 else_branch then_branch)
    /\ (forall t c0 c1 c2,
          fork context assumptions (ECond t c0 c1 c2)
               then_branch else_branch
          = (on_then <- fork context assumptions c1 then_branch else_branch ;;
             on_else <- fork context assumptions c2 then_branch else_branch ;;
             fork context assumptions c0 on_then on_else)).
Proof.
  intros A context assumptions c then_branch else_branch Hatomic.
  assert (Hfork : fork context assumptions c then_branch else_branch
                  = fork_atomic context assumptions c then_branch else_branch).
  { destruct c; try reflexivity; simpl in Hatomic.
    - destruct op; try reflexivity; discriminate.
    - destruct op; try reflexivity; discriminate.
    - discriminate. }
  rewrite Hfork. unfold fork_atomic.
  repeat split; intros; try reflexivity.
  - rewrite H. reflexivity.
  - rewrite H, H0. reflexivity.
  - rewrite H, H0. reflexivity.
Qed.

(** C6.  [resolve_forks] never hands a [ForkOn] to its caller.  When [func]
    raises [ForkOn c], the result is the conditional on [c] of the two
    recursive resolutions, under [assumptions and c] and under
    [assumptions and not c]; when [func] raises no [ForkOn], the result is
    that of [func]. *)
Theorem resolve_forks_recovers_every_fork :
  forall (fuel : nat) (assumptions : Exp) (func : Exp -> M Exp) (st : nat),
    (forall c st', resolve_forks fuel assumptions func st
                   <> (Raise (ForkOn c), st'))
    /\ (forall c st1,
          func assumptions st = (Raise (ForkOn c), st1) ->
          resolve_forks (S fuel) assumptions func st
          = (on_true <-- resolve_forks fuel (EAll [assumptions; c]) func ;;
             on_false <-- resolve_forks fuel
                            (EAll [assumptions; ENot c]) func ;;
             ret (cond c on_true on_false)) st1)
    /\ ((forall c st1, func assumptions st <> (Raise (ForkOn c), st1)) ->
        resolve_forks fuel assumptions func st = func assumptions st).
Proof.
  intros fuel assumptions func st. split; [| split].
  - intros c st'. apply resolve_forks_no_ForkOn.
  - intros c st1 H. simpl. rewrite H. reflexivity.
  - intros H. destruct fuel; simpl;
      destruct (func assumptions st) as [[v | x | ] st1] eqn:E;
      try reflexivity;
      destruct x; try reflexivity; exfalso; eapply H; reflexivity.
Qed.

(** ** Mutation *)

(** C8.  [add(x)] and [remove(x)] are [add_all] and [remove_all] of the
    singleton of [x], typed as the target; [add_all(xs)] is the
    assignment [target := target + xs] and [remove_all(xs)] is
    [target := target - xs]. *)
Theorem mutate_desugars_calls :
  forall (e target x : Exp) (rest : list Exp),
    mutate e (SCall target "add" (x :: rest))
    = mutate e (SCall target "add_all" [ESingleton (typ target) x])
    /\ mutate e (SCall target "remove" (x :: rest))
       = mutate e (SCall target "remove_all" [ESingleton (typ target) x])
    /\ mutate e (SCall target "add_all" (x :: rest))
       = mutate e (SAssign target (EBinOp (typ target) target BAdd x))
    /\ mutate e (SCall target "remove_all" (x :: rest))
       = mutate e (SAssign target (EBinOp (typ target) target BSub x)).
Proof.
  intros. repeat split; simp mutate; reflexivity.
Qed.

(** C10.  When the wrapped expression is alpha-equivalent to its mutation
    under [op], [better_mutate] returns its argument as it is, and draws
    no fresh name. *)
Theorem better_mutate_unchanged :
  forall (fuel : nat) (t : Ty) (e0 new_e0 : Exp) (context : Context)
         (op : Stm) (assumptions : Exp) (st : nat),
    mutate e0 op = Return new_e0 ->
    alpha_equivalent e0 new_e0 = true ->
    better_mutate (S fuel) (EStateVar t e0) context op assumptions st
    = (Return (EStateVar t e0), st).
Proof.
  intros fuel t e0 new_e0 context op assumptions st Hm Ha.
  simpl. unfold bind, lift. rewrite Hm, Ha. reflexivity.
Qed.

(** ** Update sketches *)

(** C9, as the code has it.  For an lvalue of bag or set type: when the
    oracle validates that the old and new values are equal under the
    assumptions and invariants, [sketch_update] returns a no-op and no
    subgoal.  Otherwise, with [skip-stateless-synthesis] off, it returns
    exactly two subgoals, the additions [new - old] and then the deletions
    [old - new] (the new value stripped of its state-variable wrappers),
    and a sequence of two loops over them: the first removes every element
    to delete from the lvalue, the second adds every element to add. *)
Theorem sketch_update_bag :
  forall (lval old_value new_value : Exp) (ctx : list Var)
         (assumptions invariants : list Exp) (st : nat),
    is_bag_or_set (typ lval) = true ->
    (valid (EImplies (EAll (assumptions ++ invariants))
                     (EEq old_value new_value)) = true ->
     sketch_update lval old_value new_value ctx assumptions invariants st
     = (Return (SNoOp, []), st))
    /\
    (valid (EImplies (EAll (assumptions ++ invariants))
                     (EEq old_value new_value)) = false ->
     skip_stateless_synthesis = false ->
     let t := typ lval in
     let new_value' := strip_EStateVar new_value in
     let additions := EBinOp t new_value' BSub old_value in
     let deletions := EBinOp t old_value BSub new_value' in
     let doc_add := ("additions to " ++ pprint lval)%string in
     let doc_del := ("deletions from " ++ pprint lval)%string in
     let v := mkVar (String "_" ("var" ++ string_of_nat (S (S st)))%string)
                    (elem_type t) in
     sketch_update lval old_value new_value ctx assumptions invariants st
     = (Return
          (SSeq
             (SForEach v
                (subgoal_call ctx assumptions deletions doc_del (S st))
                (SCall lval "remove" [evar v]))
             (SForEach v
                (subgoal_call ctx assumptions additions doc_add st)
                (SCall lval "add" [evar v])),
           [subgoal_query ctx assumptions additions doc_add st;
            subgoal_query ctx assumptions deletions doc_del (S st)]),
        S (S (S st)))).
Proof.
  intros lval old_value new_value ctx assumptions invariants st Hty.
  unfold sketch_update. split.
  - intros Hv. destruct (typ lval); simpl; rewrite Hv; reflexivity.
  - intros Hv Hskip. cbv zeta.
    destruct (typ lval) eqn:Et; try discriminate Hty;
      simpl; rewrite Hv; unfold make_subgoal; rewrite Hskip; reflexivity.
Qed.

(** ** The argmin/argmax case of the runtime incrementalizer *)



(** ** Deltas *)




(* ===================================================================== *)
(** * Further properties of the helpers *)
(* ===================================================================== *)

(** ** Three-valued answers about shapes *)

(** X1.  A definite answer of [is_empty], [is_singleton] or
    [singleton_or_empty] is right in every environment: the bag is empty,
    has exactly one element, has at most one element.  None of the first
    two ever answers a definite no. *)
Theorem shape_answers_sound :
  forall e,
    (definitely (is_empty e) = true ->
     forall env, as_bag (eval env e) = [])
    /\ (definitely (is_singleton e) = true ->
        forall env, List.length (as_bag (eval env e)) = 1)
    /\ (definitely (singleton_or_empty e) = true ->
        forall env, List.length (as_bag (eval env e)) <= 1)
    /\ possibly (is_empty e) = true
    /\ possibly (is_singleton e) = true.
Proof.
  intros e. split; [apply is_empty_sound |].
  split; [apply is_singleton_sound |].
  split; [apply singleton_or_empty_sound |].
  split; [apply is_empty_not_No |].
  induction e using Exp_induction; simpl; try reflexivity; try assumption.
  destruct o; simpl; try reflexivity; assumption.
Qed.

(** X2.  [edistinct e] denotes the bag [e] without its duplicates, whether
    or not it wraps [e] in a [distinct]. *)
Theorem edistinct_denotes_distinct :
  forall e env,
    as_bag (eval env (edistinct e))
    = nodup Value_eq_dec (as_bag (eval env e)).
Proof. intros e env. apply edistinct_sound. Qed.

(** X3.  [element_of] never answers a definite yes: the answer for a
    [the] of a bag hinges on the inverse of [is_empty], which is never
    definite.  So [bag_contains] never takes its shortcut to [T]. *)
Theorem element_of_never_definite :
  forall x xs, definitely (element_of x xs) = false.
Proof. intros x xs. apply element_of_not_definite. Qed.

(** X4.  When [subset_of xs ys] is a definite yes, every value occurs in
    [ys] at least as often as in [xs], in every environment. *)
Theorem subset_of_definite_sound :
  forall xs ys,
    definitely (subset_of xs ys) = true ->
    forall env v,
      count v (as_bag (eval env xs)) <= count v (as_bag (eval env ys)).
Proof. intros xs ys H env v. apply subset_of_sound. exact H. Qed.

(** ** Formulas about bags and numbers *)

(** X5.  [exists] refuses an expression that is not typed as a collection;
    when it returns a formula, the formula holds exactly when the bag is
    not empty. *)
Theorem exists_decides_emptiness :
  forall e,
    (is_collection (typ e) = false -> exists_ e = Raise AssertionError)
    /\ (forall r, exists_ e = Return r ->
        forall env, holds env r <-> as_bag (eval env e) <> []).
Proof.
  intros e. split.
  - intros H. destruct e; simpl in H |- *; rewrite H; reflexivity.
  - apply exists_sound.
Qed.

(** X6.  The expression that [len_of] returns denotes the number of
    elements of the bag. *)
Theorem len_of_denotes_length :
  forall e r,
    len_of e = Return r ->
    forall env,
      eval env r = VInt (Z.of_nat (List.length (as_bag (eval env e)))).
Proof. intros e r H env. apply len_of_sound. exact H. Qed.

(** X7.  The formula that [ge x y] returns holds exactly when the number
    [x] is at least the number [y]; a definite yes of [nonnegative] means
    a number that is not negative. *)
Theorem ge_decides_order :
  forall x y r,
    ge x y = Return r ->
    (forall env,
        holds env r <-> (as_int (eval env y) <= as_int (eval env x))%Z)
    /\ (definitely (nonnegative x) = true ->
        forall env, (0 <= as_int (eval env x))%Z).
Proof.
  intros x y r H. split.
  - intros env. eapply ge_sound. exact H.
  - apply nonnegative_sound.
Qed.

(** X8.  [is_zero e] holds exactly when [e] is the number zero. *)
Theorem is_zero_decides_zero :
  forall e env, holds env (is_zero e) <-> eval env e = VInt 0.
Proof. intros e env. apply is_zero_sound. Qed.

(** X9.  [implies e1 e2] holds exactly when [e2] holds whenever [e1]
    does, in each of its five cases. *)
Theorem implies_is_implication :
  forall e1 e2 env,
    holds env (implies e1 e2) <-> (holds env e1 -> holds env e2).
Proof. intros e1 e2 env. apply implies_sound. Qed.

(** ** The canonicalising bag helpers *)

(** X10.  [bag_union e1 e2] denotes the elements of [e1] followed by those
    of [e2], also when it drops an empty operand. *)
Theorem bag_union_denotes_union :
  forall e1 e2 env,
    as_bag (eval env (bag_union e1 e2))
    = as_bag (eval env e1) ++ as_bag (eval env e2).
Proof. intros e1 e2 env. apply bag_union_sound. Qed.

(** X11.  The formula that [bag_contains bag x] returns holds exactly when
    [x] occurs in [bag] (for a bag without a singleton of a record
    construction where the helper looks). *)
Theorem bag_contains_decides_membership :
  forall bag x c env,
    plain_bag bag = true ->
    bag_contains bag x = Return c ->
    (holds env c <-> 0 < count (eval env x) (as_bag (eval env bag))).
Proof.
  intros bag x c env Hp H. apply bag_contains_sound; assumption.
Qed.

(** X12.  What [bag_subtract e1 e2] returns denotes, in every environment
    that satisfies the assumptions, the bag difference of [e1] and [e2]:
    each value as often as in [e1], less its occurrences in [e2]. *)
Theorem bag_subtract_denotes_difference :
  forall context assumptions e1 e2 r,
    plain_bag e1 = true -> plain_bag e2 = true ->
    bag_subtract context assumptions e1 e2 = Return r ->
    forall env, holds env assumptions -> denotes_difference env r e1 e2.
Proof.
  intros context assumptions e1 e2 r Hp1 Hp2 H.
  apply (proj2 (@bag_subtract_sound _ _ _ _ _ Hp1 Hp2 H)).
Qed.

(** X13.  [efilter e f] denotes the elements of [e] that pass [f], provided
    no map occurs among the unions of [e].  On a map [efilter] filters the
    mapped bag by [f] composed with the mapping function and drops the map:
    in general only the number of elements is that of the filter. *)
Theorem efilter_denotes_filter :
  forall e f env,
    (map_free e = true ->
     as_bag (eval env (efilter e f))
     = filter (fun v => as_bool (eval_lam env f v)) (as_bag (eval env e)))
    /\ List.length (as_bag (eval env (efilter e f)))
       = List.length
           (filter (fun v => as_bool (eval_lam env f v))
                   (as_bag (eval env e))).
Proof.
  intros e f env. split.
  - intros H. apply efilter_sound. exact H.
  - apply efilter_length.
Qed.

(** X14.  [emap e f] denotes the bag of the values of [f] at the elements
    of [e]. *)
Theorem emap_denotes_map :
  forall e f env,
    as_bag (eval env (emap e f))
    = map (eval_lam env f) (as_bag (eval env e)).
Proof. intros e f env. apply emap_sound. Qed.

(** X15.  What [flatmap e f] returns denotes, in every environment that
    satisfies the assumptions, the concatenation of the bags that [f]
    yields at the elements of [e]. *)
Theorem flatmap_denotes_flat_map :
  forall context assumptions e f r,
    flatmap context assumptions e f = Return r ->
    forall env, holds env assumptions ->
      as_bag (eval env r)
      = flat_map (fun v => as_bag (eval_lam env f v))
                 (as_bag (eval env e)).
Proof.
  intros context assumptions e f r H env HA.
  eapply flatmap_sound; eassumption.
Qed.

(** X16.  When [is_filter f_arg f_body] is a definite yes, [to_predicate]
    returns a formula, and the body denotes the singleton of the argument
    when the formula holds and the empty bag otherwise. *)
Theorem filter_body_predicate :
  forall f_arg f_body,
    definitely (is_filter f_arg f_body) = true ->
    exists p,
      to_predicate f_body = Return p
      /\ forall env,
           as_bag (eval env f_body)
           = if as_bool (eval env p) then [eval env f_arg] else [].
Proof. intros f_arg f_body H. apply is_filter_sound. exact H. Qed.

(** X17.  [as_bag] and [to_bag] change how a collection is typed and not
    its elements. *)
Theorem list_as_bag_same_elements :
  forall e env,
    as_bag (eval env (as_bag_exp e)) = as_bag (eval env e)
    /\ as_bag (eval env (to_bag e)) = as_bag (eval env e).
Proof.
  intros e env. split; [apply as_bag_exp_sound | apply to_bag_sound].
Qed.

(** ** Case splits *)

(** X18.  When [fork] returns, in an environment that satisfies the
    assumptions it has returned the then-branch if the condition holds and
    the else-branch if it does not, whatever the structure of the
    condition. *)
Theorem fork_chooses_by_condition :
  forall (A : Type) context assumptions c (t e r : A) env,
    holds env assumptions ->
    fork context assumptions c t e = Return r ->
    r = if as_bool (eval env c) then t else e.
Proof.
  intros A context assumptions c t e r env HA H.
  eapply fork_sound; eassumption.
Qed.

(** X19.  [resolve_forks] keeps what [func] guarantees: if every
    expression that [func] returns under assumptions [a] has the value
    [spec] in the environments that satisfy [a], then so has the
    expression that [resolve_forks] returns, in the environments that
    satisfy the initial assumptions. *)
Theorem resolve_forks_preserves_meaning :
  forall (spec : Env -> Value) (func : Exp -> M Exp),
    (forall a st0 r0 st1,
        func a st0 = (Return r0, st1) ->
        forall env, holds env a -> eval env r0 = spec env) ->
    forall fuel assumptions st r st',
      resolve_forks fuel assumptions func st = (Return r, st') ->
      forall env, holds env assumptions -> eval env r = spec env.
Proof.
  intros spec func Hfunc fuel assumptions st r st' H env HA.
  eapply resolve_forks_sound; eassumption.
Qed.

(** ** Statements *)

(** X20.  [mutate] of a sequence [a; b] is [mutate] of [b] followed by
    [mutate] of [a], provided the last statement of [a], however [a] is
    nested, is not a declaration (whose substitution would apply to what
    follows it).  Declarations elsewhere in [a], also at the end of a
    branch of a conditional, do not matter. *)
Theorem mutate_sequence_law :
  forall a b e,
    ends_in_decl a = false ->
    mutate e (SSeq a b) = (e1 <- mutate e b ;; mutate e1 a).
Proof. intros a b e H. apply mutate_seq. exact H. Qed.

(** X21.  The record construction that [_replace_field] builds denotes the
    record with the field set to the new value and every other field as it
    was; a [record] whose type is not a record type is refused. *)
Theorem replace_field_sets_field :
  forall env le f new_value,
    (forall r fts fs,
        typ le = TRecord fts ->
        eval env le = VRecord fs ->
        names_eqb (map fst fs) (map fst fts) = true ->
        distinct_names (map fst fts) = true ->
        _replace_field le f new_value = Return r ->
        eval env r = VRecord (set_field f (eval env new_value) fs))
    /\ ((forall fts, typ le <> TRecord fts) ->
        _replace_field le f new_value = Raise AttributeError).
Proof.
  intros env le f new_value. split.
  - intros r fts fs. apply eval_replace_field.
  - intros H. unfold _replace_field.
    destruct (typ le); try reflexivity. exfalso. eapply H. reflexivity.
Qed.

End StateMaintenance.

(* ===================================================================== *)
(** * The contracts are met, and the theorems at work *)
(* ===================================================================== *)

(** ** The simple collaborators meet their contracts *)

Lemma alpha_syntactic_refl : forall e, alpha_syntactic e e = true.
Proof. intros e. apply Exp_eqb_refl. Qed.

Lemma alpha_syntactic_sound :
  forall a b, alpha_syntactic a b = true ->
  forall env, eval env a = eval env b.
Proof.
  intros a b H env. apply Exp_eqb_eq in H. subst b. reflexivity.
Qed.

Lemma simplify_id_sound :
  forall env e, eval env (simplify_id e) = eval env e.
Proof. reflexivity. Qed.

Lemma cond_plain_sound :
  forall env c t e,
    eval env (cond_plain c t e)
    = if as_bool (eval env c) then eval env t else eval env e.
Proof. reflexivity. Qed.

Lemma conjuncts_hold env a :
  holds env a -> forall c, In c (conjuncts a) -> holds env c.
Proof.
  induction a using Exp_induction; intros Ha c Hc; simpl in Hc;
    try (destruct Hc as [Hc | []]; subst c; exact Ha).
  destruct o; try (destruct Hc as [Hc | []]; subst c; exact Ha).
  apply holds_and in Ha. destruct Ha as [Ha1 Ha2].
  apply in_app_or in Hc. destruct Hc as [Hc | Hc].
  - apply IHa1; assumption.
  - apply IHa2; assumption.
Qed.

Lemma oracle_conjunct_sound :
  forall formula, oracle_conjunct formula = true ->
  forall env, holds env formula.
Proof.
  intros formula H env.
  destruct formula as [ | | | | t a o c | | | | | | | | | | | | | | | | | ];
    try discriminate H.
  destruct a as [ | | | t' u a | | | | | | | | | | | | | | | | | | ];
    try discriminate H.
  destruct u; try discriminate H.
  destruct o; try discriminate H.
  simpl in H. apply existsb_exists in H. destruct H as [c' [Hin Heq]].
  apply Exp_eqb_eq in Heq. subst c'.
  apply holds_or. unfold holds at 1. simpl.
  destruct (as_bool (eval env a)) eqn:E.
  - right. eapply conjuncts_hold; [exact E | exact Hin].
  - left. reflexivity.
Qed.

Lemma solver_conjunct_sound :
  forall context formula, solver_conjunct context formula = true ->
  forall env, holds env formula.
Proof. intros context. apply oracle_conjunct_sound. Qed.

(** ** The claims at concrete inputs *)

Local Notation "'run_better_mutate'" :=
  (better_mutate alpha_syntactic simplify_id cond_plain solver_conjunct
     oracle_conjunct retypecheck_ok compose_subst EIntersect_sub
     ECountIn_filter to_heap_call EHeapPeek2_call solver_satisfiable_none
     solver_satisfy_none eval_in_model_env exp_minus_bin).

Local Notation "'run_checked_bag_delta'" :=
  (checked_bag_delta alpha_syntactic simplify_id cond_plain solver_conjunct
     oracle_conjunct retypecheck_ok compose_subst EIntersect_sub
     ECountIn_filter to_heap_call EHeapPeek2_call solver_satisfiable_none
     solver_satisfy_none eval_in_model_env exp_minus_bin).

Local Notation "'run_sketch_update'" :=
  (sketch_update oracle_conjunct construct_value_zero pprint_none false
     false).

(** [fork] on the variable [b], assumed to hold. *)
Lemma fork_atomic_or_decomposed_witness :
  structured ex_b = false
  /\ fork solver_conjunct ex_ctx ex_b ex_b ex_five ex_seven = Return ex_five.
Proof.
  split; [reflexivity |].
  destruct (fork_atomic_or_decomposed solver_conjunct ex_ctx ex_b ex_b
              ex_five ex_seven eq_refl) as [H _].
  apply H. reflexivity.
Defined.

(** The cached bag [xs] is untouched by an insertion into [ys]. *)
Lemma better_mutate_unchanged_witness :
  mutate alpha_syntactic ex_xs (SCall ex_ys "add" [ex_five]) = Return ex_xs
  /\ alpha_syntactic ex_xs ex_xs = true
  /\ run_better_mutate 1 (EStateVar INT_BAG ex_xs) ex_ctx
       (SCall ex_ys "add" [ex_five]) T 0
     = (Return (EStateVar INT_BAG ex_xs), 0).
Proof.
  split; [reflexivity |]. split; [reflexivity |].
  apply (@better_mutate_unchanged alpha_syntactic simplify_id cond_plain
           solver_conjunct oracle_conjunct retypecheck_ok compose_subst
           EIntersect_sub ECountIn_filter to_heap_call EHeapPeek2_call
           solver_satisfiable_none
           solver_satisfy_none eval_in_model_env exp_minus_bin
           0 INT_BAG ex_xs ex_xs); reflexivity.
Defined.


(** [sketch_update] on the bag [xs]: a no-op when the assumptions state
    that the new value is the old one, two loops and two subgoals
    otherwise. *)
Lemma sketch_update_bag_witness :
  is_bag_or_set (typ ex_xs) = true
  /\ run_sketch_update ex_xs ex_xs ex_xs_plus [] [EEq ex_xs ex_xs_plus] [] 0
     = (Return (SNoOp, []), 0)
  /\ exists v to_del to_add q_add q_del,
       run_sketch_update ex_xs ex_xs ex_xs_plus [] [] [] 0
       = (Return
            (SSeq (SForEach v to_del (SCall ex_xs "remove" [evar v]))
                  (SForEach v to_add (SCall ex_xs "add" [evar v])),
             [q_add; q_del]),
          3).
Proof.
  split; [reflexivity |]. split.
  - destruct (sketch_update_bag oracle_conjunct construct_value_zero
                pprint_none false false ex_xs ex_xs ex_xs_plus []
                [EEq ex_xs ex_xs_plus] [] 0 eq_refl) as [H _].
    apply H. reflexivity.
  - destruct (sketch_update_bag oracle_conjunct construct_value_zero
                pprint_none false false ex_xs ex_xs ex_xs_plus []
                [] [] 0 eq_refl) as [_ H].
    do 5 eexists. apply H; reflexivity.
Defined.



Lemma EIntersect_sub_covers :
  forall env xs ys, covers_intersection env (EIntersect_sub xs ys) xs ys.
Proof.
  intros env xs ys v. unfold EIntersect_sub.
  rewrite !as_bag_sub, !count_bag_diff. lia.
Qed.



(** ** Where the code departs from the specification *)


(** C9.  The statement emitted for a bag is not loop-free: it iterates over
    the elements to delete and over the elements to add. *)
Lemma sketch_update_bag_counterexample :
  exists stm subgoals st,
    run_sketch_update ex_xs ex_xs ex_xs_plus [] [] [] 0
    = (Return (stm, subgoals), st)
    /\ loop_free stm = false.
Proof.
  do 3 eexists. split; [vm_compute; reflexivity | reflexivity].
Qed.




(** ** The further properties at concrete inputs *)

Local Notation "'at_instances' lemma" :=
  (lemma oracle_conjunct retypecheck_ok EIntersect_sub ECountIn_filter
     to_heap_call EHeapPeek2_call eval_in_model_env exp_minus_bin
     construct_value_zero pprint_none)
  (at level 10, lemma at level 9, only parsing).

Lemma compose_fresh_sound :
  forall env f g v,
    eval_lam env (compose_fresh f g) v
    = eval_lam env f (eval_lam env g v).
Proof.
  intros env f g v. unfold compose_fresh.
  set (y := fresh_id (fv (body f) ++ fv (body g))).
  assert (Hy : ~ In y (fv (body f) ++ fv (body g)))
    by apply fresh_id_fresh.
  assert (Hv : eval (upd env y v) (evar (mkVar y (var_type (arg g)))) = v).
  { unfold evar, upd. cbn [eval vars var_id var_type].
    destruct (string_dec y y) as [_ | Hne]; [reflexivity | congruence]. }
  unfold eval_lam at 1. cbn [arg body var_id].
  rewrite !(at_instances eval_apply_to), Hv.
  unfold eval_lam.
  assert (Hg : eval (upd (upd env y v) (var_id (arg g)) v) (body g)
               = eval (upd env (var_id (arg g)) v) (body g)).
  { apply (at_instances eval_ext); [| split; reflexivity].
    intros x Hx. unfold upd. cbn [vars].
    destruct (string_dec x (var_id (arg g))); [reflexivity |].
    destruct (string_dec x y) as [-> |]; [| reflexivity].
    exfalso. apply Hy. apply in_or_app. right. exact Hx. }
  rewrite Hg.
  apply (at_instances eval_ext); [| split; reflexivity].
  intros x Hx. unfold upd. cbn [vars].
  destruct (string_dec x (var_id (arg f))); [reflexivity |].
  destruct (string_dec x y) as [-> |]; [| reflexivity].
  exfalso. apply Hy. apply in_or_app. left. exact Hx.
Qed.

(** The elements of [xs] greater than [3] are among those of [xs]. *)
Lemma subset_of_definite_sound_witness :
  definitely (subset_of alpha_syntactic ex_filter ex_xs) = true
  /\ count (VInt 1) (as_bag (eval ex_env ex_filter))
     <= count (VInt 1) (as_bag (eval ex_env ex_xs)).
Proof.
  split; [vm_compute; reflexivity |].
  apply (@subset_of_definite_sound alpha_syntactic alpha_syntactic_sound
           ex_filter ex_xs).
  vm_compute. reflexivity.
Defined.

(** [xs + [5]] is not empty. *)
Lemma exists_decides_emptiness_witness :
  exists_ cond_plain ex_xs_plus
  = Return (EBinOp BOOL (EExists ex_xs) BOr T)
  /\ (holds ex_env (EBinOp BOOL (EExists ex_xs) BOr T)
      <-> as_bag (eval ex_env ex_xs_plus) <> []).
Proof.
  split; [vm_compute; reflexivity |].
  apply (proj2 (@exists_decides_emptiness cond_plain
                  oracle_conjunct retypecheck_ok ECountIn_filter to_heap_call
                  EHeapPeek2_call eval_in_model_env exp_minus_bin construct_value_zero pprint_none
                  cond_plain_sound ex_xs_plus)).
  vm_compute. reflexivity.
Defined.

(** [xs + [5]] has two elements when [xs] is [[1]]. *)
Lemma len_of_denotes_length_witness :
  len_of cond_plain ex_xs_plus = Return (ELen ex_xs_plus)
  /\ eval ex_env (ELen ex_xs_plus) = VInt 2.
Proof.
  split; [vm_compute; reflexivity |].
  apply (@len_of_denotes_length cond_plain
                  oracle_conjunct retypecheck_ok ECountIn_filter to_heap_call
                  EHeapPeek2_call eval_in_model_env exp_minus_bin construct_value_zero pprint_none
                  cond_plain_sound ex_xs_plus).
  vm_compute. reflexivity.
Defined.

(** The length of [xs] is at least zero. *)
Lemma ge_decides_order_witness :
  ge cond_plain (ELen ex_xs) ZERO = Return T
  /\ (holds ex_env T
      <-> (as_int (eval ex_env ZERO) <= as_int (eval ex_env (ELen ex_xs)))%Z).
Proof.
  split; [vm_compute; reflexivity |].
  apply (proj1 (@ge_decides_order cond_plain
                  oracle_conjunct retypecheck_ok ECountIn_filter to_heap_call
                  EHeapPeek2_call eval_in_model_env exp_minus_bin construct_value_zero pprint_none
                  cond_plain_sound (ELen ex_xs) ZERO T eq_refl)).
Defined.

(** Zero is zero, also under a conditional. *)
Lemma is_zero_decides_zero_witness :
  holds ex_env_b (is_zero cond_plain (ECond INT ex_b ZERO ONE))
  <-> eval ex_env_b (ECond INT ex_b ZERO ONE) = VInt 0.
Proof.
  apply (@is_zero_decides_zero cond_plain cond_plain_sound).
Defined.

(** Is [5] among the elements of [xs] greater than [3]? *)
Lemma bag_contains_decides_membership_witness :
  plain_bag ex_filter = true
  /\ exists c,
       bag_contains alpha_syntactic simplify_id ex_filter ex_five = Return c
       /\ (holds ex_env c
           <-> 0 < count (eval ex_env ex_five)
                         (as_bag (eval ex_env ex_filter))).
Proof.
  split; [reflexivity |].
  eexists. split; [vm_compute; reflexivity |].
  apply (@bag_contains_decides_membership alpha_syntactic simplify_id
           oracle_conjunct retypecheck_ok EIntersect_sub ECountIn_filter
           to_heap_call EHeapPeek2_call eval_in_model_env exp_minus_bin construct_value_zero pprint_none
           ex_filter ex_five);
    [reflexivity | vm_compute; reflexivity].
Defined.

(** [[5] - [7]] is [[5]], knowing that [5] is not [7]. *)
Lemma bag_subtract_denotes_difference_witness :
  plain_bag (ESingleton INT_BAG ex_five) = true
  /\ plain_bag (ESingleton INT_BAG ex_seven) = true
  /\ bag_subtract alpha_syntactic simplify_id solver_conjunct ex_ctx
       ex_five_not_seven (ESingleton INT_BAG ex_five)
       (ESingleton INT_BAG ex_seven)
     = Return (ESingleton INT_BAG ex_five)
  /\ holds ex_env ex_five_not_seven
  /\ denotes_difference ex_env (ESingleton INT_BAG ex_five)
       (ESingleton INT_BAG ex_five) (ESingleton INT_BAG ex_seven).
Proof.
  repeat (split; [vm_compute; reflexivity |]).
  apply (@bag_subtract_denotes_difference alpha_syntactic simplify_id
           solver_conjunct
           oracle_conjunct retypecheck_ok EIntersect_sub ECountIn_filter
           to_heap_call EHeapPeek2_call solver_satisfiable_none
           solver_satisfy_none
           eval_in_model_env exp_minus_bin construct_value_zero pprint_none
           alpha_syntactic_sound solver_conjunct_sound ex_ctx
           ex_five_not_seven (ESingleton INT_BAG ex_five)
           (ESingleton INT_BAG ex_seven) (ESingleton INT_BAG ex_five));
    vm_compute; reflexivity.
Defined.

(** The elements of [xs + [5]] greater than [3], where [xs] is [[1]]. *)
Lemma efilter_denotes_filter_witness :
  map_free ex_xs_plus = true
  /\ as_bag (eval ex_env
               (efilter simplify_id cond_plain compose_fresh
                  ex_xs_plus ex_big))
     = filter (fun v => as_bool (eval_lam ex_env ex_big v))
              (as_bag (eval ex_env ex_xs_plus)).
Proof.
  split; [reflexivity |].
  apply (proj1 (@efilter_denotes_filter simplify_id cond_plain
                  oracle_conjunct retypecheck_ok compose_fresh
                  EIntersect_sub ECountIn_filter to_heap_call
                  EHeapPeek2_call eval_in_model_env exp_minus_bin construct_value_zero pprint_none
                  simplify_id_sound cond_plain_sound compose_fresh_sound
                  ex_xs_plus ex_big ex_env)).
  reflexivity.
Defined.

(** The successors of the elements of [xs + [5]]. *)
Lemma emap_denotes_map_witness :
  as_bag (eval ex_env (emap cond_plain compose_fresh ex_xs_plus ex_succ))
  = map (eval_lam ex_env ex_succ) (as_bag (eval ex_env ex_xs_plus)).
Proof.
  apply (@emap_denotes_map cond_plain oracle_conjunct retypecheck_ok
           compose_fresh EIntersect_sub ECountIn_filter to_heap_call
           EHeapPeek2_call eval_in_model_env exp_minus_bin construct_value_zero pprint_none
           cond_plain_sound compose_fresh_sound).
Defined.

(** The flat-map of "keep what is greater than [3]" over [[5]], knowing
    that [5 > 3]. *)
Lemma flatmap_denotes_flat_map_witness :
  flatmap simplify_id solver_conjunct ex_ctx ex_five_big
    (ESingleton INT_BAG ex_five) ex_keep_big
  = Return (ESingleton INT_BAG ex_five)
  /\ holds ex_env ex_five_big
  /\ as_bag (eval ex_env (ESingleton INT_BAG ex_five))
     = flat_map (fun v => as_bag (eval_lam ex_env ex_keep_big v))
                (as_bag (eval ex_env (ESingleton INT_BAG ex_five))).
Proof.
  repeat (split; [vm_compute; reflexivity |]).
  apply (@flatmap_denotes_flat_map simplify_id solver_conjunct
           oracle_conjunct retypecheck_ok EIntersect_sub ECountIn_filter
           to_heap_call EHeapPeek2_call eval_in_model_env exp_minus_bin construct_value_zero pprint_none
           simplify_id_sound solver_conjunct_sound ex_ctx ex_five_big
           (ESingleton INT_BAG ex_five) ex_keep_big
           (ESingleton INT_BAG ex_five));
    vm_compute; reflexivity.
Defined.

(** The body "if [v > 3] then [[v]] else [[]]" is a filter on [v]. *)
Lemma filter_body_predicate_witness :
  definitely (is_filter (EVar INT "v") (body ex_keep_big)) = true
  /\ exists p,
       to_predicate cond_plain (body ex_keep_big) = Return p
       /\ forall env,
            as_bag (eval env (body ex_keep_big))
            = if as_bool (eval env p) then [eval env (EVar INT "v")]
              else [].
Proof.
  split; [vm_compute; reflexivity |].
  apply (@filter_body_predicate cond_plain cond_plain_sound).
  vm_compute. reflexivity.
Defined.

(** Assuming [b], the fork on [b] takes the then-branch, and [b] holds. *)
Lemma fork_chooses_by_condition_witness :
  holds ex_env_b ex_b
  /\ fork solver_conjunct ex_ctx ex_b ex_b ex_five ex_seven = Return ex_five
  /\ ex_five = (if as_bool (eval ex_env_b ex_b) then ex_five else ex_seven).
Proof.
  repeat (split; [vm_compute; reflexivity |]).
  apply (@fork_chooses_by_condition solver_conjunct solver_conjunct_sound
           Exp ex_ctx ex_b ex_b ex_five ex_seven ex_five ex_env_b);
    vm_compute; reflexivity.
Defined.

(** [(if b then decl t = 5 else no-op); xs.add(5)] before [xs.remove(7)]:
    the declaration ends a branch, not the first part. *)
Lemma mutate_sequence_law_witness :
  ends_in_decl (SSeq (SIf ex_b (SDecl "t" ex_five) SNoOp) op_add_five)
  = false
  /\ mutate alpha_syntactic ex_xs
       (SSeq (SSeq (SIf ex_b (SDecl "t" ex_five) SNoOp) op_add_five)
             (SCall ex_xs "remove" [ex_seven]))
     = (e1 <- mutate alpha_syntactic ex_xs (SCall ex_xs "remove" [ex_seven]) ;;
        mutate alpha_syntactic e1
          (SSeq (SIf ex_b (SDecl "t" ex_five) SNoOp) op_add_five)).
Proof.
  split; [reflexivity |].
  apply (@mutate_sequence_law alpha_syntactic). reflexivity.
Defined.

Local Notation "'ex_fork_func'" :=
  (fun a : Exp => lift (fork solver_conjunct ex_ctx a ex_b ex_five ex_seven)).

Lemma ex_fork_func_meets_spec :
  forall a st0 r0 st1,
    ex_fork_func a st0 = (Return r0, st1) ->
    forall env, holds env a -> eval env r0 = ex_fork_spec env.
Proof.
  intros a st0 r0 st1 H env HA. unfold lift in H. inversion H as [[Hf Hst]].
  rewrite (@fork_sound solver_conjunct solver_conjunct_sound Exp ex_ctx a
             ex_b env HA ex_five ex_seven r0 Hf).
  unfold ex_fork_spec. destruct (as_bool (eval env ex_b)); reflexivity.
Qed.

(** A function that needs to know [b] is resolved into a conditional on
    [b], which has the value the function promises. *)
Lemma resolve_forks_preserves_meaning_witness :
  resolve_forks cond_plain 1 T ex_fork_func 0
  = (Return (cond_plain ex_b ex_five ex_seven), 0)
  /\ holds ex_env_b T
  /\ eval ex_env_b (cond_plain ex_b ex_five ex_seven)
     = ex_fork_spec ex_env_b.
Proof.
  repeat (split; [vm_compute; reflexivity |]).
  apply (@resolve_forks_preserves_meaning cond_plain cond_plain_sound
           ex_fork_spec ex_fork_func ex_fork_func_meets_spec
           1 T 0 (cond_plain ex_b ex_five ex_seven) 0);
    vm_compute; reflexivity.
Defined.
